(** * asana2sql: the Project synchronizer (src/asana2sql/Project.py)

    A shallow embedding of the [Project] class and a verification of the
    properties its specification states: convergence and idempotence of
    [synchronize], the order of the statements it issues, error
    translation, the truncation warning, caching, table-name resolution,
    the fetch projection, subtask flattening and the identity column. *)

From stdpp Require Import gmap strings list fin_maps.
From Stdlib Require Import ZArith.

Local Open Scope string_scope.
Local Open Scope Z_scope.

(** ** Python values

    The values that travel between the remote records and the table
    cells: [None], integers and strings. *)

Inductive value : Type :=
| VNone
| VInt (n : Z)
| VStr (s : string).

#[global] Instance value_eq_dec : EqDecision value.
Proof. solve_decision. Defined.

Definition value_encode (v : value) : unit + (Z + string) :=
  match v with
  | VNone => inl tt
  | VInt n => inr (inl n)
  | VStr s => inr (inr s)
  end.

Definition value_decode (x : unit + (Z + string)) : value :=
  match x with
  | inl _ => VNone
  | inr (inl n) => VInt n
  | inr (inr s) => VStr s
  end.

#[global] Instance value_countable : Countable value.
Proof.
  apply (inj_countable' value_encode value_decode).
  intros []; reflexivity.
Defined.

(** A remote record (a task) is a Python dict keyed by attribute name. *)
Abbreviation Task := (gmap string value).

(** [task.get(key)]: the attribute, [None] when the key is absent. *)
Definition get (task : Task) (key : string) : value :=
  default VNone (task !! key).

(** The project metadata fetched with [fields="id,name,archived"]. *)
Record ProjectData : Type := {
  pd_id : value;
  pd_name : string;
  pd_archived : bool
}.

(** ** Field descriptors (module [fields], used through its interface)

    [sql_name] is falsy ([None] or the empty string, both rendered here as
    the empty string) for an indirect field.  [get_data_from_object]
    answers [None] when the descriptor raises on the record.  What a
    descriptor does besides answering (an indirect field may write to a
    table of its own) happens in module [fields] and is not rendered:
    the visit of an indirect field is recorded as an [IndirectField]
    event and nothing is said about tables other than the project's. *)

Record Field : Type := {
  sql_name : string;
  required_fields : list string;
  field_definition_sql : string;
  get_data_from_object : Task → option value
}.

(** Python truthiness of a string. *)
Definition truthy (s : string) : bool :=
  match s with
  | EmptyString => false
  | String _ _ => true
  end.

(** ** The statements handed to the database client *)

Inductive WriteStatement : Type :=
| CreateTable (table_name : string) (column_defs : list string)
| InsertOrReplace (table_name : string) (columns : list string)
                  (params : list value)
| DeleteFrom (table_name : string) (id_column : string) (param : value).

Inductive Query : Type :=
| Select (table_name : string) (columns : list string).

(** [",".join(parts)] *)
Definition join (parts : list string) : string := String.concat "," parts.

Definition dquote : string := String (Ascii.ascii_of_nat 34) EmptyString.

Definition quoted (name : string) : string := dquote ++ name ++ dquote.

(** The SQL text of a statement: the module's templates, formatted. *)
Definition write_sql (st : WriteStatement) : string :=
  match st with
  | CreateTable tn defs =>
      "CREATE TABLE IF NOT EXISTS " ++ quoted tn ++ " (" ++ join defs ++ ");"
  | InsertOrReplace tn cols _ =>
      "INSERT OR REPLACE INTO " ++ quoted tn ++ " (" ++ join cols
        ++ ") VALUES (" ++ join ((λ _, "?") <$> cols) ++ ");"
  | DeleteFrom tn col _ =>
      "DELETE FROM " ++ quoted tn ++ " WHERE " ++ col ++ " = ?;"
  end.

Definition query_sql (q : Query) : string :=
  match q with
  | Select tn cols => "SELECT " ++ join cols ++ " FROM " ++ quoted tn ++ ";"
  end.

Local Close Scope string_scope.

(** The bound parameters of a statement. *)
Definition write_params (st : WriteStatement) : list value :=
  match st with
  | CreateTable _ _ => []
  | InsertOrReplace _ _ params => params
  | DeleteFrom _ _ param => [param]
  end.

(** ** The relational store behind [db_client] *)

Abbreviation Row := (gmap string value).

Record Table : Type := {
  t_unique : option string;
  t_rows : list Row
}.

Abbreviation Store := (gmap string Table).

(** The cell of a row in a column; an absent column reads as NULL. Cells
    are compared as values: SQL's rule that NULL equals nothing is not
    part of this model. *)
Definition cell (r : Row) (column : string) : value :=
  default VNone (r !! column).

Definition conflicts (key : option string) (new old : Row) : bool :=
  match key with
  | Some k => bool_decide (cell old k = cell new k)
  | None => false
  end.

(** The list order of the rows is the order this store happens to keep
    them in; the statements do not fix one. *)
Definition rows_upsert (key : option string) (new : Row) (rows : list Row)
  : list Row :=
  filter (λ old, conflicts key new old = false) rows ++ [new].

Definition rows_delete (column : string) (v : value) (rows : list Row)
  : list Row :=
  filter (λ r, cell r column ≠ v) rows.

Definition rows_select (columns : list string) (rows : list Row)
  : list (list value) :=
  (λ r, cell r <$> columns) <$> rows.

Definition with_rows (t : Table) (rows : list Row) : Table :=
  {| t_unique := t_unique t; t_rows := rows |}.

(** The engine's reading of a column-definition list: the column, if any,
    that the definitions put under a uniqueness constraint. *)
Class DbEngine : Type := {
  unique_column : list string → option string
}.

Section Store.

Context {engine : DbEngine}.

(** Modelled from the spec: the database client is not part of
    Project.py.  [ensure_table] is an idempotent create that never
    alters an existing table; [upsert] is insert-or-replace keyed by the
    uniqueness constraint the column definitions establish; [delete]
    removes the rows whose identity column holds the value; a statement
    against a table that does not exist fails.  No other refusal of an
    engine (of a column list it cannot parse, say) is rendered. *)
Definition db_execute (st : WriteStatement) (db : Store) : option Store :=
  match st with
  | CreateTable tn defs =>
      match db !! tn with
      | Some _ => Some db
      | None =>
          Some (<[tn := {| t_unique := unique_column defs;
                           t_rows := [] |}]> db)
      end
  | InsertOrReplace tn cols params =>
      t ← db !! tn;
      Some (<[tn := with_rows t
                (rows_upsert (t_unique t) (list_to_map (zip cols params))
                             (t_rows t))]> db)
  | DeleteFrom tn col v =>
      t ← db !! tn;
      Some (<[tn := with_rows t (rows_delete col v (t_rows t))]> db)
  end.

(** Modelled from the spec: [select_columns] reads the named columns of
    every row back, in row order. *)
Definition db_query (q : Query) (db : Store) : option (list (list value)) :=
  match q with
  | Select tn cols => t ← db !! tn; Some (rows_select cols (t_rows t))
  end.

End Store.

(** ** The remote client, as it answers

    Each call answers [None] when the remote signals
    [asana.error.NotFoundError]. *)

Record AsanaClient : Type := {
  projects_find_by_id : value → string → option ProjectData;
  tasks_find_by_project : value → string → option (list Task);
  tasks_subtasks : value → string → option (list Task)
}.

(** The configuration object: [project_id] may be absent from its
    attributes; [table_name] is [None] or a string. *)
Record Config : Type := {
  cfg_project_id : option value;
  cfg_table_name : option string;
  cfg_with_subtasks : bool
}.

(** ** The [Project] object

    The attributes set once by the constructor. The two caches, which
    are the mutable attributes, live in the [World] below together with
    the store contents and the log of interactions. *)

Record Project : Type := {
  _asana_client : AsanaClient;
  _config : Config;
  _direct_fields : list Field;
  _indirect_fields : list Field;
  _project_id : value;
  _table_name : option string
}.

(** What the object does to its collaborators, in the order it does it. *)
Inductive Event : Type :=
| FindById (project_id : value) (fields : string)
| FindByProject (project_id : value) (fields : string)
| Subtasks (task_id : value) (fields : string)
| PrintWarning (fetched : nat)
| DbWrite (st : WriteStatement)
| DbRead (q : Query)
| IndirectField (index : nat) (task : Task).

Record World : Type := {
  _project_data_cache : option ProjectData;
  _task_cache : option (list Task);
  db : Store;
  trace : list Event
}.

Inductive Exception : Type :=
| NoSuchProjectException (project_id : value)
| NotFoundError
| IndexError
| FieldError
| StoreError.

#[global] Instance Exception_eq_dec : EqDecision Exception.
Proof. solve_decision. Defined.

Inductive Result (A : Type) : Type :=
| Ok (a : A)
| Raise (e : Exception).

Arguments Ok {A} a.
Arguments Raise {A} e.

(** ** A state-and-exception monad over the world *)

Definition M (A : Type) : Type := World → Result A * World.

Definition ret {A} (a : A) : M A := λ w, (Ok a, w).

Definition raise {A} (e : Exception) : M A := λ w, (Raise e, w).

Definition bind {A B} (m : M A) (k : A → M B) : M B :=
  λ w, match m w with
       | (Ok a, w') => k a w'
       | (Raise e, w') => (Raise e, w')
       end.

Declare Scope prog_scope.
Delimit Scope prog_scope with prog.
Notation "x <~ m ; k" := (bind m (λ x, k))
  (at level 100, m at next level, right associativity) : prog_scope.
Notation "m ;; k" := (bind m (λ _, k))
  (at level 100, right associativity) : prog_scope.
Local Open Scope prog_scope.

Definition gets {A} (f : World → A) : M A := λ w, (Ok (f w), w).

Definition modify (f : World → World) : M unit := λ w, (Ok tt, f w).

Definition log (e : Event) : M unit :=
  modify (λ w, {| _project_data_cache := _project_data_cache w;
                  _task_cache := _task_cache w;
                  db := db w;
                  trace := trace w ++ [e] |}).

Definition set_project_data_cache (d : ProjectData) : M unit :=
  modify (λ w, {| _project_data_cache := Some d;
                  _task_cache := _task_cache w;
                  db := db w;
                  trace := trace w |}).

Definition set_task_cache (ts : list Task) : M unit :=
  modify (λ w, {| _project_data_cache := _project_data_cache w;
                  _task_cache := Some ts;
                  db := db w;
                  trace := trace w |}).

Definition set_db (d : Store) : M unit :=
  modify (λ w, {| _project_data_cache := _project_data_cache w;
                  _task_cache := _task_cache w;
                  db := d;
                  trace := trace w |}).

(** A value that may be missing, with the exception raised when it is. *)
Definition or_raise {A} (o : option A) (e : Exception) : M A :=
  match o with
  | Some a => ret a
  | None => raise e
  end.

(** [for x in xs: body(x)] *)
Fixpoint for_each {A} (body : A → M unit) (xs : list A) : M unit :=
  match xs with
  | [] => ret tt
  | x :: xs' => body x ;; for_each body xs'
  end.

(** [[body(x) for x in xs]] *)
Fixpoint collect {A B} (body : A → M B) (xs : list A) : M (list B) :=
  match xs with
  | [] => ret []
  | x :: xs' => y <~ body x; ys <~ collect body xs'; ret (y :: ys)
  end.

(** [for i, x in enumerate(xs, start): body(i, x)] *)
Fixpoint for_each_indexed {A} (body : nat → A → M unit) (start : nat)
    (xs : list A) : M unit :=
  match xs with
  | [] => ret tt
  | x :: xs' => body start x ;; for_each_indexed body (S start) xs'
  end.

(** ** The constructor *)

(** [_add_field]: a field with a truthy [sql_name] is direct. *)
Definition _add_field (self : Project) (field : Field) : Project :=
  if truthy (sql_name field)
  then {| _asana_client := _asana_client self;
          _config := _config self;
          _direct_fields := _direct_fields self ++ [field];
          _indirect_fields := _indirect_fields self;
          _project_id := _project_id self;
          _table_name := _table_name self |}
  else {| _asana_client := _asana_client self;
          _config := _config self;
          _direct_fields := _direct_fields self;
          _indirect_fields := _indirect_fields self ++ [field];
          _project_id := _project_id self;
          _table_name := _table_name self |}.

(** [Project.__init__] *)
Definition init (asana_client : AsanaClient) (config : Config)
    (fields : list Field) : Project :=
  foldl _add_field
    {| _asana_client := asana_client;
       _config := config;
       _direct_fields := [];
       _indirect_fields := [];
       _project_id := default VNone (cfg_project_id config);
       _table_name := cfg_table_name config |}
    fields.

(** A freshly constructed object has empty caches. *)
Definition fresh (store : Store) : World :=
  {| _project_data_cache := None;
     _task_cache := None;
     db := store;
     trace := [] |}.

(** ** The methods *)

(** [util.sql_safe_name] lives outside Project.py and is used through its
    interface only. *)
Class Util : Type := {
  sql_safe_name : string → string
}.

Section Methods.

Context {util : Util} {engine : DbEngine}.

Definition db_client_write (st : WriteStatement) : M unit :=
  log (DbWrite st) ;;
  store <~ gets db;
  store' <~ or_raise (db_execute st store) StoreError;
  set_db store'.

Definition db_client_read (q : Query) : M (list (list value)) :=
  log (DbRead q) ;;
  store <~ gets db;
  or_raise (db_query q store) StoreError.

Definition _project_data (self : Project) : M ProjectData :=
  cache <~ gets _project_data_cache;
  match cache with
  | Some data => ret data
  | None =>
      log (FindById (_project_id self) "id,name,archived") ;;
      data <~ or_raise
                (projects_find_by_id (_asana_client self)
                   (_project_id self) "id,name,archived")
                (NoSuchProjectException (_project_id self));
      set_project_data_cache data ;;
      ret data
  end.

Definition _required_fields (self : Project) : gset string :=
  list_to_set
    ((_direct_fields self ++ _indirect_fields self) ≫= required_fields).

(** The projection string: the set, comma-joined in iteration order.
    Python leaves the iteration order of a set unspecified; [elements]
    fixes one. *)
Definition projection (self : Project) : string :=
  join (elements (_required_fields self)).

Definition _tasks (self : Project) : M (list Task) :=
  cache <~ gets _task_cache;
  match cache with
  | Some result => ret result
  | None =>
      log (FindByProject (_project_id self) (projection self)) ;;
      result <~ or_raise
                  (tasks_find_by_project (_asana_client self)
                     (_project_id self) (projection self))
                  NotFoundError;
      (if bool_decide (50 ≤ length result)%nat
       then log (PrintWarning (length result))
       else ret tt) ;;
      result <~ (if cfg_with_subtasks (_config self)
                 then
                   subtask_lists <~
                     collect
                       (λ task,
                          log (Subtasks (get task "id") (projection self)) ;;
                          or_raise
                            (tasks_subtasks (_asana_client self)
                               (get task "id") (projection self))
                            NotFoundError)
                       result;
                   ret (result ++ concat subtask_lists)
                 else ret result);
      set_task_cache result ;;
      ret result
  end.

Definition tasks (self : Project) : M (list Task) := _tasks self.

Definition project_name (self : Project) : M string :=
  data <~ _project_data self;
  ret (pd_name data).

Definition table_name (self : Project) : M string :=
  name <~ match _table_name self with
          | Some configured =>
              if truthy configured then ret configured
              else project_name self
          | None => project_name self
          end;
  ret (sql_safe_name name).

Definition create_table (self : Project) : M unit :=
  tn <~ table_name self;
  db_client_write
    (CreateTable tn (field_definition_sql <$> _direct_fields self)).

(** The parameters are extracted before the table name is resolved; the
    indirect fields are visited after the write, for their effects. *)
Definition insert_or_replace (self : Project) (task : Task) : M unit :=
  let columns := sql_name <$> _direct_fields self in
  params <~ collect
              (λ field, or_raise (get_data_from_object field task) FieldError)
              (_direct_fields self);
  tn <~ table_name self;
  db_client_write (InsertOrReplace tn columns params) ;;
  for_each_indexed
    (λ i field,
       or_raise (get_data_from_object field task) FieldError ;;
       log (IndirectField i task))
    0%nat (_indirect_fields self).

Definition export (self : Project) : M unit :=
  ts <~ _tasks self;
  for_each (insert_or_replace self) ts.

Definition _id_field (self : Project) : M Field :=
  or_raise (_direct_fields self !! 0%nat) IndexError.

Definition delete (self : Project) (task_id : value) : M unit :=
  id_field <~ _id_field self;
  tn <~ table_name self;
  db_client_write (DeleteFrom tn (sql_name id_field) task_id).

Definition asana_task_ids (self : Project) : M (gset value) :=
  ts <~ _tasks self;
  ret (list_to_set ((λ task, get task "id") <$> ts)).

(** [set(row[0] for row in ...)]: the first column of every row read. *)
Definition db_task_ids (self : Project) : M (gset value) :=
  id_field <~ _id_field self;
  tn <~ table_name self;
  rows <~ db_client_read (Select tn [sql_name id_field]);
  ids <~ collect (λ row : list value, or_raise (row !! 0%nat) IndexError)
           rows;
  ret (list_to_set ids).

(** The stale identities are visited in the iteration order of the set,
    as [elements] fixes it. *)
Definition synchronize (self : Project) : M unit :=
  db_task_ids <~ db_task_ids self;
  asana_task_ids <~ asana_task_ids self;
  let ids_to_remove := db_task_ids ∖ asana_task_ids in
  ts <~ _tasks self;
  for_each (insert_or_replace self) ts ;;
  for_each (delete self) (elements ids_to_remove).

(** [dict(zip(field_names, row))]: a later duplicate key wins. The
    membership join view, [db_select_all_in_project], goes through the
    workspace object and is left out. *)
Definition db_select_all (self : Project) : M (list Row) :=
  let field_names := sql_name <$> _direct_fields self in
  tn <~ table_name self;
  rows <~ db_client_read (Select tn field_names);
  ret ((λ row, list_to_map (reverse (zip field_names row))) <$> rows).

End Methods.

(** ** Calls on the object

    The public methods, as a caller may invoke them one after the other;
    [call] runs one and drops its return value. *)

Inductive Operation : Type :=
| CallTasks
| CallProjectName
| CallTableName
| CallCreateTable
| CallExport
| CallInsertOrReplace (task : Task)
| CallDelete (task_id : value)
| CallSynchronize
| CallAsanaTaskIds
| CallDbTaskIds
| CallDbSelectAll.

Definition call {util : Util} {engine : DbEngine} (self : Project)
    (op : Operation) : M unit :=
  match op with
  | CallTasks => tasks self ;; ret tt
  | CallProjectName => project_name self ;; ret tt
  | CallTableName => table_name self ;; ret tt
  | CallCreateTable => create_table self
  | CallExport => export self
  | CallInsertOrReplace task => insert_or_replace self task
  | CallDelete task_id => delete self task_id
  | CallSynchronize => synchronize self
  | CallAsanaTaskIds => asana_task_ids self ;; ret tt
  | CallDbTaskIds => db_task_ids self ;; ret tt
  | CallDbSelectAll => db_select_all self ;; ret tt
  end.

(** A sequence of calls; an exception of one call is the caller's to
    handle and does not stop the next call. *)
Fixpoint calls {util : Util} {engine : DbEngine} (self : Project)
    (ops : list Operation) (w : World) : World :=
  match ops with
  | [] => w
  | op :: ops' => calls self ops' (call self op w).2
  end.

(** ** Specifications of programs in [M]

    The predicates the theorems below are stated with. *)

(** [wp m w Q]: running [m] from [w] ends in a result and a world that
    satisfy [Q]. *)
Definition wp {A} (m : M A) (w : World) (Q : Result A → World → Prop)
  : Prop :=
  Q (m w).1 (m w).2.

(** The continuation of a postcondition through a bind. *)
Definition then_wp {A B} (k : A → M B) (Q : Result B → World → Prop)
  : Result A → World → Prop :=
  λ r w, match r with
         | Ok a => wp (k a) w Q
         | Raise e => Q (Raise e) w
         end.

(** [preserves R m]: every run of [m] relates its initial to its final
    world by [R], whatever the outcome. *)
Definition preserves {A} (R : relation World) (m : M A) : Prop :=
  ∀ w, R w (m w).2.

(** [emits P w w']: the log of [w'] is the log of [w] followed by events
    that all satisfy [P]. *)
Definition emits (P : Event → Prop) : relation World :=
  λ w w', ∃ evs, trace w' = trace w ++ evs ∧ Forall P evs.

(** Two phases: events of the first kind, then events of the second. *)
Definition emits2 (P1 P2 : Event → Prop) : relation World :=
  λ w w', ∃ e1 e2,
    trace w' = trace w ++ e1 ++ e2 ∧ Forall P1 e1 ∧ Forall P2 e2.

(** The log only grows. *)
Definition extends : relation World := emits (λ _, True).

(** The store is left as it was. *)
Definition same_db : relation World := λ w w', db w' = db w.

(** A filled cache is never emptied nor refilled. *)
Definition caches_kept : relation World :=
  λ w w',
    (∀ d, _project_data_cache w = Some d →
          _project_data_cache w' = Some d) ∧
    (∀ ts, _task_cache w = Some ts → _task_cache w' = Some ts).

(** The write statements among some events. *)
Definition writes (evs : list Event) : list WriteStatement :=
  omap (λ e, match e with DbWrite st => Some st | _ => None end) evs.

Definition is_write (e : Event) : Prop :=
  match e with DbWrite _ => True | _ => False end.

Definition is_store_event (e : Event) : Prop :=
  match e with DbWrite _ | DbRead _ => True | _ => False end.

Definition is_upsert (e : Event) : Prop :=
  match e with DbWrite (InsertOrReplace _ _ _) => True | _ => False end.

Definition is_delete (e : Event) : Prop :=
  match e with DbWrite (DeleteFrom _ _ _) => True | _ => False end.

Definition is_remote_fetch (e : Event) : Prop :=
  match e with
  | FindById _ _ | FindByProject _ _ | Subtasks _ _ => True
  | _ => False
  end.


(** The explicitly configured table name, when there is a truthy one. *)
Definition configured_name (self : Project) : option string :=
  match _table_name self with
  | Some configured => if truthy configured then Some configured else None
  | None => None
  end.

(** The remote answers not-found for the project's id. *)
Definition remote_not_found (self : Project) : Prop :=
  projects_find_by_id (_asana_client self) (_project_id self)
    "id,name,archived" = None.

(** The events of each kind of interaction. *)
Definition metadata_fetch (self : Project) (e : Event) : Prop :=
  e = FindById (_project_id self) "id,name,archived".

(** The fetch of the metadata for the sake of the table name: it happens
    only when no name is configured. *)
Definition name_fetch (self : Project) (e : Event) : Prop :=
  configured_name self = None ∧ metadata_fetch self e.

Definition task_fetch (self : Project) (e : Event) : Prop :=
  match e with
  | FindByProject pid fields =>
      pid = _project_id self ∧ fields = projection self
  | Subtasks _ fields => fields = projection self
  | PrintWarning _ => True
  | _ => False
  end.

Definition upsert_event (self : Project) (e : Event) : Prop :=
  match e with
  | FindById _ _ => name_fetch self e
  | DbWrite (InsertOrReplace _ columns _) =>
      columns = sql_name <$> _direct_fields self
  | IndirectField _ _ => True
  | _ => False
  end.

Definition delete_event (self : Project) (task_id : value) (e : Event)
  : Prop :=
  match e with
  | FindById _ _ => name_fetch self e
  | DbWrite (DeleteFrom _ column param) =>
      Some column = sql_name <$> _direct_fields self !! 0%nat ∧
      param = task_id
  | _ => False
  end.

Definition id_read_event (self : Project) (e : Event) : Prop :=
  match e with
  | FindById _ _ => name_fetch self e
  | DbRead (Select _ columns) =>
      Some columns = (λ f, [sql_name f]) <$> _direct_fields self !! 0%nat
  | _ => False
  end.

(** [never_raises e m]: no run of [m] ends in the exception [e]. *)
Definition never_raises {A} (e : Exception) (m : M A) : Prop :=
  ∀ w, (m w).1 ≠ Raise e.

(** [unchanged f]: the component [f] of the world is left as it was. *)
Definition unchanged {A} (f : World → A) : relation World :=
  λ w w', f w' = f w.

(** The identity values a table holds in a column. *)
Definition stored_ids (column : string) (rows : list Row) : gset value :=
  list_to_set ((λ r, cell r column) <$> rows).

(** The identity values of remote records: their [id] attribute. *)
Definition remote_ids (ts : list Task) : gset value :=
  list_to_set ((λ task, get task "id") <$> ts).

(** The table name the object can produce without asking the remote. *)
Definition known_table_name {util : Util} (self : Project) (w : World)
  : option string :=
  match configured_name self with
  | Some configured => Some (sql_safe_name configured)
  | None => (λ d, sql_safe_name (pd_name d)) <$> _project_data_cache w
  end.

(** The values the direct fields extract from a record, when none of the
    descriptors raises. *)
Definition params_of (self : Project) (task : Task) : option (list value) :=
  mapM (λ field, get_data_from_object field task) (_direct_fields self).

(** The upsert and delete statements of a record and of an identity. *)
Definition upsert_of (self : Project) (tn : string) (params : list value)
  : WriteStatement :=
  InsertOrReplace tn (sql_name <$> _direct_fields self) params.

(** A statement that names an identity column names [column]. *)
Definition uses_id_column (column : string) (e : Event) : Prop :=
  match e with
  | DbWrite (DeleteFrom _ c _) => c = column
  | DbRead (Select _ cs) => cs = [column]
  | _ => True
  end.

(** [stops_at_metadata self m]: from a world without cached metadata,
    [m] fails either before touching anything or at the metadata fetch,
    with [NoSuchProjectException]. *)
Definition stops_at_metadata {A} (self : Project) (m : M A) : Prop :=
  ∀ w, _project_data_cache w = None →
    (∃ e, m w = (Raise e, w)) ∨
    m w = (Raise (NoSuchProjectException (_project_id self)),
           (log (FindById (_project_id self) "id,name,archived") w).2).

(** The outcome of an operation on a project the remote does not know:
    if the run asked for the metadata, it failed with
    [NoSuchProjectException], issued no write and left the store alone. *)
Definition fails_before_writing {A} (self : Project) (w : World)
    (rw : Result A * World) : Prop :=
  ∃ evs, trace rw.2 = trace w ++ evs ∧
    (Exists (metadata_fetch self) evs →
       rw.1 = Raise (NoSuchProjectException (_project_id self)) ∧
       Forall (λ e, ¬ is_write e) evs ∧
       db rw.2 = db w).

(** *** The task fetch, described *)

(** The answers to one subtask fetch per top-level task. *)
Definition subtask_lists (self : Project) (top : list Task)
  : option (list (list Task)) :=
  mapM (λ task, tasks_subtasks (_asana_client self) (get task "id")
                  (projection self)) top.

Definition subtask_events (self : Project) (top : list Task) : list Event :=
  (λ task, Subtasks (get task "id") (projection self)) <$> top.

Definition warning (top : list Task) : list Event :=
  if bool_decide (50 ≤ length top)%nat then [PrintWarning (length top)]
  else [].

(** The task list a fetch yields from the top-level answer. *)
Definition fetched_tasks (self : Project) (top : list Task)
  : option (list Task) :=
  if cfg_with_subtasks (_config self)
  then (λ lists, top ++ concat lists) <$> subtask_lists self top
  else Some top.

(** The events of a fetch that goes through. *)
Definition fetch_events (self : Project) (top : list Task) : list Event :=
  FindByProject (_project_id self) (projection self)
    :: warning top
    ++ (if cfg_with_subtasks (_config self) then subtask_events self top
        else []).

(** The world after a fetch: the list cached, the events logged. *)
Definition fetched (w : World) (ts : list Task) (evs : list Event) : World :=
  {| _project_data_cache := _project_data_cache w;
     _task_cache := Some ts;
     db := db w;
     trace := trace w ++ evs |}.

(** The same object, facing a remote that answers differently. *)
Definition with_remote (self : Project) (client : AsanaClient) : Project :=
  {| _asana_client := client;
     _config := _config self;
     _direct_fields := _direct_fields self;
     _indirect_fields := _indirect_fields self;
     _project_id := _project_id self;
     _table_name := _table_name self |}.

(** An event that carries a projection carries [fields]. *)
Definition projects_onto (fields : string) (e : Event) : Prop :=
  match e with
  | FindByProject _ f | Subtasks _ f => f = fields
  | _ => True
  end.

(** *** The reconciliation, described *)

(** The values a record yields for its row, when no descriptor, direct
    or indirect, raises on it. *)
Definition extracts (self : Project) (task : Task) : option (list value) :=
  params ← params_of self task;
  _ ← mapM (λ field, get_data_from_object field task)
        (_indirect_fields self);
  Some params.

(** The row an upsert writes. *)
Definition row_of (self : Project) (params : list value) : Row :=
  list_to_map (zip (sql_name <$> _direct_fields self) params).

(** The rows after a sequence of upserts, and after a sequence of
    deletes. *)
Definition upserted (self : Project) (key : option string)
    (paramss : list (list value)) (rows : list Row) : list Row :=
  foldl (λ rows params, rows_upsert key (row_of self params) rows)
    rows paramss.

Definition deleted (column : string) (ids : list value) (rows : list Row)
  : list Row :=
  foldl (λ rows v, rows_delete column v rows) rows ids.

(** [wrote sts w w']: the store aside, [w'] is [w] with more events
    logged, none of them a remote fetch, whose write statements are
    [sts]. *)
Definition wrote (sts : list WriteStatement) (w w' : World) : Prop :=
  _project_data_cache w' = _project_data_cache w ∧
  _task_cache w' = _task_cache w ∧
  ∃ evs, trace w' = trace w ++ evs ∧ writes evs = sts ∧
         Forall (λ e, ¬ is_remote_fetch e) evs.

(** The first declared direct field extracts the [id] attribute. *)
Definition identity_field_extracts_id (self : Project) : Prop :=
  ∀ field task,
    _direct_fields self !! 0%nat = Some field →
    get_data_from_object field task = Some (get task "id").

(** The table's uniqueness constraint, if it has one, is on the column of
    the first declared direct field. *)
Definition unique_on_identity (self : Project) (t : Table) : Prop :=
  ∀ k, t_unique t = Some k →
       Some k = sql_name <$> _direct_fields self !! 0%nat.

(** The loop of [insert_or_replace] over the indirect fields. *)
Definition indirect_loop (task : Task) : nat → list Field → M unit :=
  for_each_indexed
    (λ i field,
       or_raise (get_data_from_object field task) FieldError ;;
       log (IndirectField i task)).

(** The part of [synchronize] that follows the two identity sets. *)
Definition reconcile {util : Util} {engine : DbEngine} (self : Project)
    (db_task_ids asana_task_ids : gset value) : M unit :=
  (let ids_to_remove := db_task_ids ∖ asana_task_ids in
   ts <~ _tasks self;
   for_each (insert_or_replace self) ts ;;
   for_each (delete self) (elements ids_to_remove))%prog.

(** [synchronized self id_field tn t ts paramss w w']: [w'] is [w] after a
    run of [synchronize] that went through, on the table [t] stored under
    [tn], for the remote records [ts] with row values [paramss]. *)
Definition synchronized {util : Util} (self : Project) (id_field : Field)
    (tn : string) (t : Table) (ts : list Task) (paramss : list (list value))
    (w w' : World) : Prop :=
  let column := sql_name id_field in
  let stale := elements (stored_ids column (t_rows t) ∖ remote_ids ts) in
  known_table_name self w' = Some tn ∧
  _task_cache w' = Some ts ∧
  db w' = <[tn := with_rows t
             (deleted column stale
                (upserted self (t_unique t) paramss (t_rows t)))]> (db w) ∧
  ∃ evs, trace w' = trace w ++ evs ∧
         writes evs = (upsert_of self tn <$> paramss)
                        ++ (DeleteFrom tn column <$> stale).

(** Of the rows upserted under a uniqueness constraint on [column], the
    ones that remain: for each identity value, the last row written. *)
Fixpoint last_wins (column : string) (news : list Row) : list Row :=
  match news with
  | [] => []
  | r :: rest =>
      if decide (cell r column ∈ (λ r', cell r' column) <$> rest)
      then last_wins column rest
      else r :: last_wins column rest
  end.

(** The operations that only read: the getters and the two read-backs. *)
Definition reads_only (op : Operation) : bool :=
  match op with
  | CallTasks | CallProjectName | CallTableName | CallAsanaTaskIds
  | CallDbTaskIds | CallDbSelectAll => true
  | _ => false
  end.

(** Among them, those that talk to the remote alone. *)
Definition asks_remote_only (op : Operation) : bool :=
  match op with
  | CallTasks | CallProjectName | CallTableName | CallAsanaTaskIds => true
  | _ => false
  end.

(** The task list [_tasks] yields on a world when nothing fails: the
    cached one, or the one a fetch brings. *)
Definition available_tasks (self : Project) (w : World)
  : option (list Task) :=
  match _task_cache w with
  | Some ts => Some ts
  | None =>
      top ← tasks_find_by_project (_asana_client self) (_project_id self)
              (projection self);
      fetched_tasks self top
  end.

(** The mapping [db_select_all] makes of a stored row:
    [dict(zip(field_names, row))] over the cells read from the row. *)
Definition read_back (names : list string) (r : Row) : Row :=
  list_to_map (reverse (zip names (cell r <$> names))).

(** The rows a table keeps when [new] is upserted: those that do not
    conflict with it on the uniqueness constraint. *)
Definition kept_rows (key : option string) (new : Row) (rows : list Row)
  : list Row :=
  filter (λ old, conflicts key new old = false) rows.

(** ** Concrete collaborators and scenarios *)

(** Modelled from the spec: [util.sql_safe_name] is not part of
    Project.py. It is a SQL-safe transformation of a display name in which
    non-alphanumeric characters are normalized; here each character that
    is neither a letter nor a digit becomes an underscore. *)
Definition alphanumeric (c : Ascii.ascii) : bool :=
  let n := Ascii.nat_of_ascii c in
  ((48 <=? n) && (n <=? 57) || (65 <=? n) && (n <=? 90)
   || (97 <=? n) && (n <=? 122))%nat.

Fixpoint slug (name : string) : string :=
  match name with
  | EmptyString => EmptyString
  | String c rest =>
      String (if alphanumeric c then c else Ascii.ascii_of_nat 95) (slug rest)
  end.

Definition slug_util : Util := {| sql_safe_name := slug |}.

(** An engine that reads no uniqueness constraint out of the column
    definitions it is given. *)
Definition plain_engine : DbEngine := {| unique_column := λ _, None |}.

(** The two descriptors of the scenarios: the task id and the task name. *)
Definition id_field : Field :=
  {| sql_name := "id";
     required_fields := ["id"];
     field_definition_sql := "id INTEGER PRIMARY KEY";
     get_data_from_object := λ task, Some (get task "id") |}.

Definition name_field : Field :=
  {| sql_name := "name";
     required_fields := ["name"];
     field_definition_sql := "name VARCHAR(1024)";
     get_data_from_object := λ task, Some (get task "name") |}.

Definition task (id : Z) (name : string) : Task :=
  {[ "id" := VInt id; "name" := VStr name ]}.

(** A remote with project 7, tasks A and B, and a subtask A1 of A. *)
Definition remote : AsanaClient :=
  {| projects_find_by_id := λ _ _,
       Some {| pd_id := VInt 7; pd_name := "Road map"; pd_archived := false |};
     tasks_find_by_project := λ _ _, Some [task 1 "A"; task 2 "B"];
     tasks_subtasks := λ task_id _,
       if decide (task_id = VInt 1) then Some [task 11 "A1"] else Some [] |}.

(** A remote that knows no project. *)
Definition empty_remote : AsanaClient :=
  {| projects_find_by_id := λ _ _, None;
     tasks_find_by_project := λ _ _, None;
     tasks_subtasks := λ _ _, None |}.

Definition configuration (table : option string) (subtasks : bool) : Config :=
  {| cfg_project_id := Some (VInt 7);
     cfg_table_name := table;
     cfg_with_subtasks := subtasks |}.

(** A store with an empty table [tasks] whose uniqueness constraint is on
    [key]. *)
Definition tasks_table (key : string) : Store :=
  {[ "tasks" := {| t_unique := Some key; t_rows := [] |} ]}.

(** The id declared first: the convention the code relies on. *)
Definition project : Project :=
  init remote (configuration (Some "tasks") false) [id_field; name_field].

(** The same, with subtasks. *)
Definition project_with_subtasks : Project :=
  init remote (configuration (Some "tasks") true) [id_field; name_field].

(** The name declared first. *)
Definition project_name_first : Project :=
  init remote (configuration (Some "tasks") false) [name_field; id_field].

(** A project the remote does not know, with no table name configured. *)
Definition unknown_project : Project :=
  init empty_remote (configuration None false) [id_field; name_field].

(** A configured table name that is not SQL-safe. *)
Definition project_my_table : Project :=
  init remote (configuration (Some "my table") false) [id_field; name_field].

(** A remote whose project holds fifty top-level tasks. *)
Definition fifty_tasks : list Task :=
  (λ i, task (Z.of_nat i) "T") <$> seq 0 50.

Definition crowded_remote : AsanaClient :=
  {| projects_find_by_id := projects_find_by_id remote;
     tasks_find_by_project := λ _ _, Some fifty_tasks;
     tasks_subtasks := λ _ _, Some [] |}.

Definition crowded_project : Project :=
  init crowded_remote (configuration (Some "tasks") false)
    [id_field; name_field].

(** A direct field whose descriptor raises on a record without a due
    date, and an indirect field whose descriptor raises on a record
    without followers. *)
Definition due_field : Field :=
  {| sql_name := "due_on";
     required_fields := ["due_on"];
     field_definition_sql := "due_on DATE";
     get_data_from_object := λ task, task !! "due_on" |}.

Definition followers_field : Field :=
  {| sql_name := EmptyString;
     required_fields := ["followers"];
     field_definition_sql := EmptyString;
     get_data_from_object := λ task, task !! "followers" |}.

Definition project_with_due : Project :=
  init remote (configuration (Some "tasks") false) [id_field; due_field].

Definition project_with_followers : Project :=
  init remote (configuration (Some "tasks") false)
    [id_field; followers_field; name_field].

(** A project whose table name comes from the remote. *)
Definition project_by_name : Project :=
  init remote (configuration None false) [id_field; name_field].

(** A remote whose project holds no task, and one that knows the tasks
    but none of their subtasks. *)
Definition idle_remote : AsanaClient :=
  {| projects_find_by_id := projects_find_by_id remote;
     tasks_find_by_project := λ _ _, Some [];
     tasks_subtasks := λ _ _, Some [] |}.

Definition idle_project : Project :=
  init idle_remote (configuration (Some "tasks") false) [id_field; name_field].

Definition flaky_remote : AsanaClient :=
  {| projects_find_by_id := projects_find_by_id remote;
     tasks_find_by_project := tasks_find_by_project remote;
     tasks_subtasks := λ _ _, None |}.

Definition flaky_project : Project :=
  init flaky_remote (configuration (Some "tasks") true) [id_field; name_field].

(** A store whose table [tasks] holds one row, of identity 5. *)
Definition stocked_table : Store :=
  {[ "tasks" := {| t_unique := Some "id"; t_rows := [task 5 "Old"] |} ]}.

(** A store with an empty table under the name the remote project's
    display name resolves to. *)
Definition road_map_table : Store :=
  {[ "Road_map" := {| t_unique := Some "id"; t_rows := [] |} ]}.

(** * Verification *)

(** ** Reasoning about programs in [M] *)

Lemma wp_bind {A B} (m : M A) (k : A → M B) w Q :
  wp m w (then_wp k Q) → wp (bind m k) w Q.
Proof.
  unfold wp, then_wp, bind. destruct (m w) as [[a|e] w1]; simpl; auto.
Qed.

Lemma wp_mono {A} (m : M A) w (Q Q' : Result A → World → Prop) :
  wp m w Q → (∀ r w', Q r w' → Q' r w') → wp m w Q'.
Proof. unfold wp. auto. Qed.

Lemma wp_eq {A} (m : M A) w r w' Q : m w = (r, w') → wp m w Q → Q r w'.
Proof. unfold wp. intros ->. auto. Qed.

Lemma Ok_inj {A} (a b : A) : Ok a = Ok b → a = b.
Proof. by intros [=]. Qed.

Lemma bind_ok {A B} (m : M A) (k : A → M B) w b w' :
  bind m k w = (Ok b, w') →
  ∃ a w1, m w = (Ok a, w1) ∧ k a w1 = (Ok b, w').
Proof.
  unfold bind. destruct (m w) as [[a|e] w1]; [eauto | discriminate].
Qed.

Lemma bind_raise {A B} (m : M A) (k : A → M B) w e w' :
  bind m k w = (Raise e, w') →
  m w = (Raise e, w') ∨ ∃ a w1, m w = (Ok a, w1) ∧ k a w1 = (Raise e, w').
Proof.
  unfold bind. destruct (m w) as [[a|e1] w1]; [eauto |].
  intros [= -> ->]. auto.
Qed.

Lemma bind_run_ok {A B} (m : M A) (k : A → M B) w a w1 :
  m w = (Ok a, w1) → bind m k w = k a w1.
Proof. unfold bind. intros ->. reflexivity. Qed.

Lemma bind_run_raise {A B} (m : M A) (k : A → M B) w e w1 :
  m w = (Raise e, w1) → bind m k w = (Raise e, w1).
Proof. unfold bind. intros ->. reflexivity. Qed.

Lemma or_raise_ok {A} (o : option A) e w a w' :
  or_raise o e w = (Ok a, w') → o = Some a ∧ w' = w.
Proof. destruct o; simpl; unfold ret, raise; intros [=]; subst; auto. Qed.

(** A loop invariant indexed by the elements still to visit. *)
Lemma wp_for_each {A} (body : A → M unit) (I : list A → World → Prop)
    xs w Q :
  I xs w →
  (∀ x rest w1, I (x :: rest) w1 →
     wp (body x) w1 (λ r w2, match r with
                             | Ok _ => I rest w2
                             | Raise e => Q (Raise e) w2
                             end)) →
  (∀ w1, I [] w1 → Q (Ok tt) w1) →
  wp (for_each body xs) w Q.
Proof.
  intros HI Hbody Hend. revert w HI.
  induction xs as [|x xs IH]; intros w HI; simpl.
  - apply Hend, HI.
  - apply wp_bind. eapply wp_mono; [apply Hbody, HI|].
    intros [[]|e] w2; simpl; auto.
Qed.

Lemma wp_for_each_indexed {A} (body : nat → A → M unit)
    (I : nat → list A → World → Prop) n xs w Q :
  I n xs w →
  (∀ i x rest w1, I i (x :: rest) w1 →
     wp (body i x) w1 (λ r w2, match r with
                               | Ok _ => I (S i) rest w2
                               | Raise e => Q (Raise e) w2
                               end)) →
  (∀ i w1, I i [] w1 → Q (Ok tt) w1) →
  wp (for_each_indexed body n xs) w Q.
Proof.
  intros HI Hbody Hend. revert n w HI.
  induction xs as [|x xs IH]; intros n w HI; simpl.
  - eapply Hend, HI.
  - apply wp_bind. eapply wp_mono; [apply Hbody, HI|].
    intros [[]|e] w2; simpl; auto.
Qed.

(** The comprehension, with an invariant over the elements still to visit
    and a pointwise relation between each element and its image. *)
Lemma wp_collect {A B} (body : A → M B) (I : World → Prop)
    (R : A → B → Prop) xs w Q :
  I w →
  (∀ x w1, I w1 →
     wp (body x) w1 (λ r w2, match r with
                             | Ok y => R x y ∧ I w2
                             | Raise e => Q (Raise e) w2
                             end)) →
  (∀ ys w1, Forall2 R xs ys → I w1 → Q (Ok ys) w1) →
  wp (collect body xs) w Q.
Proof.
  revert w Q. induction xs as [|x xs IH]; intros w Q HI Hbody Hend; simpl.
  - apply Hend; [constructor | done].
  - apply wp_bind. eapply wp_mono; [apply Hbody, HI|].
    intros [y|e] w2; simpl; [|auto]. intros [Hxy HI2].
    apply wp_bind. apply IH; [done | |].
    + intros x' w1 HI1. eapply wp_mono; [apply Hbody, HI1|].
      intros [y'|e'] w3; simpl; auto.
    + intros ys w1 Hys HI1. simpl. apply Hend; [by constructor | done].
Qed.

(** *** Relations between the world before and the world after *)

Section Preserves.

Variable R : relation World.
Context `{!PreOrder R}.

Lemma preserves_ret {A} (a : A) : preserves R (ret a).
Proof. intros w. simpl. reflexivity. Qed.

Lemma preserves_raise {A} e : preserves R (@raise A e).
Proof. intros w. simpl. reflexivity. Qed.

Lemma preserves_gets {A} (f : World → A) : preserves R (gets f).
Proof. intros w. simpl. reflexivity. Qed.

Lemma preserves_or_raise {A} (o : option A) e : preserves R (or_raise o e).
Proof. destruct o; [apply preserves_ret | apply preserves_raise]. Qed.

Lemma preserves_bind {A B} (m : M A) (k : A → M B) :
  preserves R m → (∀ a, preserves R (k a)) → preserves R (bind m k).
Proof.
  intros Hm Hk w. unfold bind. specialize (Hm w).
  destruct (m w) as [[a|e] w1]; simpl in *; [|done].
  etrans; [exact Hm | apply Hk].
Qed.

Lemma preserves_bind_ret {A B} (a : A) (k : A → M B) :
  preserves R (k a) → preserves R (bind (ret a) k).
Proof. intros Hk w. apply Hk. Qed.

Lemma preserves_bind_raise {A B} e (k : A → M B) :
  preserves R (bind (raise e) k).
Proof. intros w. simpl. reflexivity. Qed.

Lemma preserves_for_each {A} (body : A → M unit) xs :
  (∀ x, preserves R (body x)) → preserves R (for_each body xs).
Proof.
  intros Hb. induction xs; simpl;
    [apply preserves_ret | apply preserves_bind; auto].
Qed.

Lemma preserves_for_each_indexed {A} (body : nat → A → M unit) n xs :
  (∀ i x, preserves R (body i x)) →
  preserves R (for_each_indexed body n xs).
Proof.
  intros Hb. revert n. induction xs; intros n; simpl;
    [apply preserves_ret | apply preserves_bind; auto].
Qed.

Lemma preserves_collect {A B} (body : A → M B) xs :
  (∀ x, preserves R (body x)) → preserves R (collect body xs).
Proof.
  intros Hb. induction xs; simpl; [apply preserves_ret|].
  apply preserves_bind; [auto|]. intros y.
  apply preserves_bind; [auto|]. intros ys. apply preserves_ret.
Qed.

Lemma preserves_if {A} (b : bool) (m1 m2 : M A) :
  preserves R m1 → preserves R m2 → preserves R (if b then m1 else m2).
Proof. by destruct b. Qed.

End Preserves.

(** *** What a run adds to the log *)

#[global] Instance emits_preorder P : PreOrder (emits P).
Proof.
  split.
  - intros w. exists []. by rewrite app_nil_r.
  - intros w1 w2 w3 (e1 & H1 & F1) (e2 & H2 & F2).
    exists (e1 ++ e2). rewrite H2, H1, <- (assoc_L (++)).
    split; [done | by apply Forall_app].
Qed.

Lemma emits_weaken (P P' : Event → Prop) w w' :
  (∀ e, P e → P' e) → emits P w w' → emits P' w w'.
Proof.
  intros HP (evs & H & F). exists evs. split; [done|].
  eapply Forall_impl; eauto.
Qed.

Lemma preserves_emits_weaken {A} (P P' : Event → Prop) (m : M A) :
  (∀ e, P e → P' e) → preserves (emits P) m → preserves (emits P') m.
Proof. intros HP Hm w. eapply emits_weaken; [exact HP | apply Hm]. Qed.

Lemma log_emits (P : Event → Prop) e : P e → preserves (emits P) (log e).
Proof. intros HP w. exists [e]. simpl. auto. Qed.

Lemma set_db_emits P d : preserves (emits P) (set_db d).
Proof. intros w. exists []. simpl. by rewrite app_nil_r. Qed.

Lemma set_project_data_cache_emits P d :
  preserves (emits P) (set_project_data_cache d).
Proof. intros w. exists []. simpl. by rewrite app_nil_r. Qed.

Lemma set_task_cache_emits P ts : preserves (emits P) (set_task_cache ts).
Proof. intros w. exists []. simpl. by rewrite app_nil_r. Qed.

Lemma emits2_first (P1 P2 : Event → Prop) w w' :
  emits P1 w w' → emits2 P1 P2 w w'.
Proof.
  intros (evs & H & F). exists evs, []. by rewrite app_nil_r.
Qed.

Lemma emits2_second (P1 P2 : Event → Prop) w w' :
  emits P2 w w' → emits2 P1 P2 w w'.
Proof. intros (evs & H & F). exists [], evs. auto. Qed.

Lemma emits2_bind {A B} (P1 P2 : Event → Prop) (m : M A) (k : A → M B) :
  preserves (emits P1) m →
  (∀ a, preserves (emits2 P1 P2) (k a)) →
  preserves (emits2 P1 P2) (bind m k).
Proof.
  intros Hm Hk w. unfold bind. specialize (Hm w).
  destruct (m w) as [[a|e] w1]; simpl in *.
  - destruct Hm as (e0 & H0 & F0).
    destruct (Hk a w1) as (e1 & e2 & H12 & F1 & F2).
    exists (e0 ++ e1), e2. rewrite H12, H0, <- !(assoc_L (++)).
    split; [done|]. split; [by apply Forall_app | done].
  - by apply emits2_first.
Qed.

#[global] Instance same_db_preorder : PreOrder same_db.
Proof.
  split; [done|]. intros w1 w2 w3 H1 H2. unfold same_db in *. congruence.
Qed.

#[global] Instance caches_kept_preorder : PreOrder caches_kept.
Proof.
  split; [done|]. intros w1 w2 w3 [H1 H1'] [H2 H2']. split; auto.
Qed.

(** ** The log of each method *)

Ltac pres_step :=
  lazymatch goal with
  | |- preserves _ (bind (ret _) _) => apply preserves_bind_ret
  | |- preserves _ (bind (raise _) _) => apply preserves_bind_raise; tc_solve
  | |- preserves _ (bind _ _) => apply preserves_bind; [tc_solve | | intro]
  | |- preserves _ (ret _) => apply preserves_ret; tc_solve
  | |- preserves _ (raise _) => apply preserves_raise; tc_solve
  | |- preserves _ (gets _) => apply preserves_gets; tc_solve
  | |- preserves _ (or_raise _ _) => apply preserves_or_raise; tc_solve
  | |- preserves _ (for_each _ _) =>
      apply preserves_for_each; [tc_solve | intro]
  | |- preserves _ (for_each_indexed _ _ _) =>
      apply preserves_for_each_indexed; [tc_solve | intros ? ?]
  | |- preserves _ (collect _ _) =>
      apply preserves_collect; [tc_solve | intro]
  | |- preserves _ (if ?b then _ else _) => destruct b
  | |- preserves _ (match ?x with _ => _ end) => destruct x
  end.

Ltac pres := repeat pres_step.

Section Footprints.

Context {util : Util} {engine : DbEngine}.

Variable P : Event → Prop.

Lemma db_client_write_emits st :
  P (DbWrite st) → preserves (emits P) (db_client_write st).
Proof.
  intros HP. unfold db_client_write. pres.
  - by apply log_emits.
  - apply set_db_emits.
Qed.

Lemma db_client_read_emits q :
  P (DbRead q) → preserves (emits P) (db_client_read q).
Proof. intros HP. unfold db_client_read. pres. by apply log_emits. Qed.

Lemma _project_data_emits self :
  (∀ e, metadata_fetch self e → P e) →
  preserves (emits P) (_project_data self).
Proof.
  intros HP. unfold _project_data. pres.
  - apply log_emits, HP. reflexivity.
  - apply set_project_data_cache_emits.
Qed.

Lemma project_name_emits self :
  (∀ e, metadata_fetch self e → P e) →
  preserves (emits P) (project_name self).
Proof.
  intros HP. unfold project_name. pres. by apply _project_data_emits.
Qed.

Lemma table_name_emits self :
  (∀ e, name_fetch self e → P e) →
  preserves (emits P) (table_name self).
Proof.
  intros HP. unfold table_name.
  assert (configured_name self = None →
          preserves (emits P) (project_name self))
    as Hfetch.
  { intros Hc. apply project_name_emits. intros e He. by apply HP. }
  unfold configured_name in Hfetch.
  destruct (_table_name self) as [c|]; [destruct (truthy c)|]; pres; auto.
Qed.

Lemma _tasks_emits self :
  (∀ e, task_fetch self e → P e) → preserves (emits P) (_tasks self).
Proof.
  intros HP. unfold _tasks. pres;
    try (apply log_emits, HP; simpl; done);
    apply set_task_cache_emits.
Qed.

Lemma create_table_emits self :
  (∀ e, name_fetch self e → P e) →
  (∀ tn, P (DbWrite (CreateTable tn
                       (field_definition_sql <$> _direct_fields self)))) →
  preserves (emits P) (create_table self).
Proof.
  intros HP HW. unfold create_table. pres.
  - by apply table_name_emits.
  - by apply db_client_write_emits.
Qed.

Lemma insert_or_replace_emits self task :
  (∀ e, upsert_event self e → P e) →
  preserves (emits P) (insert_or_replace self task).
Proof.
  intros HP. unfold insert_or_replace. pres.
  - apply table_name_emits. intros e He. apply HP.
    destruct He as [Hc ->]. by split.
  - apply db_client_write_emits, HP. reflexivity.
  - apply log_emits, HP. exact I.
Qed.

Lemma export_emits self :
  (∀ e, task_fetch self e → P e) →
  (∀ e, upsert_event self e → P e) →
  preserves (emits P) (export self).
Proof.
  intros HT HU. unfold export. pres.
  - by apply _tasks_emits.
  - by apply insert_or_replace_emits.
Qed.

Lemma delete_emits self task_id :
  (∀ e, delete_event self task_id e → P e) →
  preserves (emits P) (delete self task_id).
Proof.
  intros HP. unfold delete, _id_field.
  destruct (_direct_fields self !! 0%nat) as [f|] eqn:Hf; simpl; pres.
  - apply table_name_emits. intros e He. apply HP.
    destruct He as [Hc ->]. by split.
  - apply db_client_write_emits, HP. unfold delete_event. rewrite Hf.
    split; exact eq_refl.
Qed.

Lemma asana_task_ids_emits self :
  (∀ e, task_fetch self e → P e) →
  preserves (emits P) (asana_task_ids self).
Proof. intros HP. unfold asana_task_ids. pres. by apply _tasks_emits. Qed.

Lemma db_task_ids_emits self :
  (∀ e, id_read_event self e → P e) →
  preserves (emits P) (db_task_ids self).
Proof.
  intros HP. unfold db_task_ids, _id_field.
  destruct (_direct_fields self !! 0%nat) as [f|] eqn:Hf; simpl; pres.
  - apply table_name_emits. intros e He. apply HP.
    destruct He as [Hc ->]. by split.
  - apply db_client_read_emits, HP. unfold id_read_event. rewrite Hf.
    exact eq_refl.
Qed.

Lemma synchronize_emits self :
  (∀ e, id_read_event self e → P e) →
  (∀ e, task_fetch self e → P e) →
  (∀ e, upsert_event self e → P e) →
  (∀ task_id e, delete_event self task_id e → P e) →
  preserves (emits P) (synchronize self).
Proof.
  intros HR HT HU HD. unfold synchronize. pres.
  - by apply db_task_ids_emits.
  - by apply asana_task_ids_emits.
  - by apply _tasks_emits.
  - by apply insert_or_replace_emits.
  - eapply delete_emits. apply HD.
Qed.

Lemma db_select_all_emits self :
  (∀ e, name_fetch self e → P e) →
  (∀ tn, P (DbRead (Select tn (sql_name <$> _direct_fields self)))) →
  preserves (emits P) (db_select_all self).
Proof.
  intros HN HR. unfold db_select_all. pres.
  - by apply table_name_emits.
  - by apply db_client_read_emits.
Qed.

(** Every event of every call is of one of the kinds above. *)
Lemma call_emits self op :
  (∀ e, metadata_fetch self e → P e) →
  (∀ e, task_fetch self e → P e) →
  (∀ e, id_read_event self e → P e) →
  (∀ e, upsert_event self e → P e) →
  (∀ task_id e, delete_event self task_id e → P e) →
  (∀ tn, P (DbWrite (CreateTable tn
                       (field_definition_sql <$> _direct_fields self)))) →
  (∀ tn, P (DbRead (Select tn (sql_name <$> _direct_fields self)))) →
  preserves (emits P) (call self op).
Proof.
  intros HM HT HR HU HD HC HS.
  assert (∀ e, name_fetch self e → P e) as HN by (intros e [_ He]; auto).
  destruct op; simpl; unfold tasks; pres.
  - by apply _tasks_emits.
  - by apply project_name_emits.
  - by apply table_name_emits.
  - by apply create_table_emits.
  - by apply export_emits.
  - by apply insert_or_replace_emits.
  - eapply delete_emits, HD.
  - by apply synchronize_emits.
  - by apply asana_task_ids_emits.
  - by apply db_task_ids_emits.
  - by apply db_select_all_emits.
Qed.

End Footprints.

Lemma task_fetch_not_metadata self e :
  task_fetch self e → ¬ metadata_fetch self e.
Proof. intros He Hm. red in Hm. subst e. done. Qed.

Lemma task_fetch_not_write self e : task_fetch self e → ¬ is_write e.
Proof. destruct e; simpl; tauto. Qed.

(** ** Exceptions a program cannot raise *)

Section NeverRaises.

Variable e : Exception.

Lemma never_raises_ret {A} (a : A) : never_raises e (ret a).
Proof. intros w. discriminate. Qed.

Lemma never_raises_gets {A} (f : World → A) : never_raises e (gets f).
Proof. intros w. discriminate. Qed.

Lemma never_raises_modify f : never_raises e (modify f).
Proof. intros w. discriminate. Qed.

Lemma never_raises_raise {A} e' : e' ≠ e → never_raises e (@raise A e').
Proof. intros Hne w. simpl. congruence. Qed.

Lemma never_raises_or_raise {A} (o : option A) e' :
  e' ≠ e → never_raises e (or_raise o e').
Proof.
  intros Hne. destruct o; [apply never_raises_ret|].
  by apply never_raises_raise.
Qed.

Lemma never_raises_bind {A B} (m : M A) (k : A → M B) :
  never_raises e m → (∀ a, never_raises e (k a)) →
  never_raises e (bind m k).
Proof.
  intros Hm Hk w. unfold bind. specialize (Hm w).
  destruct (m w) as [[a|e1] w1]; simpl in *; [apply Hk|].
  intros [= ->]. by apply Hm.
Qed.

Lemma never_raises_for_each {A} (body : A → M unit) xs :
  (∀ x, never_raises e (body x)) → never_raises e (for_each body xs).
Proof.
  intros Hb. induction xs; simpl;
    [apply never_raises_ret | apply never_raises_bind; auto].
Qed.

Lemma never_raises_for_each_indexed {A} (body : nat → A → M unit) n xs :
  (∀ i x, never_raises e (body i x)) →
  never_raises e (for_each_indexed body n xs).
Proof.
  intros Hb. revert n. induction xs; intros n; simpl;
    [apply never_raises_ret | apply never_raises_bind; auto].
Qed.

Lemma never_raises_collect {A B} (body : A → M B) xs :
  (∀ x, never_raises e (body x)) → never_raises e (collect body xs).
Proof.
  intros Hb. induction xs; simpl; [apply never_raises_ret|].
  apply never_raises_bind; [auto|]. intros y.
  apply never_raises_bind; [auto|]. intros ys. apply never_raises_ret.
Qed.

End NeverRaises.

Ltac nr_step :=
  lazymatch goal with
  | |- never_raises _ (bind _ _) => apply never_raises_bind; [| intro]
  | |- never_raises _ (ret _) => apply never_raises_ret
  | |- never_raises _ (raise _) => apply never_raises_raise; discriminate
  | |- never_raises _ (gets _) => apply never_raises_gets
  | |- never_raises _ (modify _) => apply never_raises_modify
  | |- never_raises _ (log _) => apply never_raises_modify
  | |- never_raises _ (set_db _) => apply never_raises_modify
  | |- never_raises _ (set_task_cache _) => apply never_raises_modify
  | |- never_raises _ (set_project_data_cache _) => apply never_raises_modify
  | |- never_raises _ (or_raise _ _) =>
      apply never_raises_or_raise; discriminate
  | |- never_raises _ (for_each _ _) => apply never_raises_for_each; intro
  | |- never_raises _ (for_each_indexed _ _ _) =>
      apply never_raises_for_each_indexed; intros ? ?
  | |- never_raises _ (collect _ _) => apply never_raises_collect; intro
  | |- never_raises _ (if ?b then _ else _) => destruct b
  | |- never_raises _ (match ?x with _ => _ end) => destruct x
  end.

Ltac nr := repeat nr_step.

(** ** Components of the world a program leaves alone *)

#[global] Instance unchanged_preorder {A} (f : World → A) :
  PreOrder (unchanged f).
Proof.
  split; [done|]. intros w1 w2 w3 H1 H2. unfold unchanged in *. congruence.
Qed.

Lemma modify_unchanged {A} (f : World → A) g :
  (∀ w, f (g w) = f w) → preserves (unchanged f) (modify g).
Proof. intros Hg w. apply Hg. Qed.

Lemma modify_caches_kept g :
  (∀ w, _project_data_cache (g w) = _project_data_cache w) →
  (∀ w, _task_cache (g w) = _task_cache w) →
  preserves caches_kept (modify g).
Proof. intros H1 H2 w. split; intros ?; simpl; rewrite ?H1, ?H2; done. Qed.

(** The primitive updates, for the components they do not touch. *)
Ltac frame_prim :=
  lazymatch goal with
  | |- preserves (unchanged _) (log _) =>
      apply modify_unchanged; intro; reflexivity
  | |- preserves (unchanged _) (set_db _) =>
      apply modify_unchanged; intro; reflexivity
  | |- preserves (unchanged _) (set_task_cache _) =>
      apply modify_unchanged; intro; reflexivity
  | |- preserves (unchanged _) (set_project_data_cache _) =>
      apply modify_unchanged; intro; reflexivity
  | |- preserves caches_kept (log _) =>
      apply modify_caches_kept; intro; reflexivity
  | |- preserves caches_kept (set_db _) =>
      apply modify_caches_kept; intro; reflexivity
  end.

Ltac frame := pres; try frame_prim.

Lemma unchanged_caches_kept w w' :
  unchanged _project_data_cache w w' → unchanged _task_cache w w' →
  caches_kept w w'.
Proof. unfold unchanged. intros H1 H2. split; intros ?; congruence. Qed.

Section Frames.

Context {util : Util} {engine : DbEngine}.

Lemma db_client_write_never_raises e st :
  e ≠ StoreError → never_raises e (db_client_write st).
Proof.
  intros He. unfold db_client_write. nr.
  apply never_raises_or_raise. congruence.
Qed.

Lemma _project_data_same_db self :
  preserves (unchanged db) (_project_data self).
Proof. unfold _project_data. frame. Qed.

Lemma _project_data_same_tasks self :
  preserves (unchanged _task_cache) (_project_data self).
Proof. unfold _project_data. frame. Qed.

Lemma _project_data_caches_kept self :
  preserves caches_kept (_project_data self).
Proof.
  intros w. unfold _project_data, bind, gets. simpl.
  destruct (_project_data_cache w) as [d|] eqn:Hc; simpl; [done|].
  destruct (projects_find_by_id _ _ _); simpl;
    (split; intros ?; simpl; [congruence | done]).
Qed.

Lemma table_name_same_db self : preserves (unchanged db) (table_name self).
Proof.
  unfold table_name, project_name. frame; apply _project_data_same_db.
Qed.

Lemma table_name_same_tasks self :
  preserves (unchanged _task_cache) (table_name self).
Proof.
  unfold table_name, project_name. frame; apply _project_data_same_tasks.
Qed.

Lemma table_name_caches_kept self :
  preserves caches_kept (table_name self).
Proof.
  unfold table_name, project_name. frame; apply _project_data_caches_kept.
Qed.

Lemma _tasks_same_db self : preserves (unchanged db) (_tasks self).
Proof. unfold _tasks. frame. Qed.

Lemma _tasks_same_project_data self :
  preserves (unchanged _project_data_cache) (_tasks self).
Proof. unfold _tasks. frame. Qed.

Lemma _tasks_caches_kept self : preserves caches_kept (_tasks self).
Proof.
  intros w. destruct (_task_cache w) as [ts|] eqn:Hc.
  - replace (_tasks self w) with (Ok ts, w); [reflexivity|].
    unfold _tasks, bind, gets. simpl. by rewrite Hc.
  - pose proof (_tasks_same_project_data self w) as Hpd.
    unfold unchanged in Hpd.
    split; [intros d Hd; by rewrite Hpd | intros ts; congruence].
Qed.

Lemma db_client_read_unchanged {A} (f : World → A) q :
  (∀ e w, f (log e w).2 = f w) →
  preserves (unchanged f) (db_client_read q).
Proof.
  intros Hf. unfold db_client_read. pres. intros w. apply Hf.
Qed.

Lemma db_client_read_caches_kept q : preserves caches_kept (db_client_read q).
Proof. unfold db_client_read. frame. Qed.

Lemma db_client_write_caches_kept st :
  preserves caches_kept (db_client_write st).
Proof. unfold db_client_write. frame. Qed.

Lemma create_table_caches_kept self : preserves caches_kept (create_table self).
Proof.
  unfold create_table. pres;
    [apply table_name_caches_kept | apply db_client_write_caches_kept].
Qed.

Lemma insert_or_replace_caches_kept self task :
  preserves caches_kept (insert_or_replace self task).
Proof.
  unfold insert_or_replace. frame;
    [apply table_name_caches_kept | apply db_client_write_caches_kept].
Qed.

Lemma delete_caches_kept self task_id :
  preserves caches_kept (delete self task_id).
Proof.
  unfold delete, _id_field. pres;
    [apply table_name_caches_kept | apply db_client_write_caches_kept].
Qed.

Lemma db_task_ids_caches_kept self : preserves caches_kept (db_task_ids self).
Proof.
  unfold db_task_ids, _id_field. pres;
    [apply table_name_caches_kept | apply db_client_read_caches_kept].
Qed.

Lemma asana_task_ids_caches_kept self :
  preserves caches_kept (asana_task_ids self).
Proof. unfold asana_task_ids. pres. apply _tasks_caches_kept. Qed.

Lemma export_caches_kept self : preserves caches_kept (export self).
Proof.
  unfold export. pres;
    [apply _tasks_caches_kept | apply insert_or_replace_caches_kept].
Qed.

Lemma synchronize_caches_kept self : preserves caches_kept (synchronize self).
Proof.
  unfold synchronize. pres;
    [ apply db_task_ids_caches_kept | apply asana_task_ids_caches_kept
    | apply _tasks_caches_kept | apply insert_or_replace_caches_kept
    | apply delete_caches_kept ].
Qed.

Lemma db_select_all_caches_kept self :
  preserves caches_kept (db_select_all self).
Proof.
  unfold db_select_all. pres;
    [apply table_name_caches_kept | apply db_client_read_caches_kept].
Qed.

Lemma call_caches_kept self op : preserves caches_kept (call self op).
Proof.
  destruct op; simpl; unfold tasks, project_name; pres;
    first [ apply _tasks_caches_kept | apply _project_data_caches_kept
          | apply table_name_caches_kept | apply create_table_caches_kept
          | apply export_caches_kept | apply insert_or_replace_caches_kept
          | apply delete_caches_kept | apply synchronize_caches_kept
          | apply asana_task_ids_caches_kept | apply db_task_ids_caches_kept
          | apply db_select_all_caches_kept ].
Qed.

Lemma calls_caches_kept self ops w : caches_kept w (calls self ops w).
Proof.
  revert w. induction ops as [|op ops IH]; intros w; simpl; [done|].
  etrans; [apply call_caches_kept | apply IH].
Qed.

End Frames.

(** ** What each method computes *)

Lemma collect_or_raise {A B} (g : A → option B) e xs w :
  collect (λ x, or_raise (g x) e) xs w =
  (match mapM g xs with Some ys => Ok ys | None => Raise e end, w).
Proof.
  revert w. induction xs as [|x xs IH]; intros w; simpl; [done|].
  unfold bind at 1. destruct (g x) as [y|]; simpl; [|done].
  unfold bind at 1. rewrite IH. by destruct (mapM g xs).
Qed.

Lemma collect_first_column {A} (g : A → value) (xs : list A) w :
  collect (λ row : list value, or_raise (row !! 0%nat) IndexError)
    ((λ x, [g x]) <$> xs) w = (Ok (g <$> xs), w).
Proof.
  revert w. induction xs as [|x xs IH]; intros w; simpl; [done|].
  unfold bind at 1. simpl. unfold bind at 1. by rewrite IH.
Qed.

Lemma rows_select_one column rows :
  rows_select [column] rows = (λ r, [cell r column]) <$> rows.
Proof. reflexivity. Qed.

Section Runs.

Context {util : Util} {engine : DbEngine}.

Lemma _id_field_run self w :
  _id_field self w =
  match _direct_fields self with
  | [] => (Raise IndexError, w)
  | id_field :: _ => (Ok id_field, w)
  end.
Proof. unfold _id_field. by destruct (_direct_fields self). Qed.

Lemma _project_data_cached self w d :
  _project_data_cache w = Some d → _project_data self w = (Ok d, w).
Proof. intros Hc. unfold _project_data, bind, gets. simpl. by rewrite Hc. Qed.

Lemma _project_data_not_found self w :
  remote_not_found self → _project_data_cache w = None →
  _project_data self w =
  (Raise (NoSuchProjectException (_project_id self)),
   (log (FindById (_project_id self) "id,name,archived") w).2).
Proof.
  intros Hnf Hc. unfold remote_not_found in Hnf.
  unfold _project_data, bind, gets, log, modify. simpl.
  rewrite Hc, Hnf. simpl. by rewrite ?Hc.
Qed.

Lemma _project_data_ok self w d w' :
  _project_data self w = (Ok d, w') → _project_data_cache w' = Some d.
Proof.
  unfold _project_data, bind at 1, gets. simpl.
  destruct (_project_data_cache w) as [d0|] eqn:Hc; simpl.
  - intros [= -> ->]. done.
  - unfold bind at 1. simpl. unfold bind at 1.
    destruct (projects_find_by_id _ _ _); simpl; [|discriminate].
    intros [= -> <-]. done.
Qed.

Lemma _tasks_cached self w ts :
  _task_cache w = Some ts → _tasks self w = (Ok ts, w).
Proof. intros Hc. unfold _tasks, bind, gets. simpl. by rewrite Hc. Qed.

Lemma table_name_known self w tn :
  known_table_name self w = Some tn → table_name self w = (Ok tn, w).
Proof.
  unfold known_table_name, configured_name, table_name, project_name.
  destruct (_table_name self) as [c|]; [destruct (truthy c)|]; simpl.
  - by intros [= <-].
  - destruct (_project_data_cache w) as [d|] eqn:Hc; [|discriminate].
    intros [= <-]. unfold bind. by rewrite (_project_data_cached _ _ d).
  - destruct (_project_data_cache w) as [d|] eqn:Hc; [|discriminate].
    intros [= <-]. unfold bind. by rewrite (_project_data_cached _ _ d).
Qed.

Lemma table_name_ok self w tn w' :
  table_name self w = (Ok tn, w') → known_table_name self w' = Some tn.
Proof.
  unfold known_table_name, configured_name, table_name, project_name.
  destruct (_table_name self) as [c|]; [destruct (truthy c)|]; simpl.
  - by intros [= <- <-].
  - unfold bind.
    destruct (_project_data self w) as [[d|e] w1] eqn:Hd; [|discriminate].
    intros [= <- <-]. by rewrite (_project_data_ok _ _ _ _ Hd).
  - unfold bind.
    destruct (_project_data self w) as [[d|e] w1] eqn:Hd; [|discriminate].
    intros [= <- <-]. by rewrite (_project_data_ok _ _ _ _ Hd).
Qed.

Lemma known_table_name_kept self w w' tn :
  caches_kept w w' →
  known_table_name self w = Some tn → known_table_name self w' = Some tn.
Proof.
  intros [Hk _]. unfold known_table_name.
  destruct (configured_name self); [done|].
  destruct (_project_data_cache w) as [d|] eqn:Hc; [|discriminate].
  by rewrite (Hk d eq_refl).
Qed.

(** Without a configured name and with the remote answering not-found,
    the table name cannot be resolved. *)
Lemma table_name_not_found self w :
  remote_not_found self → configured_name self = None →
  _project_data_cache w = None →
  table_name self w =
  (Raise (NoSuchProjectException (_project_id self)),
   (log (FindById (_project_id self) "id,name,archived") w).2).
Proof.
  intros Hnf Hcfg Hc. unfold table_name, project_name.
  unfold configured_name in Hcfg.
  destruct (_table_name self) as [c|]; [destruct (truthy c)|];
    try discriminate;
    unfold bind; by rewrite _project_data_not_found.
Qed.

Lemma db_task_ids_run self w :
  db_task_ids self w =
  match _direct_fields self with
  | [] => (Raise IndexError, w)
  | id_field :: _ =>
      match table_name self w with
      | (Raise e, w1) => (Raise e, w1)
      | (Ok tn, w1) =>
          let w2 := (log (DbRead (Select tn [sql_name id_field])) w1).2 in
          match db w1 !! tn with
          | Some t => (Ok (stored_ids (sql_name id_field) (t_rows t)), w2)
          | None => (Raise StoreError, w2)
          end
      end
  end.
Proof.
  unfold db_task_ids. unfold bind at 1. rewrite _id_field_run.
  destruct (_direct_fields self) as [|f rest]; [done|].
  unfold bind at 1. destruct (table_name self w) as [[tn|e] w1]; [|done].
  unfold bind at 1. unfold db_client_read, bind at 1. simpl.
  unfold bind at 1. simpl.
  destruct (db w1 !! tn) as [t|]; simpl; [|done].
  rewrite rows_select_one. unfold bind. by rewrite collect_first_column.
Qed.

Lemma delete_run self task_id w :
  delete self task_id w =
  match _direct_fields self with
  | [] => (Raise IndexError, w)
  | id_field :: _ =>
      match table_name self w with
      | (Raise e, w1) => (Raise e, w1)
      | (Ok tn, w1) =>
          db_client_write (DeleteFrom tn (sql_name id_field) task_id) w1
      end
  end.
Proof.
  unfold delete. unfold bind at 1. rewrite _id_field_run.
  destruct (_direct_fields self) as [|f rest]; [done|].
  unfold bind at 1. by destruct (table_name self w) as [[tn|e] w1].
Qed.

Lemma db_client_write_run st w :
  db_client_write st w =
  match db_execute st (db w) with
  | Some store' => ((set_db store';; ret tt) (log (DbWrite st) w).2)
  | None => (Raise StoreError, (log (DbWrite st) w).2)
  end.
Proof.
  unfold db_client_write, bind, log, gets, modify. simpl.
  by destruct (db_execute st (db w)).
Qed.

Lemma insert_or_replace_run self task w :
  insert_or_replace self task w =
  match params_of self task with
  | None => (Raise FieldError, w)
  | Some params =>
      match table_name self w with
      | (Raise e, w1) => (Raise e, w1)
      | (Ok tn, w1) =>
          (db_client_write (upsert_of self tn params) ;;
           for_each_indexed
             (λ i field,
                or_raise (get_data_from_object field task) FieldError ;;
                log (IndirectField i task))
             0%nat (_indirect_fields self)) w1
      end
  end.
Proof.
  unfold insert_or_replace, params_of. unfold bind at 1.
  rewrite collect_or_raise.
  destruct (mapM _ _) as [params|]; [|done].
  unfold bind at 1. by destruct (table_name self w) as [[tn|e] w1].
Qed.

End Runs.

(** ** The task fetch *)

Lemma collect_subtasks_run (client : AsanaClient) (fields : string) top
    lists w :
  mapM (λ task, tasks_subtasks client (get task "id") fields) top
    = Some lists →
  collect (λ task, log (Subtasks (get task "id") fields) ;;
                   or_raise (tasks_subtasks client (get task "id") fields)
                     NotFoundError) top w =
  (Ok lists,
   {| _project_data_cache := _project_data_cache w;
      _task_cache := _task_cache w;
      db := db w;
      trace := trace w
               ++ ((λ task, Subtasks (get task "id") fields) <$> top) |}).
Proof.
  revert lists w. induction top as [|t top IH]; intros lists w; simpl.
  - intros [= <-]. rewrite app_nil_r. by destruct w.
  - destruct (tasks_subtasks client (get t "id") fields) as [l|] eqn:Hl;
      simpl; [|discriminate].
    destruct (mapM _ top) as [ls|] eqn:Hls; simpl; [|discriminate].
    intros [= <-]. unfold bind at 1. unfold bind at 1. simpl.
    unfold bind at 1. rewrite (IH ls); [|done].
    simpl. by rewrite <- (assoc_L (++)).
Qed.

Lemma _tasks_fetch_run self w top result :
  _task_cache w = None →
  tasks_find_by_project (_asana_client self) (_project_id self)
    (projection self) = Some top →
  fetched_tasks self top = Some result →
  _tasks self w = (Ok result, fetched w result (fetch_events self top)).
Proof.
  intros Hc Htop Hres. unfold _tasks, bind at 1, gets. simpl. rewrite Hc.
  unfold bind at 1. simpl. unfold bind at 1. rewrite Htop. simpl.
  unfold fetched_tasks in Hres. unfold fetch_events, warning, fetched.
  unfold bind at 1.
  destruct (cfg_with_subtasks (_config self)).
  - destruct (subtask_lists self top) as [lists|] eqn:Hl; [|discriminate].
    injection Hres as <-. unfold subtask_lists in Hl.
    destruct (bool_decide (50 ≤ length top)%nat); simpl;
      unfold bind at 1; unfold bind at 1;
      rewrite (collect_subtasks_run _ _ _ lists) by done; simpl;
      by rewrite <- ?(assoc_L (++)).
  - injection Hres as <-.
    destruct (bool_decide (50 ≤ length top)%nat); simpl;
      by rewrite ?app_nil_r, <- ?(assoc_L (++)).
Qed.

Lemma collect_subtasks_fail (client : AsanaClient) (fields : string) top w :
  mapM (λ task, tasks_subtasks client (get task "id") fields) top = None →
  ∃ w',
    collect (λ task, log (Subtasks (get task "id") fields) ;;
                     or_raise (tasks_subtasks client (get task "id") fields)
                       NotFoundError) top w = (Raise NotFoundError, w').
Proof.
  revert w. induction top as [|t top IH]; intros w; simpl; [discriminate|].
  destruct (tasks_subtasks client (get t "id") fields) as [l|] eqn:Hl; simpl.
  - destruct (mapM _ top) as [ls|] eqn:Hls; simpl; [discriminate|].
    intros _. unfold bind at 1. unfold bind at 1. simpl.
    unfold bind at 1.
    match goal with
    | |- context [collect _ top ?w0] =>
        destruct (IH w0 eq_refl) as [w' ->]
    end.
    by eexists.
  - intros _. unfold bind at 1. unfold bind at 1. simpl. by eexists.
Qed.

(** A fetch that returns went through, and the list it returns is the one
    it caches. *)
Lemma _tasks_fetch_ok self w ts w1 :
  _task_cache w = None →
  _tasks self w = (Ok ts, w1) →
  ∃ top,
    tasks_find_by_project (_asana_client self) (_project_id self)
      (projection self) = Some top ∧
    fetched_tasks self top = Some ts ∧
    w1 = fetched w ts (fetch_events self top).
Proof.
  intros Hc Hrun.
  destruct (tasks_find_by_project (_asana_client self) (_project_id self)
              (projection self)) as [top|] eqn:Htop.
  - exists top. split; [done|].
    destruct (fetched_tasks self top) as [result|] eqn:Hres.
    + rewrite (_tasks_fetch_run self w top result) in Hrun by done.
      by injection Hrun as -> ->.
    + exfalso. revert Hrun. unfold fetched_tasks in Hres.
      unfold _tasks, bind at 1, gets. simpl. rewrite Hc.
      unfold bind at 1. simpl. unfold bind at 1. rewrite Htop. simpl.
      unfold bind at 1.
      destruct (cfg_with_subtasks (_config self)); [|discriminate].
      destruct (subtask_lists self top) as [lists|] eqn:Hl; [discriminate|].
      unfold subtask_lists in Hl.
      destruct (bool_decide (50 ≤ length top)%nat); simpl;
        unfold bind at 1; unfold bind at 1;
        match goal with
        | |- context [collect ?f top ?w0] =>
            destruct (collect_subtasks_fail _ _ top w0 Hl) as [w' ->]
        end; discriminate.
  - exfalso. revert Hrun.
    unfold _tasks, bind at 1, gets. simpl. rewrite Hc.
    unfold bind at 1. simpl. unfold bind at 1. rewrite Htop. discriminate.
Qed.

Lemma _tasks_ok self w ts w1 :
  _tasks self w = (Ok ts, w1) → _task_cache w1 = Some ts.
Proof.
  intros Hrun. destruct (_task_cache w) as [ts0|] eqn:Hc.
  - rewrite (_tasks_cached self w ts0 Hc) in Hrun. by injection Hrun as <- <-.
  - destruct (_tasks_fetch_ok self w ts w1 Hc Hrun) as (top & _ & _ & ->).
    done.
Qed.

(** ** Upserts and deletes, one at a time and in a loop *)

Lemma writes_app evs1 evs2 : writes (evs1 ++ evs2) = writes evs1 ++ writes evs2.
Proof. unfold writes. apply omap_app. Qed.

Lemma writes_none evs : Forall (λ e, ¬ is_write e) evs → writes evs = [].
Proof.
  induction 1 as [|e evs He _ IH]; [done|].
  unfold writes in *.
  destruct e; simpl in *; first [exact IH | exfalso; by apply He].
Qed.

Lemma wrote_refl w : wrote [] w w.
Proof. split; [done|]. split; [done|]. exists []. by rewrite app_nil_r. Qed.

Lemma wrote_one e w :
  ¬ is_remote_fetch e →
  wrote (writes [e]) w (log e w).2.
Proof.
  intros He. split; [done|]. split; [done|]. exists [e].
  split; [done|]. split; [done|]. by constructor.
Qed.

Lemma wrote_trans sts1 sts2 w1 w2 w3 :
  wrote sts1 w1 w2 → wrote sts2 w2 w3 → wrote (sts1 ++ sts2) w1 w3.
Proof.
  intros (Hp1 & Ht1 & e1 & Htr1 & Hw1 & Hf1).
  intros (Hp2 & Ht2 & e2 & Htr2 & Hw2 & Hf2).
  split; [congruence|]. split; [congruence|].
  exists (e1 ++ e2). rewrite Htr2, Htr1, <- (assoc_L (++)), writes_app.
  split; [done|]. split; [congruence | by apply Forall_app].
Qed.

Section Writes.

Context {util : Util} {engine : DbEngine}.

Variable self : Project.

Lemma indirect_loop_ok task fs n w vs :
  mapM (λ field, get_data_from_object field task) fs = Some vs →
  ∃ w', indirect_loop task n fs w = (Ok tt, w') ∧ db w' = db w ∧
        wrote [] w w'.
Proof.
  unfold indirect_loop.
  revert n w vs. induction fs as [|f fs IH]; intros n w vs; simpl.
  - intros _. exists w. split; [done|]. split; [done|]. apply wrote_refl.
  - destruct (get_data_from_object f task) as [v|]; simpl; [|discriminate].
    destruct (mapM _ fs) as [vs'|] eqn:Hfs; simpl; [|discriminate].
    intros _. unfold bind at 1. unfold bind at 1. simpl.
    match goal with
    | |- context [for_each_indexed ?body (S n) fs ?w0] =>
        destruct (IH (S n) w0 vs' eq_refl) as (w' & Hrun & Hdb & Hw)
    end.
    exists w'. rewrite Hrun.
    split; [done|]. split; [done|].
    change [] with (writes [IndirectField n task] ++ []).
    eapply wrote_trans; [|exact Hw].
    apply (wrote_one (IndirectField n task)). by intros [].
Qed.

Lemma indirect_loop_fail task fs n w :
  mapM (λ field, get_data_from_object field task) fs = None →
  ∃ e w', indirect_loop task n fs w = (Raise e, w').
Proof.
  unfold indirect_loop.
  revert n w. induction fs as [|f fs IH]; intros n w; simpl;
    [discriminate|].
  destruct (get_data_from_object f task) as [v|]; simpl.
  - destruct (mapM _ fs) as [vs'|] eqn:Hfs; simpl; [discriminate|].
    intros _. unfold bind at 1. unfold bind at 1. simpl.
    match goal with
    | |- context [for_each_indexed ?body (S n) fs ?w0] =>
        destruct (IH (S n) w0 eq_refl) as (e & w' & Hrun)
    end.
    rewrite Hrun. by eexists _, _.
  - intros _. unfold bind at 1. unfold bind at 1. simpl. by eexists _, _.
Qed.

Variable tn : string.

(** One upsert, on a table that exists under a name that is known. *)
Lemma insert_or_replace_ok task params t w :
  known_table_name self w = Some tn →
  db w !! tn = Some t →
  extracts self task = Some params →
  ∃ w', insert_or_replace self task w = (Ok tt, w') ∧
        db w' = <[tn := with_rows t
                   (rows_upsert (t_unique t) (row_of self params)
                      (t_rows t))]> (db w) ∧
        wrote [upsert_of self tn params] w w'.
Proof.
  intros Hkn Ht Hex. unfold extracts in Hex.
  destruct (params_of self task) as [ps|] eqn:Hps; simpl in Hex;
    [|discriminate].
  destruct (mapM _ (_indirect_fields self)) as [vs|] eqn:Hvs;
    simpl in Hex; [|discriminate].
  injection Hex as ->.
  rewrite insert_or_replace_run, Hps, (table_name_known _ _ _ Hkn).
  unfold bind at 1. rewrite db_client_write_run. simpl. rewrite Ht. simpl.
  match goal with
  | |- context [for_each_indexed ?body 0%nat ?fs ?w0] =>
      destruct (indirect_loop_ok task fs 0%nat w0 vs Hvs)
        as (w' & Hrun & Hdb & Hw)
  end.
  exists w'. unfold indirect_loop in Hrun. rewrite Hrun.
  split; [done|]. split; [by rewrite Hdb|].
  change [upsert_of self tn params]
    with (writes [DbWrite (upsert_of self tn params)] ++ []).
  eapply wrote_trans; [|exact Hw].
  split; [done|]. split; [done|]. exists [DbWrite (upsert_of self tn params)].
  split; [done|]. split; [done|]. constructor; [by intros []|done].
Qed.

Lemma insert_or_replace_fail task w :
  extracts self task = None →
  ∃ e w', insert_or_replace self task w = (Raise e, w').
Proof.
  intros Hex. unfold extracts in Hex. rewrite insert_or_replace_run.
  destruct (params_of self task) as [ps|] eqn:Hps; simpl in Hex;
    [|by eexists _, _].
  destruct (mapM _ (_indirect_fields self)) as [vs|] eqn:Hvs;
    simpl in Hex; [discriminate|].
  destruct (table_name self w) as [[tn'|e] w1]; [|by eexists _, _].
  unfold bind at 1. rewrite db_client_write_run.
  destruct (db_execute _ _); simpl; [|by eexists _, _].
  match goal with
  | |- context [for_each_indexed ?body 0%nat ?fs ?w0] =>
      destruct (indirect_loop_fail task fs 0%nat w0 Hvs)
        as (e & w' & Hrun)
  end.
  unfold indirect_loop in Hrun. rewrite Hrun. by eexists _, _.
Qed.

(** One delete, likewise. *)
Lemma delete_ok task_id id_field rest t w :
  _direct_fields self = id_field :: rest →
  known_table_name self w = Some tn →
  db w !! tn = Some t →
  ∃ w', delete self task_id w = (Ok tt, w') ∧
        db w' = <[tn := with_rows t
                   (rows_delete (sql_name id_field) task_id (t_rows t))]>
                  (db w) ∧
        wrote [DeleteFrom tn (sql_name id_field) task_id] w w'.
Proof.
  intros Hd Hkn Ht.
  rewrite delete_run, Hd, (table_name_known _ _ _ Hkn).
  rewrite db_client_write_run. simpl. rewrite Ht. simpl.
  eexists. split; [done|]. split; [done|].
  split; [done|]. split; [done|]. eexists [_].
  split; [done|]. split; [done|]. constructor; [by intros []|done].
Qed.

Lemma known_table_name_wrote sts w w' :
  wrote sts w w' → known_table_name self w' = known_table_name self w.
Proof. intros (Hpd & _). unfold known_table_name. by rewrite Hpd. Qed.

Lemma with_rows_same t : with_rows t (t_rows t) = t.
Proof. by destruct t. Qed.

(** The loop of upserts. *)
Lemma upsert_loop_ok ts paramss t w :
  known_table_name self w = Some tn →
  db w !! tn = Some t →
  mapM (extracts self) ts = Some paramss →
  ∃ w', for_each (insert_or_replace self) ts w = (Ok tt, w') ∧
        db w' = <[tn := with_rows t
                   (upserted self (t_unique t) paramss (t_rows t))]>
                  (db w) ∧
        wrote (upsert_of self tn <$> paramss) w w'.
Proof.
  revert paramss t w.
  induction ts as [|task ts IH]; intros paramss t w Hkn Ht; simpl.
  - intros [= <-]. exists w. split; [done|]. simpl.
    split; [by rewrite with_rows_same, insert_id | apply wrote_refl].
  - destruct (extracts self task) as [params|] eqn:Hex; simpl;
      [|discriminate].
    destruct (mapM (extracts self) ts) as [ps|] eqn:Hps; simpl;
      [|discriminate].
    intros [= <-].
    destruct (insert_or_replace_ok task params t w Hkn Ht Hex)
      as (w1 & Hrun & Hdb & Hw).
    unfold bind. rewrite Hrun.
    destruct (IH ps
                (with_rows t (rows_upsert (t_unique t) (row_of self params)
                                (t_rows t))) w1)
      as (w' & Hrun' & Hdb' & Hw'); [| |done|].
    + by rewrite (known_table_name_wrote _ _ _ Hw).
    + by rewrite Hdb, lookup_insert_eq.
    + exists w'. split; [done|]. split.
      * rewrite Hdb', Hdb, insert_insert_eq. done.
      * change (upsert_of self tn <$> params :: ps)
          with ([upsert_of self tn params] ++ (upsert_of self tn <$> ps)).
        by eapply wrote_trans.
Qed.

Lemma upsert_loop_fail ts t w :
  known_table_name self w = Some tn →
  db w !! tn = Some t →
  mapM (extracts self) ts = None →
  ∃ e w', for_each (insert_or_replace self) ts w = (Raise e, w').
Proof.
  revert t w.
  induction ts as [|task ts IH]; intros t w Hkn Ht; simpl; [discriminate|].
  destruct (extracts self task) as [params|] eqn:Hex; simpl.
  - destruct (mapM (extracts self) ts) as [ps|] eqn:Hps; simpl;
      [discriminate|].
    intros _.
    destruct (insert_or_replace_ok task params t w Hkn Ht Hex)
      as (w1 & Hrun & Hdb & Hw).
    unfold bind. rewrite Hrun. eapply IH; [| |done].
    + by rewrite (known_table_name_wrote _ _ _ Hw).
    + by rewrite Hdb, lookup_insert_eq.
  - intros _. destruct (insert_or_replace_fail task w Hex) as (e & w' & Hrun).
    unfold bind. rewrite Hrun. by eexists _, _.
Qed.

(** The loop of deletes. *)
Lemma delete_loop_ok ids id_field rest t w :
  _direct_fields self = id_field :: rest →
  known_table_name self w = Some tn →
  db w !! tn = Some t →
  ∃ w', for_each (delete self) ids w = (Ok tt, w') ∧
        db w' = <[tn := with_rows t
                   (deleted (sql_name id_field) ids (t_rows t))]> (db w) ∧
        wrote (DeleteFrom tn (sql_name id_field) <$> ids) w w'.
Proof.
  intros Hd. revert t w.
  induction ids as [|v ids IH]; intros t w Hkn Ht; simpl.
  - exists w. split; [done|].
    split; [by rewrite with_rows_same, insert_id | apply wrote_refl].
  - destruct (delete_ok v id_field rest t w Hd Hkn Ht)
      as (w1 & Hrun & Hdb & Hw).
    unfold bind. rewrite Hrun.
    assert (known_table_name self w1 = Some tn) as Hkn1
      by by rewrite (known_table_name_wrote _ _ _ Hw).
    assert (db w1 !! tn =
              Some (with_rows t
                      (rows_delete (sql_name id_field) v (t_rows t))))
      as Ht1 by by rewrite Hdb, lookup_insert_eq.
    destruct (IH _ w1 Hkn1 Ht1) as (w' & Hrun' & Hdb' & Hw').
    exists w'. split; [done|]. split.
    + rewrite Hdb', Hdb, insert_insert_eq. done.
    + exact (wrote_trans [_] _ _ _ _ Hw Hw').
Qed.

End Writes.

(** ** What [synchronize] does *)

Lemma emits_no_write (P : Event → Prop) w w' :
  (∀ e, P e → ¬ is_write e) → emits P w w' →
  ∃ evs, trace w' = trace w ++ evs ∧ writes evs = [].
Proof.
  intros HP (evs & Htr & Hall). exists evs. split; [done|].
  apply writes_none. eapply Forall_impl; eauto.
Qed.

Section Synchronize.

Context {util : Util} {engine : DbEngine}.

Variable self : Project.

Lemma name_fetch_not_write e : name_fetch self e → ¬ is_write e.
Proof. intros [_ ->]. by intros []. Qed.

Lemma reconcile_ok id_field rest tn t ts paramss local remote w :
  _direct_fields self = id_field :: rest →
  known_table_name self w = Some tn →
  db w !! tn = Some t →
  _task_cache w = Some ts →
  mapM (extracts self) ts = Some paramss →
  ∃ w', reconcile self local remote w = (Ok tt, w') ∧
        db w' = <[tn := with_rows t
                   (deleted (sql_name id_field) (elements (local ∖ remote))
                      (upserted self (t_unique t) paramss (t_rows t)))]>
                  (db w) ∧
        wrote ((upsert_of self tn <$> paramss)
                 ++ (DeleteFrom tn (sql_name id_field)
                       <$> elements (local ∖ remote))) w w'.
Proof.
  intros Hd Hkn Ht Hc Hps. unfold reconcile, bind at 1.
  rewrite (_tasks_cached self w ts Hc).
  destruct (upsert_loop_ok self tn ts paramss t w Hkn Ht Hps)
    as (w1 & Hrun1 & Hdb1 & Hw1).
  unfold bind at 1. rewrite Hrun1.
  assert (known_table_name self w1 = Some tn) as Hkn1
    by by rewrite (known_table_name_wrote _ _ _ _ Hw1).
  assert (db w1 !! tn =
            Some (with_rows t (upserted self (t_unique t) paramss (t_rows t))))
    as Ht1 by by rewrite Hdb1, lookup_insert_eq.
  destruct (delete_loop_ok self tn (elements (local ∖ remote))
              id_field rest _ w1 Hd Hkn1 Ht1)
    as (w' & Hrun2 & Hdb2 & Hw2).
  exists w'. split; [done|]. split.
  - rewrite Hdb2, Hdb1, insert_insert_eq. done.
  - by eapply wrote_trans.
Qed.

Lemma reconcile_fail tn t ts local remote w :
  known_table_name self w = Some tn →
  db w !! tn = Some t →
  _task_cache w = Some ts →
  mapM (extracts self) ts = None →
  ∃ e w', reconcile self local remote w = (Raise e, w').
Proof.
  intros Hkn Ht Hc Hps. unfold reconcile, bind at 1.
  rewrite (_tasks_cached self w ts Hc).
  destruct (upsert_loop_fail self tn ts t w Hkn Ht Hps) as (e & w' & Hrun).
  unfold bind at 1. rewrite Hrun. by eexists _, _.
Qed.

(** A run on an object that knows its table name and has its tasks. *)
Lemma synchronize_known id_field rest tn t ts w :
  _direct_fields self = id_field :: rest →
  known_table_name self w = Some tn →
  db w !! tn = Some t →
  _task_cache w = Some ts →
  synchronize self w =
  reconcile self (stored_ids (sql_name id_field) (t_rows t)) (remote_ids ts)
    (log (DbRead (Select tn [sql_name id_field])) w).2.
Proof.
  intros Hd Hkn Ht Hc. unfold synchronize. unfold bind at 1.
  rewrite db_task_ids_run, Hd, (table_name_known _ _ _ Hkn), Ht. simpl.
  unfold bind at 1. unfold asana_task_ids, bind at 1.
  rewrite (_tasks_cached self _ ts) by done. done.
Qed.

(** A run that returns has read the table, has the tasks, and went
    through the reconciliation. *)
Lemma synchronize_returns w w' :
  synchronize self w = (Ok tt, w') →
  ∃ id_field rest tn t ts w0,
    _direct_fields self = id_field :: rest ∧
    known_table_name self w0 = Some tn ∧
    db w !! tn = Some t ∧
    db w0 = db w ∧
    _task_cache w0 = Some ts ∧
    (∃ evs, trace w0 = trace w ++ evs ∧ writes evs = []) ∧
    reconcile self (stored_ids (sql_name id_field) (t_rows t))
      (remote_ids ts) w0 = (Ok tt, w').
Proof.
  unfold synchronize. unfold bind at 1. rewrite db_task_ids_run.
  destruct (_direct_fields self) as [|f rest] eqn:Hd; [discriminate|].
  pose proof (table_name_ok self w) as Hkn.
  pose proof (table_name_same_db self w) as Hdb.
  pose proof (table_name_caches_kept self w) as Hck.
  pose proof (table_name_emits (λ e, ¬ is_write e) self
                name_fetch_not_write w) as Hev.
  destruct (table_name self w) as [[tn|e] w1]; [|discriminate].
  specialize (Hkn tn w1 eq_refl). simpl in Hdb, Hck, Hev.
  unfold unchanged in Hdb. rewrite Hdb.
  destruct (db w !! tn) as [t|] eqn:Ht; [|discriminate]. simpl.
  unfold bind at 1. unfold asana_task_ids, bind at 1.
  set (w2 := {| trace := trace w1 ++ _ |}).
  pose proof (_tasks_ok self w2) as Hc.
  pose proof (_tasks_same_db self w2) as Hdb2.
  pose proof (_tasks_caches_kept self w2) as Hck2.
  pose proof (_tasks_emits (λ e, ¬ is_write e) self
                (task_fetch_not_write self) w2) as Hev2.
  destruct (_tasks self w2) as [[ts|e] w3]; [|discriminate].
  specialize (Hc ts w3 eq_refl). simpl in Hdb2, Hck2, Hev2. simpl.
  intros Hrun. exists f, rest, tn, t, ts, w3.
  split; [done|]. split.
  { eapply known_table_name_kept; [exact Hck2|].
    unfold known_table_name in *. exact Hkn. }
  split; [done|]. split; [by rewrite Hdb2|]. split; [done|].
  split; [|exact Hrun].
  destruct Hev as (e1 & Htr1 & Hall1).
  destruct Hev2 as (e2 & Htr2 & Hall2).
  exists (e1 ++ DbRead (Select tn [sql_name f]) :: e2).
  split.
  - rewrite Htr2. simpl. rewrite Htr1, <- !(assoc_L (++)). done.
  - apply writes_none, Forall_app. split; [done|].
    constructor; [by intros []|done].
Qed.

(** The run that went through, in full. *)
Lemma synchronize_ok w w' :
  synchronize self w = (Ok tt, w') →
  ∃ id_field rest tn t ts paramss,
    _direct_fields self = id_field :: rest ∧
    db w !! tn = Some t ∧
    mapM (extracts self) ts = Some paramss ∧
    synchronized self id_field tn t ts paramss w w'.
Proof.
  intros Hrun.
  destruct (synchronize_returns w w' Hrun)
    as (f & rest & tn & t & ts & w0 & Hd & Hkn & Ht & Hdb & Hc & Hev & Hrec).
  exists f, rest, tn, t, ts.
  assert (db w0 !! tn = Some t) as Ht0 by by rewrite Hdb.
  destruct (mapM (extracts self) ts) as [paramss|] eqn:Hps.
  - exists paramss.
    destruct (reconcile_ok f rest tn t ts paramss
                (stored_ids (sql_name f) (t_rows t)) (remote_ids ts) w0
                Hd Hkn Ht0 Hc Hps)
      as (w'' & Hrun' & Hdb' & Hw).
    rewrite Hrun' in Hrec. injection Hrec as ->.
    split; [done|]. split; [done|]. split; [done|].
    pose proof (known_table_name_wrote self _ w0 w' Hw) as Hkn'.
    destruct Hw as (Hpd & Htc & evs & Htr & Hwr & _).
    split; [congruence|].
    split; [congruence|]. split; [by rewrite Hdb', Hdb|].
    destruct Hev as (evs0 & Htr0 & Hwr0).
    exists (evs0 ++ evs). rewrite Htr, Htr0, <- (assoc_L (++)), writes_app.
    split; [done|]. by rewrite Hwr0, Hwr.
  - destruct (reconcile_fail tn t ts
                (stored_ids (sql_name f) (t_rows t)) (remote_ids ts) w0
                Hkn Ht0 Hc Hps) as (e & w'' & Hfail).
    congruence.
Qed.

End Synchronize.

(** ** The identity column *)

(** The constructor keeps the declared fields apart by the truthiness of
    their [sql_name], each kind in declaration order: the first direct
    field is the first declared field that has a column. *)
Lemma init_fields asana_client config fields :
  _direct_fields (init asana_client config fields)
    = filter (λ field, truthy (sql_name field) = true) fields ∧
  _indirect_fields (init asana_client config fields)
    = filter (λ field, truthy (sql_name field) ≠ true) fields.
Proof.
  unfold init.
  set (self := {| _asana_client := asana_client |}).
  change (_direct_fields (foldl _add_field self fields)
            = _direct_fields self
                ++ filter (λ field, truthy (sql_name field) = true) fields ∧
          _indirect_fields (foldl _add_field self fields)
            = _indirect_fields self
                ++ filter (λ field, truthy (sql_name field) ≠ true) fields).
  generalize self. clear self.
  induction fields as [|field fields IH]; intros self; simpl.
  - by rewrite !app_nil_r.
  - destruct (IH (_add_field self field)) as [-> ->].
    rewrite !filter_cons. unfold _add_field.
    destruct (truthy (sql_name field)); simpl; repeat case_decide;
      try congruence; by rewrite <- (assoc_L (++)).
Qed.

Section Identity.

Context {util : Util} {engine : DbEngine}.

Lemma table_name_never_index_error self :
  never_raises IndexError (table_name self).
Proof. unfold table_name, project_name, _project_data. nr. Qed.

Lemma _tasks_never_index_error self : never_raises IndexError (_tasks self).
Proof. unfold _tasks. nr. Qed.

Lemma insert_or_replace_never_index_error self task :
  never_raises IndexError (insert_or_replace self task).
Proof.
  unfold insert_or_replace. nr.
  - apply table_name_never_index_error.
  - by apply db_client_write_never_raises.
Qed.

Lemma delete_never_index_error self task_id f rest :
  _direct_fields self = f :: rest →
  never_raises IndexError (delete self task_id).
Proof.
  intros Hd w. rewrite delete_run, Hd.
  pose proof (table_name_never_index_error self w) as Htn.
  destruct (table_name self w) as [[tn|e] w1]; simpl in *.
  - by apply db_client_write_never_raises.
  - congruence.
Qed.

Lemma db_task_ids_never_index_error self f rest :
  _direct_fields self = f :: rest →
  never_raises IndexError (db_task_ids self).
Proof.
  intros Hd w. rewrite db_task_ids_run, Hd.
  pose proof (table_name_never_index_error self w) as Htn.
  destruct (table_name self w) as [[tn|e] w1]; simpl in *.
  - by destruct (db w1 !! tn).
  - congruence.
Qed.

Lemma synchronize_never_index_error self f rest :
  _direct_fields self = f :: rest →
  never_raises IndexError (synchronize self).
Proof.
  intros Hd. unfold synchronize. nr.
  - by eapply db_task_ids_never_index_error.
  - unfold asana_task_ids. nr. apply _tasks_never_index_error.
  - apply _tasks_never_index_error.
  - apply insert_or_replace_never_index_error.
  - by eapply delete_never_index_error.
Qed.

End Identity.

(** ** A project the remote does not know *)

Lemma no_metadata_fails_before_writing {A} self w (rw : Result A * World) :
  emits (λ e, ¬ metadata_fetch self e) w rw.2 →
  fails_before_writing self w rw.
Proof.
  intros (evs & Htr & Hno). exists evs. split; [done|].
  intros Hex. apply Exists_exists in Hex as (e & Hin & He).
  rewrite Forall_forall in Hno. by destruct (Hno e Hin).
Qed.

Lemma stops_fails_before_writing {A} self (m : M A) w :
  stops_at_metadata self m → _project_data_cache w = None →
  fails_before_writing self w (m w).
Proof.
  intros Hm Hc. destruct (Hm w Hc) as [[e ->] | ->].
  - exists []. split; [by rewrite app_nil_r|]. by intros ?%Exists_nil.
  - eexists [_]. simpl. split; [done|]. intros _.
    split; [done|]. split; [|done]. constructor; [|done]. by intros [].
Qed.

Lemma stops_bind {A B} self (m : M A) (k : A → M B) :
  stops_at_metadata self m → stops_at_metadata self (bind m k).
Proof.
  intros Hm w Hc. unfold bind.
  destruct (Hm w Hc) as [[e ->] | ->]; [left; by exists e | by right].
Qed.

Section NotFound.

Context {util : Util} {engine : DbEngine}.

Variable self : Project.

Hypothesis not_found : remote_not_found self.

Lemma _project_data_stops : stops_at_metadata self (_project_data self).
Proof. intros w Hc. right. by apply _project_data_not_found. Qed.

Lemma project_name_stops : stops_at_metadata self (project_name self).
Proof. apply stops_bind, _project_data_stops. Qed.

Hypothesis not_configured : configured_name self = None.

Lemma table_name_stops : stops_at_metadata self (table_name self).
Proof. intros w Hc. right. by apply table_name_not_found. Qed.

Lemma create_table_stops : stops_at_metadata self (create_table self).
Proof. apply stops_bind, table_name_stops. Qed.

Lemma db_select_all_stops : stops_at_metadata self (db_select_all self).
Proof. apply stops_bind, table_name_stops. Qed.

Lemma insert_or_replace_stops task :
  stops_at_metadata self (insert_or_replace self task).
Proof.
  intros w Hc. rewrite insert_or_replace_run.
  destruct (params_of self task); [|left; by eexists].
  right. by rewrite table_name_not_found.
Qed.

Lemma delete_stops task_id : stops_at_metadata self (delete self task_id).
Proof.
  intros w Hc. rewrite delete_run.
  destruct (_direct_fields self); [left; by eexists|].
  right. by rewrite table_name_not_found.
Qed.

Lemma db_task_ids_stops : stops_at_metadata self (db_task_ids self).
Proof.
  intros w Hc. rewrite db_task_ids_run.
  destruct (_direct_fields self); [left; by eexists|].
  right. by rewrite table_name_not_found.
Qed.

Lemma synchronize_stops : stops_at_metadata self (synchronize self).
Proof. apply stops_bind, db_task_ids_stops. Qed.

Lemma export_fails_before_writing w :
  _project_data_cache w = None →
  fails_before_writing self w (export self w).
Proof.
  intros Hc. unfold export, bind.
  pose proof (_tasks_emits (task_fetch self) self (λ e He, He) w) as Hev.
  pose proof (_tasks_same_db self w) as Hdb.
  pose proof (_tasks_same_project_data self w) as Hpd.
  unfold unchanged in Hdb, Hpd. rewrite Hc in Hpd.
  assert (emits (λ e, ¬ metadata_fetch self e) w (_tasks self w).2) as Hno.
  { eapply emits_weaken; [apply task_fetch_not_metadata | exact Hev]. }
  destruct (_tasks self w) as [[ts|e] w1]; simpl in *;
    [|by apply no_metadata_fails_before_writing].
  destruct ts as [|t ts]; simpl;
    [by apply no_metadata_fails_before_writing|].
  unfold bind.
  destruct (insert_or_replace_stops t w1 Hpd) as [[e ->] | ->].
  - by apply no_metadata_fails_before_writing.
  - destruct Hev as (evs & Htr & Hall).
    exists (evs ++ [FindById (_project_id self) "id,name,archived"]).
    simpl. rewrite Htr, <- (assoc_L (++)). split; [done|]. intros _.
    split; [done|]. split; [|done].
    apply Forall_app. split.
    + eapply Forall_impl; [exact Hall | apply task_fetch_not_write].
    + constructor; [|done]. by intros [].
Qed.

End NotFound.

Section NotFoundAll.

Context {util : Util} {engine : DbEngine}.

Lemma ignore_stops {A} self (m : M A) :
  stops_at_metadata self m → stops_at_metadata self (m ;; ret tt).
Proof. apply stops_bind. Qed.

Lemma configured_no_name_fetch self c e :
  configured_name self = Some c → name_fetch self e →
  ¬ metadata_fetch self e.
Proof. intros Hc [Hn _]. congruence. Qed.

(** With a configured name only [project_name] asks for the metadata. *)
Lemma configured_call_emits self c op :
  configured_name self = Some c → op ≠ CallProjectName →
  preserves (emits (λ e, ¬ metadata_fetch self e)) (call self op).
Proof.
  intros Hc Hop.
  assert (∀ e, name_fetch self e → ¬ metadata_fetch self e) as Hn
    by (intros e; by apply configured_no_name_fetch with c).
  assert (∀ e, task_fetch self e → ¬ metadata_fetch self e) as Ht
    by apply task_fetch_not_metadata.
  assert (∀ e, upsert_event self e → ¬ metadata_fetch self e) as Hu.
  { intros [? ?|? ?|? ?|?|st|q|? ?] He; simpl in *; try done; auto. }
  assert (∀ i e, delete_event self i e → ¬ metadata_fetch self e) as Hd.
  { intros i [? ?|? ?|? ?|?|st|q|? ?] He; simpl in *; try done; auto. }
  assert (∀ e, id_read_event self e → ¬ metadata_fetch self e) as Hr.
  { intros [? ?|? ?|? ?|?|st|q|? ?] He; simpl in *; try done; auto. }
  destruct op; simpl; try done; unfold tasks; pres.
  - by apply _tasks_emits.
  - by apply table_name_emits.
  - by apply create_table_emits.
  - by apply export_emits.
  - by apply insert_or_replace_emits.
  - eapply delete_emits, Hd.
  - by apply synchronize_emits.
  - by apply asana_task_ids_emits.
  - by apply db_task_ids_emits.
  - unfold db_select_all. pres; [by apply table_name_emits|].
    by apply db_client_read_emits.
Qed.

(** C4: when the remote reports not-found for the configured project
    id, the metadata fetch raises [NoSuchProjectException]; so do
    [project_name] and, when no table name is configured, [table_name]
    and [create_table], having logged the failed fetch and nothing
    else. Every operation whose run asks for the metadata fails with
    that exception, has issued no write, and leaves the store as it
    was. *)
Theorem project_not_found_fails_before_writing self w :
  remote_not_found self →
  _project_data_cache w = None →
  let failed := NoSuchProjectException (_project_id self) in
  let w' := (log (FindById (_project_id self) "id,name,archived") w).2 in
  _project_data self w = (Raise failed, w') ∧
  project_name self w = (Raise failed, w') ∧
  (configured_name self = None →
     table_name self w = (Raise failed, w') ∧
     create_table self w = (Raise failed, w')) ∧
  ∀ op, fails_before_writing self w (call self op w).
Proof.
  intros Hnf Hc failed w'.
  assert (_project_data self w = (Raise failed, w')) as Hpd
    by by apply _project_data_not_found.
  split; [done|].
  split; [unfold project_name, bind; by rewrite Hpd|].
  split.
  { intros Hn.
    assert (table_name self w = (Raise failed, w')) as Htn
      by by apply table_name_not_found.
    split; [done|]. unfold create_table, bind. by rewrite Htn. }
  intros op.
  assert (op = CallProjectName ∨ op ≠ CallProjectName) as [->|Hop]
    by (destruct op; (by left) || (by right)).
  { apply stops_fails_before_writing; [|done].
    by apply ignore_stops, project_name_stops. }
  destruct (configured_name self) as [c|] eqn:Hn.
  { apply no_metadata_fails_before_writing.
    by apply (configured_call_emits self c op). }
  assert (∀ A (m : M A), stops_at_metadata self m →
            fails_before_writing self w (m w)) as Hstop
    by (intros A m Hm; by apply stops_fails_before_writing).
  destruct op; simpl; try done.
  - apply no_metadata_fails_before_writing.
    assert (preserves (emits (λ e, ¬ metadata_fetch self e))
              (tasks self ;; ret tt)) as Hp; [|apply Hp].
    unfold tasks. pres. apply _tasks_emits, task_fetch_not_metadata.
  - by apply Hstop, ignore_stops, table_name_stops.
  - by apply Hstop, create_table_stops.
  - by apply export_fails_before_writing.
  - by apply Hstop, insert_or_replace_stops.
  - by apply Hstop, delete_stops.
  - by apply Hstop, synchronize_stops.
  - apply no_metadata_fails_before_writing.
    assert (preserves (emits (λ e, ¬ metadata_fetch self e))
              (asana_task_ids self ;; ret tt)) as Hp; [|apply Hp].
    pres. apply asana_task_ids_emits, task_fetch_not_metadata.
  - by apply Hstop, ignore_stops, db_task_ids_stops.
  - by apply Hstop, ignore_stops, db_select_all_stops.
Qed.

End NotFoundAll.

(** ** The fetch: warning, projection, subtasks, caches *)

Section Fetch.

Context {util : Util} {engine : DbEngine}.

Lemma warning_spec top :
  warning top =
  if decide (50 ≤ length top)%nat then [PrintWarning (length top)] else [].
Proof.
  unfold warning.
  destruct (decide _);
    [by rewrite bool_decide_eq_true_2 | by rewrite bool_decide_eq_false_2].
Qed.

(** C9: with subtask inclusion enabled, the task list is the top-level
    tasks followed by the concatenation of the answers to one subtask
    fetch per top-level task, in order; the subtask fetches are logged
    one per top-level task, keyed by its [id]. *)
Theorem subtasks_are_flattened self w top lists :
  cfg_with_subtasks (_config self) = true →
  _task_cache w = None →
  tasks_find_by_project (_asana_client self) (_project_id self)
    (projection self) = Some top →
  subtask_lists self top = Some lists →
  tasks self w =
    (Ok (top ++ concat lists),
     fetched w (top ++ concat lists)
       (FindByProject (_project_id self) (projection self)
          :: warning top ++ subtask_events self top)) ∧
  length (subtask_events self top) = length top ∧
  Forall2 (λ task subtasks,
             tasks_subtasks (_asana_client self) (get task "id")
               (projection self) = Some subtasks) top lists.
Proof.
  intros Hsub Hc Htop Hlists.
  split.
  - unfold tasks. rewrite (_tasks_fetch_run self w top (top ++ concat lists));
      try done.
    + unfold fetch_events. by rewrite Hsub.
    + unfold fetched_tasks. by rewrite Hsub, Hlists.
  - split; [unfold subtask_events; by rewrite length_fmap|].
    unfold subtask_lists in Hlists. by apply mapM_Some in Hlists.
Qed.

(** C8: the projection handed to every task fetch, top-level or
    subtask, whatever the operation that triggers it, is the comma-joined
    list of the attributes that some declared field, direct or indirect,
    requires, each attribute once. Every fetch event of every operation
    carries that string, and a fetch is what the remote answers to that
    string: on an empty cache [tasks] raises when the remote answers
    not-found to a top-level fetch with it, and otherwise returns the
    records the remote answers to it, followed, when subtasks are
    included, by the answers to one subtask fetch with it per top-level
    record. *)
Theorem projection_is_union_of_required_fields self op w :
  let attributes := elements (_required_fields self) in
  let fields := join attributes in
  let client := _asana_client self in
  let project_id := _project_id self in
  NoDup attributes ∧
  (∀ a, a ∈ attributes ↔
        ∃ field, field ∈ _direct_fields self ++ _indirect_fields self ∧
                 a ∈ required_fields field) ∧
  projection self = fields ∧
  emits (projects_onto fields) w (call self op w).2 ∧
  (_task_cache w = None →
   match tasks_find_by_project client project_id fields with
   | None =>
       tasks self w
       = (Raise NotFoundError, (log (FindByProject project_id fields) w).2)
   | Some top =>
       if cfg_with_subtasks (_config self)
       then
         match mapM (λ task, tasks_subtasks client (get task "id") fields)
                 top with
         | Some lists =>
             tasks self w
             = (Ok (top ++ concat lists),
                fetched w (top ++ concat lists)
                  (FindByProject project_id fields
                     :: warning top
                     ++ ((λ task, Subtasks (get task "id") fields) <$> top)))
         | None => (tasks self w).1 = Raise NotFoundError
         end
       else
         tasks self w
         = (Ok top,
            fetched w top (FindByProject project_id fields :: warning top))
   end).
Proof.
  intros attributes fields client project_id.
  split; [apply NoDup_elements|].
  split.
  { intros a. unfold attributes, _required_fields.
    rewrite elem_of_elements, elem_of_list_to_set, list_elem_of_bind.
    split; intros (field & ? & ?); eauto. }
  split; [done|].
  split.
  { apply call_emits.
    - by intros e ->.
    - intros [? ?|? ?|? ?|?|st|q|? ?]; simpl; try done. by intros [_ ->].
    - by intros [? ?|? ?|? ?|?|st|q|? ?].
    - by intros [? ?|? ?|? ?|?|st|q|? ?].
    - by intros i [? ?|? ?|? ?|?|st|q|? ?].
    - done.
    - done. }
  intros Hc. subst fields attributes client project_id.
  fold (projection self).
  destruct (tasks_find_by_project (_asana_client self) (_project_id self)
              (projection self)) as [top|] eqn:Htop.
  - destruct (cfg_with_subtasks (_config self)) eqn:Hsub.
    + fold (subtask_lists self top).
      destruct (subtask_lists self top) as [lists|] eqn:Hl.
      * unfold tasks.
        rewrite (_tasks_fetch_run self w top (top ++ concat lists));
          try done.
        -- unfold fetch_events. by rewrite Hsub.
        -- unfold fetched_tasks. by rewrite Hsub, Hl.
      * unfold subtask_lists in Hl.
        unfold tasks, _tasks, bind at 1, gets. simpl. rewrite Hc.
        unfold bind at 1. simpl. unfold bind at 1. rewrite Htop. simpl.
        unfold bind at 1. rewrite Hsub.
        destruct (bool_decide (50 ≤ length top)%nat); simpl;
          unfold bind at 1; unfold bind at 1;
          match goal with
          | |- context [collect ?f top ?w0] =>
              destruct (collect_subtasks_fail _ _ top w0 Hl) as (w' & ->)
          end; done.
    + unfold tasks. rewrite (_tasks_fetch_run self w top top); try done.
      * unfold fetch_events. by rewrite Hsub, app_nil_r.
      * unfold fetched_tasks. by rewrite Hsub.
  - unfold tasks, _tasks, bind at 1, gets. simpl. rewrite Hc.
    unfold bind at 1. simpl. unfold bind at 1. rewrite Htop. simpl.
    by rewrite ?Hc.
Qed.

(** C6: once [_project_data] has returned the metadata, every later
    call on the object, after any calls in between and whatever the
    remote would now answer, returns that same value and leaves the
    world, and so the log of remote fetches, as it is; likewise
    [tasks]. The first call on an object with an empty cache is the one
    that logs the fetch. *)
Theorem fetch_results_are_cached self w w1 ops client' :
  let self' := with_remote self client' in
  let w2 := calls self' ops w1 in
  (∀ d, _project_data self w = (Ok d, w1) →
        _project_data self' w2 = (Ok d, w2) ∧
        (_project_data_cache w = None →
           projects_find_by_id (_asana_client self) (_project_id self)
             "id,name,archived" = Some d ∧
           trace w1 =
             trace w ++ [FindById (_project_id self) "id,name,archived"])) ∧
  (∀ ts, tasks self w = (Ok ts, w1) →
         tasks self' w2 = (Ok ts, w2) ∧
         (_task_cache w = None →
            ∃ top, tasks_find_by_project (_asana_client self)
                     (_project_id self) (projection self) = Some top ∧
                   ∃ rest, trace w1 =
                     trace w
                       ++ FindByProject (_project_id self) (projection self)
                       :: rest ∧
                     Forall (λ e, ∀ pid fields,
                               e ≠ FindByProject pid fields) rest)).
Proof.
  intros self' w2.
  pose proof (calls_caches_kept self' ops w1) as [Hpd Hts].
  split.
  - intros d Hrun. split.
    + apply _project_data_cached, Hpd. by eapply _project_data_ok.
    + intros Hc. revert Hrun.
      unfold _project_data, bind, gets, log, modify. simpl. rewrite Hc.
      destruct (projects_find_by_id _ _ _) as [d'|]; simpl;
        [|discriminate].
      by intros [= -> <-].
  - intros ts Hrun. split.
    + apply _tasks_cached, Hts. by eapply _tasks_ok.
    + intros Hc.
      destruct (_tasks_fetch_ok self w ts w1 Hc Hrun)
        as (top & Htop & _ & ->).
      exists top. split; [done|]. unfold fetch_events. simpl.
      eexists. split; [done|].
      apply Forall_app. split.
      * rewrite warning_spec. destruct (decide _); [|done].
        constructor; [|done]. intros pid fields. discriminate.
      * destruct (cfg_with_subtasks (_config self)); [|done].
        unfold subtask_events. apply Forall_fmap, Forall_true.
        intros task pid fields. discriminate.
Qed.

End Fetch.

(** ** The order of the statements *)

Section Order.

Context {util : Util} {engine : DbEngine}.

Lemma preserves_emits2_second {A} (P1 P2 : Event → Prop) (m : M A) :
  preserves (emits P2) m → preserves (emits2 P1 P2) m.
Proof. intros Hm w. apply emits2_second, Hm. Qed.

Lemma synchronize_two_phases self :
  preserves (emits2 (λ e, ¬ is_delete e) (λ e, ¬ is_upsert e))
    (synchronize self).
Proof.
  unfold synchronize.
  apply emits2_bind.
  { apply db_task_ids_emits.
    intros [? ?|? ?|? ?|?|st|q|? ?] He; simpl in *; tauto. }
  intros local. apply emits2_bind.
  { apply asana_task_ids_emits.
    intros [? ?|? ?|? ?|?|st|q|? ?] He; simpl in *; tauto. }
  intros remote. cbv zeta. apply emits2_bind.
  { apply _tasks_emits.
    intros [? ?|? ?|? ?|?|st|q|? ?] He; simpl in *; tauto. }
  intros ts. apply emits2_bind.
  { pres. apply insert_or_replace_emits.
    intros [? ?|? ?|? ?|?|st|q|? ?] He; simpl in *; try tauto.
    destruct st; simpl in *; tauto. }
  intros _. apply preserves_emits2_second. pres.
  eapply delete_emits.
  intros [? ?|? ?|? ?|?|st|q|? ?] He; simpl in *; try tauto.
  destruct st; simpl in *; tauto.
Qed.

End Order.

(** ** Convergence *)

Lemma elem_of_stored_ids column rows x :
  x ∈ stored_ids column rows ↔ ∃ r, x = cell r column ∧ r ∈ rows.
Proof.
  unfold stored_ids. by rewrite elem_of_list_to_set, list_elem_of_fmap.
Qed.

Lemma stored_ids_upsert column key new rows :
  (∀ k, key = Some k → k = column) →
  stored_ids column (rows_upsert key new rows)
  = stored_ids column rows ∪ {[cell new column]}.
Proof.
  intros Hkey. apply set_eq. intros x.
  rewrite elem_of_union, elem_of_singleton, !elem_of_stored_ids.
  unfold rows_upsert. split.
  - intros (r & -> & [Hr | ->%list_elem_of_singleton]%elem_of_app);
      [|by right].
    apply list_elem_of_filter in Hr as [_ Hr]. left. by exists r.
  - intros [(r & -> & Hr) | ->].
    + destruct (conflicts key new r) eqn:Hc.
      * unfold conflicts in Hc. destruct key as [k|]; [|discriminate].
        apply bool_decide_eq_true in Hc. rewrite (Hkey k eq_refl) in Hc.
        exists new. split; [done|]. apply elem_of_app. right.
        by apply list_elem_of_singleton.
      * exists r. split; [done|]. apply elem_of_app. left.
        by apply list_elem_of_filter.
    + exists new. split; [done|]. apply elem_of_app. right.
      by apply list_elem_of_singleton.
Qed.

Lemma stored_ids_delete column v rows :
  stored_ids column (rows_delete column v rows)
  = stored_ids column rows ∖ {[v]}.
Proof.
  apply set_eq. intros x.
  rewrite elem_of_difference, elem_of_singleton, !elem_of_stored_ids.
  unfold rows_delete. split.
  - intros (r & -> & [Hne Hr]%list_elem_of_filter). split; [by exists r|done].
  - intros [(r & -> & Hr) Hne]. exists r. split; [done|].
    by apply list_elem_of_filter.
Qed.

Lemma stored_ids_deleted column ids rows :
  stored_ids column (deleted column ids rows)
  = stored_ids column rows ∖ list_to_set ids.
Proof.
  unfold deleted. revert rows. induction ids as [|v ids IH]; intros rows; simpl.
  - by rewrite difference_empty_L.
  - by rewrite IH, stored_ids_delete, difference_difference_l_L.
Qed.

Section Convergence.

Context {util : Util} {engine : DbEngine}.

Variable self : Project.

Lemma stored_ids_upserted column key paramss rows :
  (∀ k, key = Some k → k = column) →
  stored_ids column (upserted self key paramss rows)
  = stored_ids column rows
      ∪ list_to_set ((λ params, cell (row_of self params) column)
                       <$> paramss).
Proof.
  intros Hkey. unfold upserted. revert rows.
  induction paramss as [|params paramss IH]; intros rows; simpl.
  - by rewrite union_empty_r_L.
  - rewrite IH, stored_ids_upsert by done. by rewrite (assoc_L (∪)).
Qed.

(** The identity cell of the row written for a record. *)
Lemma identity_cell id_field rest task params :
  _direct_fields self = id_field :: rest →
  params_of self task = Some params →
  ∃ v, get_data_from_object id_field task = Some v ∧
       cell (row_of self params) (sql_name id_field) = v.
Proof.
  intros Hd. unfold params_of, row_of. rewrite Hd. simpl.
  destruct (get_data_from_object id_field task) as [v|]; simpl;
    [|discriminate].
  destruct (mapM _ rest) as [vs|]; simpl; [|discriminate].
  intros [= <-]. exists v. split; [done|]. simpl.
  unfold cell. by rewrite lookup_insert_eq.
Qed.

Lemma extracts_params_of task params :
  extracts self task = Some params → params_of self task = Some params.
Proof.
  unfold extracts. destruct (params_of self task); simpl; [|discriminate].
  destruct (mapM _ _); simpl; [|discriminate]. done.
Qed.

(** The identity cells of the rows written are the [id] attributes of
    the records. *)
Lemma identity_cells id_field rest ts paramss :
  identity_field_extracts_id self →
  _direct_fields self = id_field :: rest →
  mapM (extracts self) ts = Some paramss →
  (λ params, cell (row_of self params) (sql_name id_field)) <$> paramss
  = (λ task, get task "id") <$> ts.
Proof.
  intros Hid Hd Hps. apply mapM_Some_1 in Hps.
  induction Hps as [|task params ts paramss Hex _ IH]; [done|].
  rewrite !fmap_cons, IH. f_equal.
  destruct (identity_cell id_field rest task params Hd
              (extracts_params_of _ _ Hex)) as (v & Hv & ->).
  rewrite (Hid id_field task) in Hv; [|by rewrite Hd].
  by injection Hv.
Qed.

(** After a run that went through, the table holds the identity
    values of the remote records and no other. *)
Lemma synchronized_ids id_field rest tn t ts paramss w w' :
  identity_field_extracts_id self →
  unique_on_identity self t →
  _direct_fields self = id_field :: rest →
  mapM (extracts self) ts = Some paramss →
  synchronized self id_field tn t ts paramss w w' →
  ∃ t', db w' !! tn = Some t' ∧
        stored_ids (sql_name id_field) (t_rows t') = remote_ids ts.
Proof.
  intros Hid Huniq Hd Hps (Hkn & Hc & Hdb & _).
  eexists. split; [by rewrite Hdb, lookup_insert_eq|].
  unfold with_rows. cbn [t_rows].
  rewrite stored_ids_deleted, list_to_set_elements_L, stored_ids_upserted.
  - rewrite (identity_cells id_field rest ts paramss) by done.
    fold (remote_ids ts).
    apply set_eq. intros x.
    rewrite elem_of_difference, elem_of_union, elem_of_difference.
    destruct (decide (x ∈ remote_ids ts)); tauto.
  - intros k Hk. specialize (Huniq k Hk). rewrite Hd in Huniq.
    by injection Huniq.
Qed.

(** C1, as amended: after a run of [synchronize] that returns, the
    identity values read back from the table are exactly the [id]
    attributes of the fetched records, provided the first declared
    direct field extracts the [id] attribute and the table's uniqueness
    constraint, if it has one, is on that field's column. *)
Theorem synchronize_converges w w' :
  identity_field_extracts_id self →
  (∀ tn t, known_table_name self w' = Some tn →
           db w !! tn = Some t → unique_on_identity self t) →
  synchronize self w = (Ok tt, w') →
  ∃ ts, _task_cache w' = Some ts ∧
        (db_task_ids self w').1 = Ok (remote_ids ts) ∧
        (asana_task_ids self w').1 = Ok (remote_ids ts).
Proof.
  intros Hid Huniq Hrun.
  destruct (synchronize_ok self w w' Hrun)
    as (f & rest & tn & t & ts & paramss & Hd & Ht & Hps & Hs).
  pose proof Hs as (Hkn & Hc & _).
  destruct (synchronized_ids f rest tn t ts paramss w w' Hid
              (Huniq tn t Hkn Ht) Hd Hps Hs) as (t' & Ht' & Hids).
  exists ts. split; [done|]. split.
  - rewrite db_task_ids_run, Hd, (table_name_known _ _ _ Hkn). simpl.
    rewrite Ht'. simpl. by rewrite Hids.
  - unfold asana_task_ids, bind. by rewrite (_tasks_cached self w' ts Hc).
Qed.

End Convergence.

(** ** Idempotence *)

Lemma filter_all {A} (P : A → Prop) `{!∀ x, Decision (P x)} (l : list A) :
  Forall P l → filter P l = l.
Proof.
  induction 1 as [|x l Hx _ IH]; [done|].
  by rewrite filter_cons_True, IH.
Qed.

Lemma filter_none {A} (P : A → Prop) `{!∀ x, Decision (P x)} (l : list A) :
  Forall (λ x, ¬ P x) l → filter P l = [].
Proof.
  induction 1 as [|x l Hx _ IH]; [done|].
  by rewrite filter_cons_False, IH.
Qed.

Lemma deleted_filter column ids rows :
  deleted column ids rows = filter (λ r, cell r column ∉ ids) rows.
Proof.
  unfold deleted. revert rows. induction ids as [|v ids IH]; intros rows; simpl.
  - symmetry. apply filter_all, Forall_forall. intros r _.
    apply not_elem_of_nil.
  - rewrite IH. unfold rows_delete. rewrite list_filter_filter.
    apply list_filter_iff. intros r. rewrite not_elem_of_cons. tauto.
Qed.

Lemma last_wins_subseteq column news r :
  r ∈ last_wins column news → r ∈ news.
Proof.
  induction news as [|r' news IH]; simpl; [done|].
  destruct (decide _).
  - intros Hr. apply elem_of_cons. right. by apply IH.
  - intros [->|Hr]%elem_of_cons; apply elem_of_cons; [by left|].
    right. by apply IH.
Qed.

(** Upserts under a uniqueness constraint on [column] keep the old rows
    whose identity is not rewritten, then the last row of each identity. *)
Lemma upserts_last_wins column news rows :
  foldl (λ rows r, rows_upsert (Some column) r rows) rows news
  = filter (λ r, cell r column ∉ (λ r', cell r' column) <$> news) rows
      ++ last_wins column news.
Proof.
  revert rows. induction news as [|r news IH]; intros rows; simpl.
  - rewrite app_nil_r. symmetry. apply filter_all, Forall_forall.
    intros r _. apply not_elem_of_nil.
  - rewrite IH. unfold rows_upsert. rewrite filter_app, list_filter_filter.
    rewrite <- (assoc_L (++)). f_equal.
    + apply list_filter_iff. intros old. rewrite not_elem_of_cons.
      unfold conflicts. rewrite bool_decide_eq_false. tauto.
    + rewrite filter_cons, filter_nil.
      destruct (decide (cell r column ∉ _)) as [Hn|Hn];
        destruct (decide (cell r column ∈ _)) as [Hi|Hi]; done.
Qed.

Lemma elem_of_writes st evs : DbWrite st ∈ evs → st ∈ writes evs.
Proof.
  intros Hin. unfold writes. apply list_elem_of_omap.
  exists (DbWrite st). by split.
Qed.

Section Idempotence.

Context {util : Util} {engine : DbEngine}.

Variable self : Project.

Lemma upserted_rows key paramss rows :
  upserted self key paramss rows
  = foldl (λ rows r, rows_upsert key r rows) rows (row_of self <$> paramss).
Proof.
  unfold upserted. revert rows.
  induction paramss as [|params paramss IH]; intros rows; simpl; [done|].
  by rewrite IH.
Qed.

(** Synchronizing rows that a synchronization has produced, against
    the same records, produces them again. *)
Lemma resynchronized_rows column paramss (remote : gset value) rows :
  list_to_set ((λ r, cell r column) <$> (row_of self <$> paramss)) = remote →
  let rows1 :=
    deleted column (elements (stored_ids column rows ∖ remote))
      (upserted self (Some column) paramss rows) in
  upserted self (Some column) paramss rows1 = rows1.
Proof.
  intros Hremote rows1.
  set (news := row_of self <$> paramss) in *.
  set (ids := (λ r, cell r column) <$> news) in *.
  assert (∀ r, r ∈ last_wins column news → cell r column ∈ ids) as Hlw.
  { intros r Hr%last_wins_subseteq. unfold ids.
    apply list_elem_of_fmap. by exists r. }
  assert (rows1 = last_wins column news) as ->.
  { unfold rows1. rewrite deleted_filter, upserted_rows, upserts_last_wins.
    fold news. fold ids. rewrite filter_app.
    rewrite filter_none, filter_all; [done| |].
    - apply Forall_forall. intros r Hr Hin.
      apply elem_of_elements, elem_of_difference in Hin as [_ Hin].
      apply Hin. rewrite <- Hremote. apply elem_of_list_to_set. by apply Hlw.
    - apply Forall_forall. intros r [Hn Hr]%list_elem_of_filter Hstale.
      apply Hstale, elem_of_elements, elem_of_difference. split.
      + apply elem_of_stored_ids. by exists r.
      + rewrite <- Hremote. by rewrite elem_of_list_to_set. }
  rewrite upserted_rows, upserts_last_wins. fold news. fold ids.
  rewrite filter_none; [done|].
  apply Forall_forall. intros r Hr Hn. by apply Hn, Hlw.
Qed.

(** C2, as amended: after a run of [synchronize] that returns, a second
    run on the same object returns too and leaves the table contents as
    the first run left them; it issues no delete and asks the remote
    nothing. This holds provided the first declared direct field
    extracts the [id] attribute and the table's uniqueness constraint
    is on that field's column. *)
Theorem synchronize_is_idempotent w w1 :
  identity_field_extracts_id self →
  (∀ tn t, known_table_name self w1 = Some tn →
           db w !! tn = Some t →
           t_unique t = sql_name <$> _direct_fields self !! 0%nat) →
  synchronize self w = (Ok tt, w1) →
  ∃ w2 evs,
    synchronize self w1 = (Ok tt, w2) ∧
    db w2 = db w1 ∧
    trace w2 = trace w1 ++ evs ∧
    Forall (λ e, ¬ is_delete e ∧ ¬ is_remote_fetch e) evs.
Proof.
  intros Hid Huniq Hrun.
  destruct (synchronize_ok self w w1 Hrun)
    as (f & rest & tn & t & ts & paramss & Hd & Ht & Hps & Hs).
  pose proof Hs as (Hkn & Hc & Hdb & _).
  specialize (Huniq tn t Hkn Ht). rewrite Hd in Huniq. simpl in Huniq.
  assert (unique_on_identity self t) as Hon.
  { intros k Hk. rewrite Hd. simpl. congruence. }
  destruct (synchronized_ids self f rest tn t ts paramss w w1 Hid Hon Hd
              Hps Hs) as (t1 & Ht1 & Hids).
  assert (list_to_set
            ((λ r, cell r (sql_name f)) <$> (row_of self <$> paramss))
          = remote_ids ts) as Hremote.
  { unfold remote_ids.
    rewrite <- (identity_cells self f rest ts paramss Hid Hd Hps).
    by rewrite <- list_fmap_compose. }
  pose proof (resynchronized_rows (sql_name f) paramss (remote_ids ts)
                (t_rows t) Hremote) as Hagain.
  simpl in Hagain.
  rewrite (synchronize_known self f rest tn t1 ts w1 Hd Hkn Ht1 Hc).
  set (w1' := (log (DbRead (Select tn [sql_name f])) w1).2).
  destruct (reconcile_ok self f rest tn t1 ts paramss
              (stored_ids (sql_name f) (t_rows t1)) (remote_ids ts) w1'
              Hd Hkn Ht1 Hc Hps) as (w2 & Hrun2 & Hdb2 & Hw2).
  rewrite Hids, difference_diag_L, elements_empty in Hdb2, Hw2.
  simpl in Hdb2, Hw2. rewrite app_nil_r in Hw2.
  destruct Hw2 as (_ & _ & evs & Htr & Hwr & Hnf).
  exists w2, (DbRead (Select tn [sql_name f]) :: evs).
  split; [done|]. split.
  - rewrite Hdb2.
    assert (t1 = with_rows t
              (deleted (sql_name f)
                 (elements
                    (stored_ids (sql_name f) (t_rows t) ∖ remote_ids ts))
                 (upserted self (t_unique t) paramss (t_rows t)))) as Heq.
    { rewrite Hdb, lookup_insert_eq in Ht1. by injection Ht1. }
    rewrite Huniq in Heq. rewrite Heq at 1 2 3.
    unfold with_rows at 1. cbn [t_unique t_rows with_rows].
    rewrite Huniq, Hagain, <- Huniq. unfold deleted at 1. simpl.
    rewrite <- Huniq in Heq.
    replace {| t_unique := t_unique t; t_rows := _ |} with t1
      by (rewrite Heq; unfold with_rows; by rewrite Huniq).
    by apply insert_id.
  - split; [rewrite Htr; unfold w1'; simpl; by rewrite <- (assoc_L (++))|].
    constructor; [split; by intros []|].
    apply Forall_forall. intros e He. split.
    + destruct e as [? ?|? ?|? ?|?|st|q|? ?]; try by intros [].
      apply elem_of_writes in He. rewrite Hwr in He.
      apply list_elem_of_fmap in He as (params & -> & _). by intros [].
    + rewrite Forall_forall in Hnf. by apply Hnf.
Qed.

End Idempotence.

(** ** The table name *)

Section TableName.

Context {util : Util} {engine : DbEngine}.

(** C7, as amended: [table_name] returns the SQL-safe transformation of
    the configured name when one is configured, without any remote
    fetch and without touching the world; otherwise the SQL-safe
    transformation of the project's display name, taken from the cache
    when the metadata is cached and fetched, logged and cached when it
    is not. *)
Theorem table_name_resolution self w :
  match configured_name self with
  | Some configured => table_name self w = (Ok (sql_safe_name configured), w)
  | None =>
      match _project_data_cache w with
      | Some data =>
          table_name self w = (Ok (sql_safe_name (pd_name data)), w)
      | None =>
          let fetch := FindById (_project_id self) "id,name,archived" in
          match projects_find_by_id (_asana_client self) (_project_id self)
                  "id,name,archived" with
          | Some data =>
              table_name self w =
                (Ok (sql_safe_name (pd_name data)),
                 (set_project_data_cache data (log fetch w).2).2)
          | None =>
              table_name self w =
                (Raise (NoSuchProjectException (_project_id self)),
                 (log fetch w).2)
          end
      end
  end.
Proof.
  destruct (configured_name self) as [c|] eqn:Hn.
  { apply table_name_known. unfold known_table_name. by rewrite Hn. }
  destruct (_project_data_cache w) as [d|] eqn:Hc.
  { apply table_name_known. unfold known_table_name. by rewrite Hn, Hc. }
  cbv zeta.
  destruct (projects_find_by_id _ _ _) as [d|] eqn:Hf.
  - unfold table_name, project_name. unfold configured_name in Hn.
    assert (_project_data self w =
              (Ok d, (set_project_data_cache d
                        (log (FindById (_project_id self) "id,name,archived")
                           w).2).2)) as Hrun.
    { unfold _project_data, bind, gets, log, modify. simpl.
      rewrite Hc, Hf. simpl. by rewrite ?Hc. }
    destruct (_table_name self) as [c|]; [destruct (truthy c)|];
      try discriminate; unfold bind; by rewrite Hrun.
  - by apply table_name_not_found.
Qed.

End TableName.

(** * Further properties of the methods *)

(** ** Upserts from a world that has yet to resolve the table name *)

Lemma table_name_no_write {util : Util} self w :
  ∃ evs, trace (table_name self w).2 = trace w ++ evs ∧ writes evs = [].
Proof.
  apply (emits_no_write (name_fetch self)); [apply name_fetch_not_write|].
  by apply table_name_emits.
Qed.

Lemma _tasks_no_write self w :
  ∃ evs, trace (_tasks self w).2 = trace w ++ evs ∧ writes evs = [].
Proof.
  apply (emits_no_write (task_fetch self)); [apply task_fetch_not_write|].
  by apply _tasks_emits.
Qed.

Section MoreRuns.

Context {util : Util} {engine : DbEngine}.

Variable self : Project.

(** Once the table name is resolved, resolving it again changes nothing:
    the upsert goes on as from the world the resolution left. *)
Lemma insert_or_replace_resolved task params tn w w0 :
  params_of self task = Some params →
  table_name self w = (Ok tn, w0) →
  insert_or_replace self task w = insert_or_replace self task w0.
Proof.
  intros Hps Htn. rewrite !insert_or_replace_run, Hps.
  by rewrite Htn, (table_name_known self w0 tn (table_name_ok _ _ _ _ Htn)).
Qed.

(** An upsert that returns has resolved the table name, found the table
    and written one row. *)
Lemma insert_or_replace_returns task w w' :
  insert_or_replace self task w = (Ok tt, w') →
  ∃ tn t params w0,
    table_name self w = (Ok tn, w0) ∧
    extracts self task = Some params ∧
    db w !! tn = Some t ∧
    db w' = <[tn := with_rows t
               (rows_upsert (t_unique t) (row_of self params) (t_rows t))]>
              (db w) ∧
    wrote [upsert_of self tn params] w0 w'.
Proof.
  intros Hrun.
  destruct (params_of self task) as [params|] eqn:Hps;
    [|by rewrite insert_or_replace_run, Hps in Hrun].
  pose proof (table_name_same_db self w) as Hdb. unfold unchanged in Hdb.
  destruct (table_name self w) as [[tn|e] w0] eqn:Htn;
    [|by rewrite insert_or_replace_run, Hps, Htn in Hrun].
  simpl in Hdb.
  rewrite (insert_or_replace_resolved task params tn w w0 Hps Htn) in Hrun.
  pose proof (table_name_ok self w tn w0 Htn) as Hkn.
  destruct (db w0 !! tn) as [t|] eqn:Ht.
  - destruct (extracts self task) as [params'|] eqn:Hex.
    + destruct (insert_or_replace_ok self tn task params' t w0 Hkn Ht Hex)
        as (w'' & Hrun' & Hdb' & Hw).
      rewrite Hrun' in Hrun. injection Hrun as <-.
      exists tn, t, params', w0. rewrite <- Hdb. done.
    + destruct (insert_or_replace_fail self task w0 Hex) as (e & w'' & Hf).
      congruence.
  - exfalso. revert Hrun.
    rewrite insert_or_replace_run, Hps, (table_name_known self w0 tn Hkn).
    unfold bind at 1. rewrite db_client_write_run. simpl. rewrite Ht.
    discriminate.
Qed.

(** An export from a world that knows the table name. *)
Lemma export_known tn t w w' :
  known_table_name self w = Some tn →
  db w !! tn = Some t →
  export self w = (Ok tt, w') →
  ∃ ts paramss,
    _task_cache w' = Some ts ∧
    mapM (extracts self) ts = Some paramss ∧
    known_table_name self w' = Some tn ∧
    db w' = <[tn := with_rows t
               (upserted self (t_unique t) paramss (t_rows t))]> (db w).
Proof.
  intros Hkn Ht. unfold export, bind at 1.
  pose proof (_tasks_ok self w) as Hc.
  pose proof (_tasks_same_db self w) as Hdb.
  pose proof (_tasks_caches_kept self w) as Hck.
  destruct (_tasks self w) as [[ts|e] w1]; [|discriminate].
  specialize (Hc ts w1 eq_refl). simpl in Hdb, Hck. unfold unchanged in Hdb.
  intros Hrun. exists ts.
  assert (known_table_name self w1 = Some tn) as Hkn1
    by by eapply known_table_name_kept.
  assert (db w1 !! tn = Some t) as Ht1 by by rewrite Hdb.
  destruct (mapM (extracts self) ts) as [paramss|] eqn:Hps.
  - destruct (upsert_loop_ok self tn ts paramss t w1 Hkn1 Ht1 Hps)
      as (w'' & Hrun' & Hdb' & Hw).
    rewrite Hrun' in Hrun. injection Hrun as <-.
    exists paramss. split; [by destruct Hw as (_ & -> & _)|].
    split; [done|].
    split; [by rewrite (known_table_name_wrote self _ _ _ Hw)|].
    by rewrite Hdb', Hdb.
  - destruct (upsert_loop_fail self tn ts t w1 Hkn1 Ht1 Hps)
      as (e & w'' & Hf).
    congruence.
Qed.

(** An export on such a world whose records all yield their values
    returns. *)
Lemma export_known_ok tn t ts paramss w :
  known_table_name self w = Some tn →
  db w !! tn = Some t →
  _task_cache w = Some ts →
  mapM (extracts self) ts = Some paramss →
  ∃ w', export self w = (Ok tt, w') ∧
        db w' = <[tn := with_rows t
                   (upserted self (t_unique t) paramss (t_rows t))]> (db w).
Proof.
  intros Hkn Ht Hc Hps. unfold export, bind at 1.
  rewrite (_tasks_cached self w ts Hc).
  destruct (upsert_loop_ok self tn ts paramss t w Hkn Ht Hps)
    as (w' & Hrun & Hdb & _).
  by exists w'.
Qed.

End MoreRuns.

(** ** Export *)

Section ExportRuns.

Context {util : Util} {engine : DbEngine}.

Variable self : Project.

(** An export that returns, from any world. *)
Lemma export_returns w w' :
  export self w = (Ok tt, w') →
  ∃ ts paramss tn evs,
    _task_cache w' = Some ts ∧
    mapM (extracts self) ts = Some paramss ∧
    trace w' = trace w ++ evs ∧
    writes evs = upsert_of self tn <$> paramss.
Proof.
  unfold export, bind at 1.
  pose proof (_tasks_ok self w) as Hc.
  destruct (_tasks_no_write self w) as (evs1 & Htr1 & Hwr1).
  destruct (_tasks self w) as [[ts|e] w1]; [|discriminate].
  specialize (Hc ts w1 eq_refl). simpl in Htr1.
  destruct ts as [|task ts].
  - intros [= <-]. exists [], [], EmptyString, evs1. by rewrite Hwr1.
  - intros Hrun. pose proof Hrun as Hfirst. simpl in Hfirst.
    apply bind_ok in Hfirst as ([] & w2 & Hfirst & _).
    destruct (insert_or_replace_returns self task w1 w2 Hfirst)
      as (tn & t & params & w0 & Htn & Hex & Ht & _ & _).
    pose proof (table_name_ok self w1 tn w0 Htn) as Hkn.
    pose proof (table_name_same_db self w1) as Hdb.
    pose proof (table_name_same_tasks self w1) as Htc.
    destruct (table_name_no_write self w1) as (evs0 & Htr0 & Hwr0).
    rewrite Htn in Hdb, Htc, Htr0. unfold unchanged in Hdb, Htc.
    simpl in Hdb, Htc, Htr0.
    assert (for_each (insert_or_replace self) (task :: ts) w0 = (Ok tt, w'))
      as Hrun0.
    { rewrite <- Hrun. simpl. unfold bind.
      by rewrite (insert_or_replace_resolved self task params tn w1 w0
                    (extracts_params_of self task params Hex) Htn). }
    assert (db w0 !! tn = Some t) as Ht0 by by rewrite Hdb.
    destruct (mapM (extracts self) (task :: ts)) as [paramss|] eqn:Hps.
    + destruct (upsert_loop_ok self tn (task :: ts) paramss t w0 Hkn Ht0 Hps)
        as (w'' & Hrun' & _ & Hw).
      rewrite Hrun' in Hrun0. injection Hrun0 as <-.
      destruct Hw as (_ & Hc' & evs & Htr & Hwr & _).
      exists (task :: ts), paramss, tn, (evs1 ++ evs0 ++ evs).
      split; [congruence|]. split; [done|].
      split; [by rewrite Htr, Htr0, Htr1, <- !(assoc_L (++))|].
      by rewrite !writes_app, Hwr1, Hwr0, Hwr.
    + destruct (upsert_loop_fail self tn (task :: ts) t w0 Hkn Ht0 Hps)
        as (e & w'' & Hf).
      congruence.
Qed.

(** X8: an export never deletes and never reads the table, whatever its
    outcome; one that returns has issued one upsert per fetched record,
    in the order of the records, and nothing else. *)
Theorem export_upserts_every_record w :
  emits (λ e, ¬ is_delete e ∧ ∀ q, e ≠ DbRead q) w (export self w).2 ∧
  match export self w with
  | (Raise _, _) => True
  | (Ok _, w') =>
      ∃ ts paramss tn evs,
        _task_cache w' = Some ts ∧
        Forall2 (λ task params, params_of self task = Some params)
          ts paramss ∧
        trace w' = trace w ++ evs ∧
        writes evs = upsert_of self tn <$> paramss
  end.
Proof.
  split.
  { apply export_emits.
    - intros [? ?|? ?|? ?|?|st|q|? ?] He; simpl in *; try tauto;
        split; (tauto || discriminate).
    - intros [? ?|? ?|? ?|?|st|q|? ?] He; simpl in *; try tauto;
        try (split; (tauto || discriminate)).
      destruct st; simpl in *; try tauto. split; [tauto | discriminate]. }
  destruct (export self w) as [[[]|e] w'] eqn:Hrun; [|done].
  destruct (export_returns w w' Hrun)
    as (ts & paramss & tn & evs & Hc & Hps & Htr & Hwr).
  exists ts, paramss, tn, evs. split; [done|]. split; [|done].
  apply mapM_Some_1 in Hps. eapply Forall2_impl; [exact Hps|].
  intros task params. apply extracts_params_of.
Qed.

(** X9: an export keeps every identity the table held and adds those of
    the remote records: no row is removed for being absent from the
    remote. This holds provided the first declared direct field extracts
    the [id] attribute and the table's uniqueness constraint, if it has
    one, is on that field's column. *)
Theorem export_adds_identities id_field rest tn t w w' :
  identity_field_extracts_id self →
  _direct_fields self = id_field :: rest →
  known_table_name self w = Some tn →
  db w !! tn = Some t →
  unique_on_identity self t →
  export self w = (Ok tt, w') →
  ∃ ts t',
    _task_cache w' = Some ts ∧
    db w' !! tn = Some t' ∧
    stored_ids (sql_name id_field) (t_rows t')
    = stored_ids (sql_name id_field) (t_rows t) ∪ remote_ids ts.
Proof.
  intros Hid Hd Hkn Ht Huniq Hrun.
  destruct (export_known self tn t w w' Hkn Ht Hrun)
    as (ts & paramss & Hc & Hps & _ & Hdb).
  exists ts. eexists. split; [done|].
  split; [by rewrite Hdb, lookup_insert_eq|].
  unfold with_rows. cbn [t_rows].
  rewrite stored_ids_upserted.
  - by rewrite (identity_cells self id_field rest ts paramss).
  - intros k Hk. specialize (Huniq k Hk). rewrite Hd in Huniq.
    by injection Huniq.
Qed.

Lemma upserted_twice column paramss rows :
  upserted self (Some column) paramss
    (upserted self (Some column) paramss rows)
  = upserted self (Some column) paramss rows.
Proof.
  rewrite !upserted_rows, !upserts_last_wins.
  set (news := row_of self <$> paramss).
  rewrite filter_app, list_filter_filter.
  rewrite (filter_none _ (last_wins column news)).
  - rewrite app_nil_r. f_equal. apply list_filter_iff. tauto.
  - apply Forall_forall. intros r Hr%last_wins_subseteq Hn. apply Hn.
    apply list_elem_of_fmap. by exists r.
Qed.

(** X10: on a table with a uniqueness constraint, a second export on
    the same object leaves the table as the first export left it. *)
Theorem export_is_idempotent tn t column w w1 :
  known_table_name self w = Some tn →
  db w !! tn = Some t →
  t_unique t = Some column →
  export self w = (Ok tt, w1) →
  ∃ w2, export self w1 = (Ok tt, w2) ∧ db w2 = db w1.
Proof.
  intros Hkn Ht Hkey Hrun.
  destruct (export_known self tn t w w1 Hkn Ht Hrun)
    as (ts & paramss & Hc & Hps & Hkn1 & Hdb).
  assert (db w1 !! tn =
            Some (with_rows t (upserted self (t_unique t) paramss (t_rows t))))
    as Ht1 by by rewrite Hdb, lookup_insert_eq.
  destruct (export_known_ok self tn _ ts paramss w1 Hkn1 Ht1 Hc Hps)
    as (w2 & Hrun2 & Hdb2).
  exists w2. split; [done|]. rewrite Hdb2.
  unfold with_rows at 1 2. cbn [t_unique t_rows with_rows].
  rewrite Hkey, upserted_twice, <- Hkey.
  apply insert_id. by rewrite Ht1.
Qed.

End ExportRuns.

(** ** The constructor *)

Lemma foldl_add_field_keeps self fields :
  _asana_client (foldl _add_field self fields) = _asana_client self ∧
  _config (foldl _add_field self fields) = _config self ∧
  _project_id (foldl _add_field self fields) = _project_id self ∧
  _table_name (foldl _add_field self fields) = _table_name self.
Proof.
  revert self. induction fields as [|field fields IH]; intros self; [done|].
  simpl. destruct (IH (_add_field self field)) as (-> & -> & -> & ->).
  unfold _add_field. by destruct (truthy (sql_name field)).
Qed.

(** X1: the constructor sorts the declared fields by the truthiness of
    their [sql_name]: the direct fields are the declared fields that have
    a column and the indirect fields those that have none, each kind in
    declaration order, so that every declared field lands in exactly one
    of the two lists; the client, the configuration, the project id
    (absent: [None]) and the configured table name are taken over as
    given. *)
Theorem init_sorts_fields asana_client config fields :
  let self := init asana_client config fields in
  _direct_fields self
    = filter (λ field, truthy (sql_name field) = true) fields ∧
  _indirect_fields self
    = filter (λ field, truthy (sql_name field) ≠ true) fields ∧
  _direct_fields self ++ _indirect_fields self ≡ₚ fields ∧
  Forall (λ field, sql_name field ≠ EmptyString) (_direct_fields self) ∧
  Forall (λ field, sql_name field = EmptyString) (_indirect_fields self) ∧
  _asana_client self = asana_client ∧
  _config self = config ∧
  _project_id self = default VNone (cfg_project_id config) ∧
  _table_name self = cfg_table_name config.
Proof.
  intros self. destruct (init_fields asana_client config fields) as [Hd Hi].
  split; [done|]. split; [done|].
  split; [unfold self; rewrite Hd, Hi; apply filter_app_complement|].
  split.
  { unfold self. rewrite Hd. apply Forall_forall.
    intros field [Ht _]%list_elem_of_filter. by destruct (sql_name field). }
  split.
  { unfold self. rewrite Hi. apply Forall_forall.
    intros field [Ht _]%list_elem_of_filter.
    destruct (sql_name field); [done|]. by destruct Ht. }
  unfold self, init. apply foldl_add_field_keeps.
Qed.

(** X2: the attributes asked of the remote are those of the declared
    fields, whatever their kind and order: sorting the fields into direct
    and indirect neither drops nor adds a required attribute. *)
Theorem init_required_fields asana_client config fields :
  _required_fields (init asana_client config fields)
  = list_to_set (fields ≫= required_fields).
Proof.
  destruct (init_fields asana_client config fields) as [Hd Hi].
  unfold _required_fields. rewrite Hd, Hi.
  apply set_eq. intros a.
  rewrite !elem_of_list_to_set, !list_elem_of_bind.
  split; intros (field & Ha & Hin); exists field; (split; [done|]).
  - by rewrite <- (filter_app_complement
                     (λ field, truthy (sql_name field) = true) fields).
  - by rewrite (filter_app_complement
                  (λ field, truthy (sql_name field) = true) fields).
Qed.

(** ** Creating the table *)

Section CreateTable.

Context {util : Util} {engine : DbEngine}.

Variable self : Project.

Lemma _project_data_raises w e w' :
  _project_data self w = (Raise e, w') →
  e = NoSuchProjectException (_project_id self).
Proof.
  unfold _project_data, bind, gets, log, modify. simpl.
  destruct (_project_data_cache w); simpl; [discriminate|].
  destruct (projects_find_by_id _ _ _); simpl; [discriminate|].
  by intros [= <- _].
Qed.

Lemma table_name_raises w e w' :
  table_name self w = (Raise e, w') →
  e = NoSuchProjectException (_project_id self).
Proof.
  assert (∀ k : string → M string,
            (∀ name w1, ∃ r, k name w1 = (Ok r, w1)) →
            bind (project_name self) k w = (Raise e, w') →
            e = NoSuchProjectException (_project_id self)) as Hname.
  { intros k Hk. unfold project_name, bind.
    destruct (_project_data self w) as [[d|e0] w1] eqn:Hd; simpl.
    - destruct (Hk (pd_name d) w1) as [r ->]. discriminate.
    - intros [= <- _]. by eapply _project_data_raises. }
  unfold table_name.
  destruct (_table_name self) as [c|]; [destruct (truthy c)|].
  - discriminate.
  - apply Hname. intros name w1. by eexists.
  - apply Hname. intros name w1. by eexists.
Qed.

Lemma create_table_run w :
  create_table self w =
  match table_name self w with
  | (Raise e, w0) => (Raise e, w0)
  | (Ok tn, w0) =>
      let defs := field_definition_sql <$> _direct_fields self in
      (Ok tt,
       {| _project_data_cache := _project_data_cache w0;
          _task_cache := _task_cache w0;
          db := match db w0 !! tn with
                | Some _ => db w0
                | None => <[tn := {| t_unique := unique_column defs;
                                     t_rows := [] |}]> (db w0)
                end;
          trace := trace w0 ++ [DbWrite (CreateTable tn defs)] |})
  end.
Proof.
  unfold create_table, bind at 1.
  destruct (table_name self w) as [[tn|e] w0]; [|done].
  rewrite db_client_write_run. simpl. by destruct (db w0 !! tn).
Qed.

(** X3: [create_table] resolves the table name first. When that
    fails, it raises what the resolution raised, a
    [NoSuchProjectException], with no statement issued and the store as
    it was. When it succeeds, [create_table] hands the database client
    exactly one statement, whatever the client then answers: a CREATE
    TABLE for the resolved name whose columns are the definitions of the
    direct fields in declaration order, the indirect fields playing no
    part. A table already stored under that name is left as it is; when
    there was none and the call returns, an empty table is there. *)
Theorem create_table_declares_direct_fields w :
  let defs := field_definition_sql <$> _direct_fields self in
  let after := (create_table self w).2 in
  match table_name self w with
  | (Raise e, w0) =>
      create_table self w = (Raise e, w0) ∧
      e = NoSuchProjectException (_project_id self) ∧
      db w0 = db w ∧
      ∃ evs, trace w0 = trace w ++ evs ∧ writes evs = []
  | (Ok tn, w0) =>
      (∃ evs, trace w0 = trace w ++ evs ∧ writes evs = []) ∧
      trace after = trace w0 ++ [DbWrite (CreateTable tn defs)] ∧
      match db w !! tn with
      | Some _ => db after = db w
      | None =>
          (create_table self w).1 = Ok tt →
          ∃ t', db after !! tn = Some t' ∧ t_rows t' = []
      end
  end.
Proof.
  intros defs after. subst after. rewrite create_table_run.
  pose proof (table_name_raises w) as Hraise.
  pose proof (table_name_same_db self w) as Hdb. unfold unchanged in Hdb.
  destruct (table_name_no_write self w) as (evs & Htr & Hwr).
  destruct (table_name self w) as [[tn|e] w0]; simpl in *.
  - split; [by exists evs|]. split; [done|].
    rewrite Hdb. destruct (db w !! tn) as [t|]; [done|].
    intros _. eexists. by rewrite lookup_insert_eq.
  - split; [done|]. split; [by eapply Hraise|]. split; [done|].
    by exists evs.
Qed.

(** X4: creating the table a second time changes nothing in the store. *)
Theorem create_table_twice w w1 :
  create_table self w = (Ok tt, w1) →
  ∃ w2, create_table self w1 = (Ok tt, w2) ∧ db w2 = db w1.
Proof.
  rewrite create_table_run.
  pose proof (table_name_ok self w) as Hkn.
  destruct (table_name self w) as [[tn|e] w0]; [|discriminate].
  specialize (Hkn tn w0 eq_refl). intros [= <-].
  rewrite create_table_run, (table_name_known self _ tn) by exact Hkn.
  eexists. split; [done|]. simpl.
  destruct (db w0 !! tn) as [t|] eqn:Ht.
  - by rewrite Ht.
  - by rewrite lookup_insert_eq.
Qed.

End CreateTable.

(** ** One upsert *)

Section Upsert.

Context {util : Util} {engine : DbEngine}.

Variable self : Project.

Lemma indirect_loop_raises task fs n w :
  mapM (λ field, get_data_from_object field task) fs = None →
  ∃ w', indirect_loop task n fs w = (Raise FieldError, w') ∧ db w' = db w.
Proof.
  unfold indirect_loop.
  revert n w. induction fs as [|f fs IH]; intros n w; simpl; [discriminate|].
  destruct (get_data_from_object f task) as [v|]; simpl.
  - destruct (mapM _ fs) as [vs'|] eqn:Hfs; simpl; [discriminate|].
    intros _. unfold bind at 1. unfold bind at 1. simpl.
    match goal with
    | |- context [for_each_indexed ?body (S n) fs ?w0] =>
        destruct (IH (S n) w0 eq_refl) as (w' & Hrun & Hdb)
    end.
    rewrite Hrun. by exists w'.
  - intros _. unfold bind at 1. unfold bind at 1. simpl. by exists w.
Qed.

(** X5: when a direct field's descriptor raises on a record, the upsert
    raises before anything has happened: no statement is issued, the
    table name is not resolved, the world is as it was. *)
Theorem insert_or_replace_direct_failure task field w :
  field ∈ _direct_fields self →
  get_data_from_object field task = None →
  insert_or_replace self task w = (Raise FieldError, w).
Proof.
  intros Hin Hnone. rewrite insert_or_replace_run.
  assert (params_of self task = None) as ->; [|done].
  apply mapM_None, Exists_exists. by exists field.
Qed.

(** X6: when the direct fields yield their values and an indirect
    field's descriptor raises, the upsert raises after the row has been
    written: the row stays in the table. *)
Theorem insert_or_replace_indirect_failure task field tn t params w :
  known_table_name self w = Some tn →
  db w !! tn = Some t →
  params_of self task = Some params →
  field ∈ _indirect_fields self →
  get_data_from_object field task = None →
  ∃ w', insert_or_replace self task w = (Raise FieldError, w') ∧
        db w' = <[tn := with_rows t
                   (rows_upsert (t_unique t) (row_of self params) (t_rows t))]>
                  (db w) ∧
        ∃ t', db w' !! tn = Some t' ∧ row_of self params ∈ t_rows t'.
Proof.
  intros Hkn Ht Hps Hin Hnone.
  assert (mapM (λ field, get_data_from_object field task)
            (_indirect_fields self) = None) as Hind.
  { apply mapM_None, Exists_exists. by exists field. }
  rewrite insert_or_replace_run, Hps, (table_name_known self w tn Hkn).
  unfold bind at 1. rewrite db_client_write_run. simpl. rewrite Ht. simpl.
  match goal with
  | |- context [for_each_indexed ?body 0%nat ?fs ?w0] =>
      destruct (indirect_loop_raises task fs 0%nat w0 Hind)
        as (w' & Hrun & Hdb)
  end.
  unfold indirect_loop in Hrun. rewrite Hrun. exists w'.
  split; [done|]. split; [by rewrite Hdb|].
  eexists. split; [by rewrite Hdb; simpl; rewrite lookup_insert_eq|].
  simpl. unfold rows_upsert. apply elem_of_app. right.
  by apply list_elem_of_singleton.
Qed.

(** X7: an upsert that returns has handed the database client exactly
    one statement of its own, an INSERT OR REPLACE into the resolved
    table naming the columns of the direct fields, with as many
    parameters as columns. The table then holds the row written and,
    of the rows it held, those that do not conflict with it on the
    table's uniqueness constraint, and nothing else; the constraint is
    as it was. What the indirect fields do when they are visited is not
    part of this. *)
Theorem insert_or_replace_writes_one_row task w w' :
  insert_or_replace self task w = (Ok tt, w') →
  ∃ tn t t' params,
    params_of self task = Some params ∧
    length params = length (sql_name <$> _direct_fields self) ∧
    known_table_name self w' = Some tn ∧
    db w !! tn = Some t ∧
    db w' !! tn = Some t' ∧
    t_unique t' = t_unique t ∧
    t_rows t' ≡ₚ row_of self params
                   :: kept_rows (t_unique t) (row_of self params) (t_rows t) ∧
    ∃ evs, trace w' = trace w ++ evs ∧
           writes evs =
             [InsertOrReplace tn (sql_name <$> _direct_fields self) params].
Proof.
  intros Hrun.
  destruct (insert_or_replace_returns self task w w' Hrun)
    as (tn & t & params & w0 & Htn & Hex & Ht & Hdb & Hw).
  pose proof (extracts_params_of self task params Hex) as Hps.
  exists tn, t. eexists. exists params. split; [done|].
  split; [rewrite length_fmap; symmetry; by eapply length_mapM|].
  split.
  { rewrite (known_table_name_wrote self _ _ _ Hw).
    by eapply table_name_ok. }
  split; [done|].
  split; [by rewrite Hdb, lookup_insert_eq|].
  split; [done|].
  split.
  { simpl. unfold rows_upsert, kept_rows.
    symmetry. apply Permutation_cons_append. }
  destruct (table_name_no_write self w) as (evs0 & Htr0 & Hwr0).
  rewrite Htn in Htr0. simpl in Htr0.
  destruct Hw as (_ & _ & evs & Htr & Hwr & _).
  exists (evs0 ++ evs). rewrite Htr, Htr0, <- (assoc_L (++)), writes_app.
  split; [done|]. by rewrite Hwr0, Hwr.
Qed.

End Upsert.

(** ** Deleting and reading back *)

(** With distinct column names, a row reads back, column by column, as it
    was written. *)
Lemma cells_of_written_row (names : list string) (params : list value) :
  NoDup names → length names = length params →
  cell (list_to_map (zip names params)) <$> names = params.
Proof.
  revert params. induction names as [|n names IH]; intros [|p params] Hnd Hlen;
    try done.
  apply NoDup_cons in Hnd as [Hn Hnd]. injection Hlen as Hlen.
  simpl. f_equal.
  - unfold cell. by rewrite lookup_insert_eq.
  - rewrite <- (IH params Hnd Hlen) at 2.
    apply Forall_fmap_ext_1, Forall_forall. intros n' Hin.
    unfold cell. rewrite lookup_insert_ne; [done|]. by intros ->.
Qed.

Lemma dict_of_zip (names : list string) (vs : list value) :
  NoDup names → length names = length vs →
  (list_to_map (reverse (zip names vs)) : Row) = list_to_map (zip names vs).
Proof.
  intros Hnd Hlen. apply list_to_map_proper; [|apply reverse_Permutation].
  rewrite fmap_reverse, fst_zip by lia. by rewrite reverse_Permutation.
Qed.

(** What [dict(zip(field_names, row))] maps a name to: the cell of the
    row in that column, for the names read and for no other. *)
Lemma read_back_lookup (names : list string) (r : Row) (n : string) :
  read_back names r !! n
  = if decide (n ∈ names) then Some (cell r n) else None.
Proof.
  unfold read_back.
  assert ((reverse (zip names (cell r <$> names))).*1 ≡ₚ names) as Hfst.
  { rewrite fmap_reverse, fst_zip by (rewrite length_fmap; lia).
    apply reverse_Permutation. }
  destruct (decide (n ∈ names)) as [Hin|Hnotin].
  - destruct (list_to_map (reverse (zip names (cell r <$> names)))
                !! n) as [v|] eqn:Hv.
    + apply elem_of_list_to_map_2 in Hv. rewrite elem_of_reverse in Hv.
      apply list_elem_of_lookup_1 in Hv as [i Hi].
      apply lookup_zip_with_Some in Hi as (a & b & Heq & Ha & Hb).
      injection Heq as -> ->. rewrite list_lookup_fmap, Ha in Hb.
      by injection Hb as <-.
    + apply not_elem_of_list_to_map_2 in Hv. exfalso. apply Hv.
      by rewrite Hfst.
  - apply not_elem_of_list_to_map_1. by rewrite Hfst.
Qed.

Section DeleteSelect.

Context {util : Util} {engine : DbEngine}.

Variable self : Project.

(** X11: on an object that knows its table name, a delete goes through
    and removes the rows whose identity column, the column of the first
    direct field, holds the value: afterwards the value is no longer
    among the identities [db_task_ids] reads, the other identities are
    all still there and the other tables are untouched; a value that was
    not stored leaves the store as it was. *)
Theorem delete_removes_identity id_field rest tn t task_id w :
  _direct_fields self = id_field :: rest →
  known_table_name self w = Some tn →
  db w !! tn = Some t →
  let column := sql_name id_field in
  ∃ w' t',
    delete self task_id w = (Ok tt, w') ∧
    db w' !! tn = Some t' ∧
    (∀ r, r ∈ t_rows t' ↔
          r ∈ t_rows t ∧ cell r column ≠ task_id) ∧
    (db_task_ids self w').1
      = Ok (stored_ids column (t_rows t) ∖ {[task_id]}) ∧
    (∀ tn', tn' ≠ tn → db w' !! tn' = db w !! tn') ∧
    (task_id ∉ stored_ids column (t_rows t) → db w' = db w).
Proof.
  intros Hd Hkn Ht column.
  destruct (delete_ok self tn task_id id_field rest t w Hd Hkn Ht)
    as (w' & Hrun & Hdb & Hw).
  exists w'. eexists. split; [done|].
  split; [by rewrite Hdb, lookup_insert_eq|]. simpl.
  split.
  { intros r. unfold rows_delete. rewrite list_elem_of_filter. tauto. }
  split.
  { rewrite db_task_ids_run, Hd.
    rewrite (table_name_known self w' tn)
      by by rewrite (known_table_name_wrote self _ _ _ Hw).
    simpl. rewrite Hdb, lookup_insert_eq. simpl.
    by rewrite stored_ids_delete. }
  split; [intros tn' Hne; by rewrite Hdb, lookup_insert_ne|].
  intros Hnotin. rewrite Hdb. unfold rows_delete.
  rewrite filter_all, with_rows_same; [by apply insert_id|].
  apply Forall_forall. intros r Hr Heq. apply Hnotin.
  apply elem_of_stored_ids. by exists r.
Qed.

Lemma db_select_all_run tn t w :
  known_table_name self w = Some tn →
  db w !! tn = Some t →
  let names := sql_name <$> _direct_fields self in
  db_select_all self w
  = (Ok ((λ r, list_to_map (reverse (zip names (cell r <$> names))))
           <$> t_rows t),
     (log (DbRead (Select tn names)) w).2).
Proof.
  intros Hkn Ht names. unfold db_select_all, bind at 1.
  rewrite (table_name_known self w tn Hkn).
  unfold bind at 1. unfold db_client_read, bind at 1. simpl.
  unfold bind at 1. simpl. rewrite Ht. simpl.
  unfold rows_select. by rewrite <- list_fmap_compose.
Qed.

(** X12: when the direct fields have distinct column names, an upsert
    that returns followed by [db_select_all] reads the record back:
    among the mappings returned there is one that maps the column of
    every direct field to the value that field extracted from the
    record, and maps nothing else. *)
Theorem insert_then_select_all task w w' :
  NoDup (sql_name <$> _direct_fields self) →
  insert_or_replace self task w = (Ok tt, w') →
  ∃ records record,
    (db_select_all self w').1 = Ok records ∧
    record ∈ records ∧
    (∀ field, field ∈ _direct_fields self →
              record !! sql_name field = get_data_from_object field task) ∧
    dom record = list_to_set (sql_name <$> _direct_fields self).
Proof.
  intros Hnd Hrun.
  destruct (insert_or_replace_returns self task w w' Hrun)
    as (tn & t & params & w0 & Htn & Hex & Ht & Hdb & Hw).
  pose proof (extracts_params_of self task params Hex) as Hps.
  assert (length (sql_name <$> _direct_fields self) = length params) as Hlen
    by (rewrite length_fmap; by eapply length_mapM).
  assert (known_table_name self w' = Some tn) as Hkn.
  { rewrite (known_table_name_wrote self _ _ _ Hw).
    by eapply table_name_ok. }
  rewrite (db_select_all_run tn
             (with_rows t (rows_upsert (t_unique t) (row_of self params)
                             (t_rows t))) w' Hkn)
    by by rewrite Hdb, lookup_insert_eq.
  eexists. exists (row_of self params). split; [done|].
  split.
  { simpl. unfold rows_upsert. rewrite fmap_app. apply elem_of_app. right.
    simpl. apply list_elem_of_singleton.
    assert (cell (row_of self params) <$> (sql_name <$> _direct_fields self)
            = params) as ->
      by (unfold row_of; by apply cells_of_written_row).
    by rewrite dict_of_zip. }
  split.
  - intros field [i Hi]%list_elem_of_lookup_1.
    apply mapM_Some_1 in Hps.
    destruct (Forall2_lookup_l _ _ _ i field Hps Hi) as (v & Hv & Hget).
    rewrite Hget. unfold row_of.
    apply elem_of_list_to_map_1; [by rewrite fst_zip by lia|].
    apply (list_elem_of_lookup_2 _ i). apply lookup_zip_with_Some.
    exists (sql_name field), v. rewrite list_lookup_fmap, Hi. done.
  - unfold row_of. by rewrite dom_list_to_map_L, fst_zip by lia.
Qed.

(** X13: when the table name resolves to a table that exists,
    [db_select_all] issues one SELECT of the columns of the direct
    fields, leaves the store as it was and returns one mapping per
    stored row: the mappings returned are, up to their order, the stored
    rows read back, each mapping the column of every direct field to the
    cell of its row in that column and mapping nothing else. *)
Theorem db_select_all_reads_every_row tn w0 t w :
  table_name self w = (Ok tn, w0) →
  db w !! tn = Some t →
  let names := sql_name <$> _direct_fields self in
  ∃ records w',
    db_select_all self w = (Ok records, w') ∧
    records ≡ₚ read_back names <$> t_rows t ∧
    (∀ r n, read_back names r !! n
            = if decide (n ∈ names) then Some (cell r n) else None) ∧
    db w' = db w ∧
    trace w' = trace w0 ++ [DbRead (Select tn names)].
Proof.
  intros Htn Ht names.
  pose proof (table_name_ok self w tn w0 Htn) as Hkn.
  pose proof (table_name_same_db self w) as Hdb.
  rewrite Htn in Hdb. unfold unchanged in Hdb. simpl in Hdb.
  assert (db_select_all self w = db_select_all self w0) as ->.
  { unfold db_select_all, bind at 1. rewrite Htn.
    unfold bind at 2. by rewrite (table_name_known self w0 tn Hkn). }
  rewrite (db_select_all_run tn t w0 Hkn) by by rewrite Hdb.
  eexists _, _. split; [done|]. split; [done|].
  split; [intros r n; apply read_back_lookup|]. done.
Qed.

End DeleteSelect.
(** ** Runs that go through *)

Lemma bind_extends {A B} (m : M A) (k : A → M B) w :
  (∀ a, preserves extends (k a)) → extends (m w).2 (bind m k w).2.
Proof.
  intros Hk. unfold bind.
  destruct (m w) as [[a|e] w1]; simpl; [apply Hk | reflexivity].
Qed.

Section Forward.

Context {util : Util} {engine : DbEngine}.

Variable self : Project.

(** Whether the table name resolves, and to what, depends on the object
    and on the cached metadata alone. *)
Lemma table_name_same_cache w w' tn w1 :
  _project_data_cache w' = _project_data_cache w →
  table_name self w = (Ok tn, w1) →
  ∃ w1', table_name self w' = (Ok tn, w1').
Proof.
  intros Hc.
  assert (∀ d w0, _project_data self w = (Ok d, w0) →
                  ∃ w0', _project_data self w' = (Ok d, w0')) as Hpd.
  { intros d w0. unfold _project_data, bind, gets, log, modify. simpl.
    rewrite Hc. destruct (_project_data_cache w); simpl.
    - intros [= <- _]. by eexists.
    - destruct (projects_find_by_id _ _ _); simpl; [|discriminate].
      intros [= <- _]. by eexists. }
  assert (∀ k : string → string,
            bind (project_name self) (λ name, ret (k name)) w = (Ok tn, w1) →
            ∃ w1', bind (project_name self) (λ name, ret (k name)) w'
                   = (Ok tn, w1')) as Hname.
  { intros k. unfold project_name, bind.
    destruct (_project_data self w) as [[d|e] w0] eqn:Hd; [|discriminate].
    intros [= <- _]. destruct (Hpd d w0 eq_refl) as [w0' ->]. by eexists. }
  unfold table_name.
  destruct (_table_name self) as [c|]; [destruct (truthy c)|].
  - intros [= <- _]. by eexists.
  - apply Hname.
  - apply Hname.
Qed.

(** The task list, fetched if need be. *)
Lemma _tasks_available w ts :
  available_tasks self w = Some ts →
  ∃ w', _tasks self w = (Ok ts, w') ∧
        _project_data_cache w' = _project_data_cache w ∧
        _task_cache w' = Some ts ∧
        db w' = db w ∧
        ∃ evs, trace w' = trace w ++ evs ∧ writes evs = [].
Proof.
  unfold available_tasks. intros Hav.
  destruct (_tasks_no_write self w) as (evs & Htr & Hwr).
  destruct (_task_cache w) as [ts0|] eqn:Hc.
  - injection Hav as ->. rewrite (_tasks_cached self w ts Hc) in Htr.
    exists w. rewrite (_tasks_cached self w ts Hc).
    split; [done|]. split; [done|]. split; [done|]. split; [done|].
    by exists evs.
  - destruct (tasks_find_by_project _ _ _) as [top|] eqn:Htop;
      simpl in Hav; [|discriminate].
    rewrite (_tasks_fetch_run self w top ts Hc Htop Hav) in Htr.
    rewrite (_tasks_fetch_run self w top ts Hc Htop Hav).
    eexists. split; [done|]. split; [done|]. split; [done|].
    split; [done|]. by exists evs.
Qed.

(** A run of [synchronize] on an object with a first direct field,
    whose table name resolves to a table that exists, whose tasks are
    there to be had and whose descriptors all yield, goes through. *)
Lemma synchronize_goes_through id_field rest tn w1 t ts paramss w :
  _direct_fields self = id_field :: rest →
  table_name self w = (Ok tn, w1) →
  db w !! tn = Some t →
  available_tasks self w = Some ts →
  mapM (extracts self) ts = Some paramss →
  ∃ w', synchronize self w = (Ok tt, w') ∧
        synchronized self id_field tn t ts paramss w w'.
Proof.
  intros Hd Htn Ht Hav Hps.
  pose proof (table_name_ok self w tn w1 Htn) as Hkn.
  pose proof (table_name_same_db self w) as Hdb.
  pose proof (table_name_same_tasks self w) as Htc.
  destruct (table_name_no_write self w) as (evs0 & Htr0 & Hwr0).
  rewrite Htn in Hdb, Htc, Htr0. unfold unchanged in Hdb, Htc.
  simpl in Hdb, Htc, Htr0.
  set (w2 := (log (DbRead (Select tn [sql_name id_field])) w1).2).
  assert (available_tasks self w2 = Some ts) as Hav2.
  { unfold available_tasks in *. simpl. by rewrite Htc. }
  destruct (_tasks_available w2 ts Hav2)
    as (w3 & Hrun3 & Hpd3 & Hc3 & Hdb3 & evs3 & Htr3 & Hwr3).
  assert (known_table_name self w3 = Some tn) as Hkn3.
  { unfold known_table_name in *. by rewrite Hpd3. }
  assert (db w3 !! tn = Some t) as Ht3.
  { rewrite Hdb3. simpl. by rewrite Hdb. }
  destruct (reconcile_ok self id_field rest tn t ts paramss
              (stored_ids (sql_name id_field) (t_rows t)) (remote_ids ts)
              w3 Hd Hkn3 Ht3 Hc3 Hps)
    as (w' & Hrun & Hdb' & Hw).
  exists w'. split.
  - unfold synchronize. unfold bind at 1.
    rewrite db_task_ids_run, Hd, Htn, Hdb, Ht. cbv zeta.
    unfold bind at 1. unfold asana_task_ids, bind at 1.
    fold w2. rewrite Hrun3. exact Hrun.
  - split; [by rewrite (known_table_name_wrote self _ _ _ Hw)|].
    destruct Hw as (_ & Htc' & evs & Htr & Hwr & _).
    split; [congruence|].
    split; [rewrite Hdb', Hdb3; simpl; by rewrite Hdb|].
    exists (evs0 ++ DbRead (Select tn [sql_name id_field]) :: evs3 ++ evs).
    split.
    + rewrite Htr, Htr3. simpl. rewrite Htr0, <- !(assoc_L (++)). done.
    + rewrite writes_app, Hwr0. simpl. by rewrite writes_app, Hwr3, Hwr.
Qed.

(** An [export] on such an object goes through as well. *)
Lemma export_goes_through tn w1 t ts paramss w :
  table_name self w = (Ok tn, w1) →
  db w !! tn = Some t →
  available_tasks self w = Some ts →
  mapM (extracts self) ts = Some paramss →
  ∃ w0 w' evs,
    _tasks self w = (Ok ts, w0) ∧
    export self w = (Ok tt, w') ∧
    _task_cache w' = Some ts ∧
    db w' = <[tn := with_rows t
               (upserted self (t_unique t) paramss (t_rows t))]> (db w) ∧
    trace w' = trace w0 ++ evs ∧
    writes evs = upsert_of self tn <$> paramss.
Proof.
  intros Htn Ht Hav Hps.
  destruct (_tasks_available w ts Hav)
    as (w0 & Hrun0 & Hpd0 & Hc0 & Hdb0 & _).
  exists w0. unfold export, bind at 1. rewrite Hrun0.
  destruct ts as [|task ts].
  - injection Hps as <-. exists w0, []. simpl.
    split; [done|]. split; [done|]. split; [done|].
    split; [|by rewrite app_nil_r].
    rewrite Hdb0, with_rows_same. symmetry. by apply insert_id.
  - destruct (table_name_same_cache w w0 tn w1 Hpd0 Htn) as [w0' Htn0].
    pose proof (table_name_ok self w0 tn w0' Htn0) as Hkn.
    pose proof (table_name_same_db self w0) as Hdb.
    pose proof (table_name_same_tasks self w0) as Htc.
    destruct (table_name_no_write self w0) as (evs0 & Htr0 & Hwr0).
    rewrite Htn0 in Hdb, Htc, Htr0. unfold unchanged in Hdb, Htc.
    simpl in Hdb, Htc, Htr0.
    assert (db w0' !! tn = Some t) as Ht0 by by rewrite Hdb, Hdb0.
    destruct (upsert_loop_ok self tn (task :: ts) paramss t w0' Hkn Ht0 Hps)
      as (w' & Hrun & Hdb' & Hw).
    assert (∃ params, params_of self task = Some params) as [params Hex].
    { simpl in Hps. destruct (extracts self task) as [params|] eqn:Hex;
        [|discriminate].
      exists params. by apply extracts_params_of. }
    exists w'.
    destruct Hw as (_ & Htc' & evs & Htr & Hwr & _).
    exists (evs0 ++ evs). split; [done|].
    split.
    { rewrite <- Hrun. simpl. unfold bind.
      by rewrite (insert_or_replace_resolved self task params tn w0 w0'
                    Hex Htn0). }
    split; [congruence|].
    split; [by rewrite Hdb', Hdb, Hdb0|].
    split; [by rewrite Htr, Htr0, <- (assoc_L (++))|].
    by rewrite writes_app, Hwr0, Hwr.
Qed.

(** With a first direct field, a run of [synchronize] whose table name
    resolves starts by reading the identity column; one whose table
    name does not resolve stops there. *)
Lemma synchronize_reads_identities_first id_field rest w :
  _direct_fields self = id_field :: rest →
  match table_name self w with
  | (Raise e, w1) => synchronize self w = (Raise e, w1)
  | (Ok tn, w1) =>
      ∃ evs, trace (synchronize self w).2
             = trace w1 ++ DbRead (Select tn [sql_name id_field]) :: evs
  end.
Proof.
  intros Hd.
  assert (extends (db_task_ids self w).2 (synchronize self w).2) as Hext.
  { unfold synchronize. apply bind_extends. intros local. unfold extends.
    pres.
    - by apply asana_task_ids_emits.
    - by apply _tasks_emits.
    - by apply insert_or_replace_emits.
    - by eapply delete_emits. }
  pose proof (db_task_ids_run self w) as Hids. rewrite Hd in Hids.
  destruct (table_name self w) as [[tn|e] w1].
  - destruct Hext as (evs & Htr & _). exists evs. rewrite Htr, Hids.
    destruct (db w1 !! tn); simpl; by rewrite <- (assoc_L (++)).
  - by apply bind_run_raise.
Qed.

End Forward.
(** ** The order of the statements, and the stale set *)

Section OrderOfStatements.

Context {util : Util} {engine : DbEngine}.

(** C3: whatever its outcome, a run of [synchronize] logs its events in
    two phases, the first without any delete statement and the second
    without any upsert: no delete precedes an upsert. A run that
    returns has issued exactly one upsert per fetched record, in order,
    followed by one delete per element of the set difference of the
    identity values read from the table and the [id] attributes of the
    fetched records. And a run does return, with those statements, on
    an object with a first direct field whose table name resolves to a
    table that exists, whose tasks are cached or fetched without
    failure, and whose descriptors yield a value on every record. *)
Theorem upserts_precede_deletes self w :
  emits2 (λ e, ¬ is_delete e) (λ e, ¬ is_upsert e) w
    (synchronize self w).2 ∧
  match synchronize self w with
  | (Raise _, _) => True
  | (Ok _, w') =>
      ∃ id_field tn t ts paramss,
        _direct_fields self !! 0%nat = Some id_field ∧
        db w !! tn = Some t ∧
        _task_cache w' = Some ts ∧
        Forall2 (λ task params, params_of self task = Some params)
          ts paramss ∧
        let local_ids := stored_ids (sql_name id_field) (t_rows t) in
        let stale_ids := local_ids ∖ remote_ids ts in
        ∃ evs,
          trace w' = trace w ++ evs ∧
          writes evs =
            (upsert_of self tn <$> paramss)
              ++ (DeleteFrom tn (sql_name id_field) <$> elements stale_ids)
  end ∧
  ∀ id_field tn w1 t ts paramss,
    _direct_fields self !! 0%nat = Some id_field →
    table_name self w = (Ok tn, w1) →
    db w !! tn = Some t →
    available_tasks self w = Some ts →
    mapM (extracts self) ts = Some paramss →
    let local_ids := stored_ids (sql_name id_field) (t_rows t) in
    let stale_ids := local_ids ∖ remote_ids ts in
    ∃ w' evs,
      synchronize self w = (Ok tt, w') ∧
      _task_cache w' = Some ts ∧
      (db_task_ids self w).1 = Ok local_ids ∧
      (asana_task_ids self w).1 = Ok (remote_ids ts) ∧
      trace w' = trace w ++ evs ∧
      writes evs =
        (upsert_of self tn <$> paramss)
          ++ (DeleteFrom tn (sql_name id_field) <$> elements stale_ids).
Proof.
  split; [apply synchronize_two_phases|]. split.
  - destruct (synchronize self w) as [[[]|e] w'] eqn:Hrun; [|done].
    destruct (synchronize_ok self w w' Hrun)
      as (f & rest & tn & t & ts & paramss & Hd & Ht & Hps & Hs).
    destruct Hs as (_ & Hc & _ & evs & Htr & Hwr).
    exists f, tn, t, ts, paramss.
    split; [by rewrite Hd|]. split; [done|]. split; [done|].
    split; [|by exists evs].
    apply mapM_Some_1 in Hps.
    eapply Forall2_impl; [exact Hps|].
    intros task params. unfold extracts.
    destruct (params_of self task); simpl; [|discriminate].
    destruct (mapM _ _); simpl; [|discriminate]. done.
  - intros f tn w1 t ts paramss Hf Htn Ht Hav Hps local_ids stale_ids.
    destruct (_direct_fields self) as [|f' rest] eqn:Hd; [discriminate|].
    injection Hf as ->.
    destruct (synchronize_goes_through self f rest tn w1 t ts paramss w
                Hd Htn Ht Hav Hps)
      as (w' & Hrun & _ & Hc & _ & evs & Htr & Hwr).
    exists w', evs. split; [done|]. split; [done|].
    split.
    { pose proof (table_name_same_db self w) as Hdb.
      rewrite db_task_ids_run, Hd, Htn. rewrite Htn in Hdb.
      unfold unchanged in Hdb. simpl in Hdb. by rewrite Hdb, Ht. }
    split; [|done].
    destruct (_tasks_available self w ts Hav) as (w0 & Hrun0 & _).
    unfold asana_task_ids, bind. by rewrite Hrun0.
Qed.

End OrderOfStatements.
(** ** The truncation warning *)

Section Truncation.

Context {util : Util} {engine : DbEngine}.

(** C5: when the top-level fetch returns 50 records or more, a warning
    is logged right after that fetch and before any subtask fetch; the
    fetch still returns every record, subtasks included, and [export]
    goes on to process each of them: an [export] that returns has
    issued one upsert per returned record, in order, after the events of
    the fetch, and it does return when the table name resolves to a
    table that exists and the descriptors yield a value on every
    record. The test is on the number of top-level records alone; below
    50 no warning is logged. *)
Theorem truncation_warning_is_not_fatal self w top result :
  _task_cache w = None →
  tasks_find_by_project (_asana_client self) (_project_id self)
    (projection self) = Some top →
  fetched_tasks self top = Some result →
  let w' := fetched w result (fetch_events self top) in
  tasks self w = (Ok result, w') ∧
  export self w = for_each (insert_or_replace self) result w' ∧
  (∃ subs expansion,
     result = top ++ subs ∧
     fetch_events self top =
       FindByProject (_project_id self) (projection self)
         :: warning top ++ expansion ∧
     Forall (λ e, ∃ task_id fields, e = Subtasks task_id fields)
       expansion) ∧
  ((50 ≤ length top)%nat → warning top = [PrintWarning (length top)]) ∧
  ((length top < 50)%nat →
     ∀ n, PrintWarning n ∉ fetch_events self top) ∧
  (∀ w'', export self w = (Ok tt, w'') →
     ∃ paramss tn evs,
       Forall2 (λ task params, params_of self task = Some params)
         result paramss ∧
       trace w'' = trace w ++ fetch_events self top ++ evs ∧
       writes evs = upsert_of self tn <$> paramss) ∧
  (∀ tn w1 t paramss,
     table_name self w = (Ok tn, w1) →
     db w !! tn = Some t →
     mapM (extracts self) result = Some paramss →
     ∃ w'' evs,
       export self w = (Ok tt, w'') ∧
       trace w'' = trace w ++ fetch_events self top ++ evs ∧
       writes evs = upsert_of self tn <$> paramss ∧
       length paramss = length result ∧
       db w'' = <[tn := with_rows t
                   (upserted self (t_unique t) paramss (t_rows t))]> (db w)).
Proof.
  intros Hc Htop Hres w'.
  assert (_tasks self w = (Ok result, w')) as Hrun
    by by apply _tasks_fetch_run.
  assert (export self w = for_each (insert_or_replace self) result w')
    as Hexport by (unfold export, bind; by rewrite Hrun).
  split; [done|]. split; [done|].
  split.
  { unfold fetched_tasks in Hres. unfold fetch_events.
    destruct (cfg_with_subtasks (_config self)).
    - destruct (subtask_lists self top) as [lists|]; [|discriminate].
      injection Hres as <-.
      exists (concat lists), (subtask_events self top).
      split; [done|]. split; [done|].
      unfold subtask_events. apply Forall_fmap, Forall_true.
      intros task. simpl. eauto.
    - injection Hres as <-. exists [], []. by rewrite app_nil_r. }
  split.
  { intros Hge. rewrite warning_spec. by destruct (decide _). }
  split.
  { intros Hlt n. unfold fetch_events. rewrite warning_spec.
    destruct (decide _) as [Hge|_]; [lia|]. simpl.
    intros Hin. apply elem_of_cons in Hin as [Hin|Hin]; [discriminate|].
    destruct (cfg_with_subtasks (_config self)).
    - unfold subtask_events in Hin.
      apply list_elem_of_fmap in Hin as (task & Heq & _). discriminate.
    - by apply not_elem_of_nil in Hin. }
  split.
  - intros w'' Hret. rewrite Hexport in Hret.
    assert (export self w' = (Ok tt, w'')) as Hret'.
    { unfold export, bind. by rewrite (_tasks_cached self w' result). }
    destruct (export_returns self w' w'' Hret')
      as (ts & paramss & tn & evs & Hc' & Hps & Htr & Hwr).
    pose proof (export_caches_kept self w') as [_ Hkept].
    rewrite Hret' in Hkept. simpl in Hkept.
    rewrite (Hkept result eq_refl) in Hc'. injection Hc' as <-.
    exists paramss, tn, evs. split; [|split; [|done]].
    + apply mapM_Some_1 in Hps. eapply Forall2_impl; [exact Hps|].
      intros task params. apply extracts_params_of.
    + rewrite Htr. simpl. by rewrite <- (assoc_L (++)).
  - intros tn w1 t paramss Htn Ht Hps.
    assert (available_tasks self w = Some result) as Hav.
    { unfold available_tasks. rewrite Hc, Htop. done. }
    destruct (export_goes_through self tn w1 t result paramss w
                Htn Ht Hav Hps)
      as (w0 & w'' & evs & Hrun0 & Hret & _ & Hdb & Htr & Hwr).
    rewrite Hrun in Hrun0. injection Hrun0 as <-.
    exists w'', evs. split; [done|].
    split; [rewrite Htr; simpl; by rewrite <- (assoc_L (++))|].
    split; [done|]. split; [|done].
    symmetry. by eapply length_mapM.
Qed.

End Truncation.
(** ** The identity column, used *)

Section IdentityColumn.

Context {util : Util} {engine : DbEngine}.

(** C10: [delete], [db_task_ids] and [synchronize] take the identity
    column from the first declared direct field. With no direct field
    each of them raises [IndexError] at once, leaving the world, and so
    the log of statements, as it was. With at least one, the lookup at
    index 0 succeeds and none of the three raises an index error; every
    DELETE and every identity SELECT they issue names the [sql_name] of
    the first direct field, and they do issue them: once the table name
    is resolved, [delete] issues the DELETE on that column for the value
    it is given, [db_task_ids] issues the SELECT of that column and
    returns the values the table holds in it, and [synchronize] starts
    with that SELECT and, when it goes through, deletes by that column
    the values the table held in it that are not the [id] of a fetched
    record. *)
Theorem identity_column_is_first_direct_field self task_id w :
  match _direct_fields self with
  | [] =>
      delete self task_id w = (Raise IndexError, w) ∧
      db_task_ids self w = (Raise IndexError, w) ∧
      synchronize self w = (Raise IndexError, w)
  | id_field :: _ =>
      let column := sql_name id_field in
      _id_field self w = (Ok id_field, w) ∧
      emits (uses_id_column column) w (delete self task_id w).2 ∧
      emits (uses_id_column column) w (db_task_ids self w).2 ∧
      emits (uses_id_column column) w (synchronize self w).2 ∧
      (delete self task_id w).1 ≠ Raise IndexError ∧
      (db_task_ids self w).1 ≠ Raise IndexError ∧
      (synchronize self w).1 ≠ Raise IndexError ∧
      match table_name self w with
      | (Raise e, w1) =>
          delete self task_id w = (Raise e, w1) ∧
          db_task_ids self w = (Raise e, w1) ∧
          synchronize self w = (Raise e, w1)
      | (Ok tn, w1) =>
          trace (delete self task_id w).2
            = trace w1 ++ [DbWrite (DeleteFrom tn column task_id)] ∧
          trace (db_task_ids self w).2
            = trace w1 ++ [DbRead (Select tn [column])] ∧
          (∃ evs, trace (synchronize self w).2
                  = trace w1 ++ DbRead (Select tn [column]) :: evs) ∧
          match db w !! tn with
          | None =>
              (delete self task_id w).1 = Raise StoreError ∧
              (db_task_ids self w).1 = Raise StoreError ∧
              (synchronize self w).1 = Raise StoreError
          | Some t =>
              let local_ids := stored_ids column (t_rows t) in
              (db_task_ids self w).1 = Ok local_ids ∧
              (delete self task_id w).1 = Ok tt ∧
              db (delete self task_id w).2 !! tn
                = Some (with_rows t (rows_delete column task_id (t_rows t))) ∧
              ∀ ts paramss,
                available_tasks self w = Some ts →
                mapM (extracts self) ts = Some paramss →
                ∃ w' evs,
                  synchronize self w = (Ok tt, w') ∧
                  trace w' = trace w ++ evs ∧
                  writes evs =
                    (upsert_of self tn <$> paramss)
                      ++ (DeleteFrom tn column
                            <$> elements (local_ids ∖ remote_ids ts))
          end
      end
  end.
Proof.
  destruct (_direct_fields self) as [|f rest] eqn:Hd.
  - assert (db_task_ids self w = (Raise IndexError, w)) as Hids
      by (by rewrite db_task_ids_run, Hd).
    split; [by rewrite delete_run, Hd|]. split; [done|].
    unfold synchronize, bind. by rewrite Hids.
  - assert (∀ e, id_read_event self e → uses_id_column (sql_name f) e)
      as HR.
    { intros [? ?|? ?|? ?|?|st|q|? ?] He; simpl in *; try done.
      destruct q; simpl in *.
      rewrite Hd in He. by injection He. }
    assert (∀ i e, delete_event self i e → uses_id_column (sql_name f) e)
      as HD.
    { intros i [? ?|? ?|? ?|?|st|q|? ?] He; simpl in *; try done.
      destruct st; simpl in *; try done.
      rewrite Hd in He. destruct He as [He _]. by injection He. }
    cbv zeta.
    split; [by rewrite _id_field_run, Hd|].
    split; [eapply delete_emits, HD|].
    split; [by apply db_task_ids_emits|].
    split.
    { apply synchronize_emits; [done| | |done].
      - by intros [].
      - intros [? ?|? ?|? ?|?|st|q|? ?] He; simpl in *; try done.
        by destruct st. }
    split; [by eapply delete_never_index_error|].
    split; [by eapply db_task_ids_never_index_error|].
    split; [by eapply synchronize_never_index_error|].
    pose proof (synchronize_reads_identities_first self f rest w Hd)
      as Hfirst.
    pose proof (table_name_same_db self w) as Hdb.
    unfold unchanged in Hdb.
    pose proof (delete_run self task_id w) as Hdel.
    pose proof (db_task_ids_run self w) as Hids.
    rewrite Hd in Hdel, Hids.
    destruct (table_name self w) as [[tn|e] w1] eqn:Htn; simpl in Hdb.
    + rewrite db_client_write_run in Hdel. simpl in Hdel.
      rewrite Hdb in Hdel, Hids. cbv zeta in Hids.
      split; [rewrite Hdel; by destruct (db w !! tn)|].
      split; [rewrite Hids; by destruct (db w !! tn)|].
      split; [exact Hfirst|].
      destruct (db w !! tn) as [t|] eqn:Ht; simpl in Hdel.
      * split; [by rewrite Hids|]. split; [by rewrite Hdel|].
        split; [rewrite Hdel; simpl; by rewrite lookup_insert_eq|].
        intros ts paramss Hav Hps.
        destruct (synchronize_goes_through self f rest tn w1 t ts paramss w
                    Hd Htn Ht Hav Hps)
          as (w' & Hrun & _ & _ & _ & evs & Htr & Hwr).
        by exists w', evs.
      * split; [by rewrite Hdel|]. split; [by rewrite Hids|].
        unfold synchronize, bind. by rewrite Hids.
    + split; [done|]. split; [done|]. exact Hfirst.
Qed.

End IdentityColumn.

(** ** Reading *)

Section Reads.

Context {util : Util} {engine : DbEngine}.

Variable self : Project.

Lemma db_task_ids_same_db : preserves (unchanged db) (db_task_ids self).
Proof.
  unfold db_task_ids, _id_field. pres;
    [apply table_name_same_db | by apply db_client_read_unchanged].
Qed.

Lemma db_select_all_same_db : preserves (unchanged db) (db_select_all self).
Proof.
  unfold db_select_all. pres;
    [apply table_name_same_db | by apply db_client_read_unchanged].
Qed.

(** X14: the getters and the read-backs never write: [tasks],
    [project_name], [table_name], [asana_task_ids], [db_task_ids] and
    [db_select_all] leave the store as it was and log no write, whatever
    their outcome; the first four issue no statement at all. *)
Theorem reading_never_writes op w :
  reads_only op = true →
  db (call self op w).2 = db w ∧
  emits (λ e, ¬ is_write e) w (call self op w).2 ∧
  (asks_remote_only op = true →
   emits (λ e, ¬ is_store_event e) w (call self op w).2).
Proof.
  intros Hop.
  assert (∀ e, metadata_fetch self e → ¬ is_store_event e) as Hm
    by (by intros e -> []).
  assert (∀ e, name_fetch self e → ¬ is_store_event e) as Hn
    by (intros e [_ He]; auto).
  assert (∀ e, task_fetch self e → ¬ is_store_event e) as Ht
    by (intros [? ?|? ?|? ?|?|st|q|? ?]; simpl; tauto).
  assert (∀ e, ¬ is_store_event e → ¬ is_write e) as Hsw
    by (intros [? ?|? ?|? ?|?|st|q|? ?]; simpl; tauto).
  assert (∀ e, id_read_event self e → ¬ is_write e) as Hr
    by (intros [? ?|? ?|? ?|?|st|q|? ?]; simpl; tauto).
  destruct op; try discriminate; simpl; unfold tasks.
  - assert (preserves (emits (λ e, ¬ is_store_event e))
              (_tasks self ;; ret tt)) as He
      by (pres; by apply _tasks_emits).
    split; [|split; [eapply emits_weaken; [exact Hsw | apply He]
                    | intros _; apply He]].
    assert (preserves (unchanged db) (_tasks self ;; ret tt)) as Hdb
      by (pres; apply _tasks_same_db).
    apply Hdb.
  - assert (preserves (emits (λ e, ¬ is_store_event e))
              (project_name self ;; ret tt)) as He
      by (pres; by apply project_name_emits).
    split; [|split; [eapply emits_weaken; [exact Hsw | apply He]
                    | intros _; apply He]].
    assert (preserves (unchanged db) (project_name self ;; ret tt)) as Hdb
      by (unfold project_name; pres; apply _project_data_same_db).
    apply Hdb.
  - assert (preserves (emits (λ e, ¬ is_store_event e))
              (table_name self ;; ret tt)) as He
      by (pres; by apply table_name_emits).
    split; [|split; [eapply emits_weaken; [exact Hsw | apply He]
                    | intros _; apply He]].
    assert (preserves (unchanged db) (table_name self ;; ret tt)) as Hdb
      by (pres; apply table_name_same_db).
    apply Hdb.
  - assert (preserves (emits (λ e, ¬ is_store_event e))
              (asana_task_ids self ;; ret tt)) as He
      by (pres; by apply asana_task_ids_emits).
    split; [|split; [eapply emits_weaken; [exact Hsw | apply He]
                    | intros _; apply He]].
    assert (preserves (unchanged db) (asana_task_ids self ;; ret tt)) as Hdb
      by (unfold asana_task_ids; pres; apply _tasks_same_db).
    apply Hdb.
  - split; [|split; [|discriminate]].
    + assert (preserves (unchanged db) (db_task_ids self ;; ret tt)) as Hdb
        by (pres; apply db_task_ids_same_db).
      apply Hdb.
    + assert (preserves (emits (λ e, ¬ is_write e))
                (db_task_ids self ;; ret tt)) as He
        by (pres; by apply db_task_ids_emits).
      apply He.
  - split; [|split; [|discriminate]].
    + assert (preserves (unchanged db) (db_select_all self ;; ret tt)) as Hdb
        by (pres; apply db_select_all_same_db).
      apply Hdb.
    + assert (preserves (emits (λ e, ¬ is_write e))
                (db_select_all self ;; ret tt)) as He.
      { pres. apply db_select_all_emits; [|by intros tn []].
        intros e He. by apply Hsw, Hn. }
      apply He.
Qed.

(** X15: once [table_name] has returned a name, every later call
    returns that name and leaves the world as it is, after any calls in
    between and whatever the remote would now answer: all the statements
    of an object name the same table. *)
Theorem table_name_is_stable w w1 tn ops client' :
  table_name self w = (Ok tn, w1) →
  let later := with_remote self client' in
  let w2 := calls later ops w1 in
  table_name later w2 = (Ok tn, w2).
Proof.
  intros Hrun later w2. apply table_name_known.
  apply (known_table_name_kept later w1 w2); [apply calls_caches_kept|].
  exact (table_name_ok self w tn w1 Hrun).
Qed.

End Reads.

(** ** More on the reconciliation *)

Lemma last_wins_NoDup column news :
  NoDup ((λ r, cell r column) <$> last_wins column news).
Proof.
  induction news as [|r news IH]; simpl; [constructor|].
  destruct (decide _) as [Hin|Hnotin]; [done|].
  rewrite fmap_cons. apply NoDup_cons. split; [|done].
  intros (r' & Heq & Hr')%list_elem_of_fmap. apply Hnotin.
  apply list_elem_of_fmap. exists r'. split; [done|].
  by apply last_wins_subseteq in Hr'.
Qed.

Section MoreSynchronize.

Context {util : Util} {engine : DbEngine}.

Variable self : Project.

(** The rows a reconciliation leaves, under a uniqueness constraint on
    the identity column. *)
Lemma reconciled_rows column paramss (remote : gset value) rows :
  list_to_set ((λ r, cell r column) <$> (row_of self <$> paramss)) = remote →
  deleted column (elements (stored_ids column rows ∖ remote))
    (upserted self (Some column) paramss rows)
  = last_wins column (row_of self <$> paramss).
Proof.
  intros Hremote.
  set (news := row_of self <$> paramss) in *.
  set (ids := (λ r, cell r column) <$> news) in *.
  rewrite deleted_filter, upserted_rows, upserts_last_wins.
  fold news. fold ids. rewrite filter_app.
  rewrite filter_none, filter_all; [done| |].
  - apply Forall_forall. intros r Hr%last_wins_subseteq Hin.
    apply elem_of_elements, elem_of_difference in Hin as [_ Hin].
    apply Hin. rewrite <- Hremote. apply elem_of_list_to_set.
    unfold ids. apply list_elem_of_fmap. by exists r.
  - apply Forall_forall. intros r [Hn Hr]%list_elem_of_filter Hstale.
    apply Hstale, elem_of_elements, elem_of_difference. split.
    + apply elem_of_stored_ids. by exists r.
    + rewrite <- Hremote. by rewrite elem_of_list_to_set.
Qed.

(** X16: when the remote holds no task, a run of [synchronize] that
    returns has emptied the table: every stored identity is stale, and
    the run wrote one delete per stored identity and no upsert. *)
Theorem synchronize_without_tasks_empties_table w w' :
  synchronize self w = (Ok tt, w') →
  _task_cache w' = Some [] →
  ∃ id_field tn t t' evs,
    _direct_fields self !! 0%nat = Some id_field ∧
    known_table_name self w' = Some tn ∧
    db w !! tn = Some t ∧
    db w' !! tn = Some t' ∧
    t_rows t' = [] ∧
    trace w' = trace w ++ evs ∧
    writes evs
    = DeleteFrom tn (sql_name id_field)
        <$> elements (stored_ids (sql_name id_field) (t_rows t)).
Proof.
  intros Hrun Hempty.
  destruct (synchronize_ok self w w' Hrun)
    as (f & rest & tn & t & ts & paramss & Hd & Ht & Hps & Hs).
  destruct Hs as (Hkn & Hc & Hdb & evs & Htr & Hwr).
  rewrite Hc in Hempty. injection Hempty as ->.
  injection Hps as <-.
  assert (remote_ids [] = ∅) as Hnone by done.
  rewrite Hnone, difference_empty_L in Hdb, Hwr. simpl in Hdb, Hwr.
  exists f, tn, t. eexists. exists evs.
  split; [by rewrite Hd|]. split; [done|]. split; [done|].
  split; [by rewrite Hdb, lookup_insert_eq|].
  split; [|done]. simpl. rewrite deleted_filter.
  apply filter_none, Forall_forall. intros r Hr Hn. apply Hn.
  apply elem_of_elements, elem_of_stored_ids. by exists r.
Qed.

(** X17: after a run of [synchronize] that returns, the table holds, for
    each identity among the fetched records, the row of the last record
    with that identity, once, and nothing else, in whatever order: what
    the table held before plays no part, no identity occurs twice, and
    every row is the row of a fetched record. This holds provided
    the first declared direct field extracts the [id] attribute and the
    table's uniqueness constraint is on that field's column. *)
Theorem synchronize_rewrites_table w w' :
  identity_field_extracts_id self →
  (∀ tn t, known_table_name self w' = Some tn →
           db w !! tn = Some t →
           t_unique t = sql_name <$> _direct_fields self !! 0%nat) →
  synchronize self w = (Ok tt, w') →
  ∃ id_field tn t' ts paramss,
    _direct_fields self !! 0%nat = Some id_field ∧
    known_table_name self w' = Some tn ∧
    _task_cache w' = Some ts ∧
    Forall2 (λ task params, params_of self task = Some params) ts paramss ∧
    db w' !! tn = Some t' ∧
    t_rows t' ≡ₚ last_wins (sql_name id_field) (row_of self <$> paramss) ∧
    NoDup ((λ r, cell r (sql_name id_field)) <$> t_rows t') ∧
    ∀ r, r ∈ t_rows t' →
         ∃ params, params ∈ paramss ∧ r = row_of self params.
Proof.
  intros Hid Huniq Hrun.
  destruct (synchronize_ok self w w' Hrun)
    as (f & rest & tn & t & ts & paramss & Hd & Ht & Hps & Hs).
  destruct Hs as (Hkn & Hc & Hdb & _).
  specialize (Huniq tn t Hkn Ht). rewrite Hd in Huniq. simpl in Huniq.
  assert (list_to_set
            ((λ r, cell r (sql_name f)) <$> (row_of self <$> paramss))
          = remote_ids ts) as Hremote.
  { unfold remote_ids.
    rewrite <- (identity_cells self f rest ts paramss Hid Hd Hps).
    by rewrite <- list_fmap_compose. }
  exists f, tn. eexists. exists ts, paramss.
  split; [by rewrite Hd|]. split; [done|]. split; [done|].
  split.
  { apply mapM_Some_1 in Hps. eapply Forall2_impl; [exact Hps|].
    intros task params. apply extracts_params_of. }
  split; [by rewrite Hdb, lookup_insert_eq|].
  unfold with_rows. cbn [t_rows].
  rewrite Huniq, (reconciled_rows (sql_name f) paramss (remote_ids ts))
    by done.
  split; [done|]. split; [apply last_wins_NoDup|].
  intros r Hr%last_wins_subseteq.
  apply list_elem_of_fmap in Hr as (params & -> & Hin). by exists params.
Qed.

End MoreSynchronize.

(** ** Fetches that fail *)

Lemma collect_subtasks_raises (client : AsanaClient) (fields : string) top w :
  mapM (λ task, tasks_subtasks client (get task "id") fields) top = None →
  ∃ w',
    collect (λ task, log (Subtasks (get task "id") fields) ;;
                     or_raise (tasks_subtasks client (get task "id") fields)
                       NotFoundError) top w = (Raise NotFoundError, w') ∧
    _task_cache w' = _task_cache w.
Proof.
  revert w. induction top as [|t top IH]; intros w; simpl; [discriminate|].
  destruct (tasks_subtasks client (get t "id") fields) as [l|] eqn:Hl; simpl.
  - destruct (mapM _ top) as [ls|] eqn:Hls; simpl; [discriminate|].
    intros _. unfold bind at 1. unfold bind at 1. simpl.
    unfold bind at 1.
    match goal with
    | |- context [collect _ top ?w0] =>
        destruct (IH w0 eq_refl) as (w' & -> & Hc)
    end.
    by exists w'.
  - intros _. unfold bind at 1. unfold bind at 1. simpl. by eexists.
Qed.

Section FailedFetches.

Context {util : Util} {engine : DbEngine}.

Variable self : Project.

(** X18: a not-found answer to the top-level task fetch is not
    translated: [tasks], [asana_task_ids] and [export] raise the
    remote's [NotFoundError] as it is, having logged the fetch and
    nothing else, and no task list is cached. *)
Theorem task_fetch_not_found_is_not_translated w :
  _task_cache w = None →
  tasks_find_by_project (_asana_client self) (_project_id self)
    (projection self) = None →
  let w' := (log (FindByProject (_project_id self) (projection self)) w).2 in
  tasks self w = (Raise NotFoundError, w') ∧
  asana_task_ids self w = (Raise NotFoundError, w') ∧
  export self w = (Raise NotFoundError, w') ∧
  _task_cache w' = None.
Proof.
  intros Hc Hnone w'.
  assert (_tasks self w = (Raise NotFoundError, w')) as Hrun.
  { unfold _tasks, bind at 1, gets. simpl. rewrite Hc.
    unfold bind at 1. simpl. unfold bind at 1. by rewrite Hnone. }
  split; [done|].
  split; [unfold asana_task_ids, bind; by rewrite Hrun|].
  split; [unfold export, bind; by rewrite Hrun|]. done.
Qed.

(** X19: when subtasks are included and one subtask fetch is answered
    not-found, [tasks] raises [NotFoundError] and caches nothing: the
    top-level tasks already fetched are dropped, and the next call
    starts over. *)
Theorem subtask_fetch_not_found_drops_the_fetch w top :
  _task_cache w = None →
  cfg_with_subtasks (_config self) = true →
  tasks_find_by_project (_asana_client self) (_project_id self)
    (projection self) = Some top →
  subtask_lists self top = None →
  ∃ w', tasks self w = (Raise NotFoundError, w') ∧ _task_cache w' = None.
Proof.
  intros Hc Hsub Htop Hl. unfold subtask_lists in Hl.
  unfold tasks, _tasks, bind at 1, gets. simpl. rewrite Hc.
  unfold bind at 1. simpl. unfold bind at 1. rewrite Htop. simpl.
  unfold bind at 1. rewrite Hsub.
  destruct (bool_decide (50 ≤ length top)%nat); simpl;
    unfold bind at 1; unfold bind at 1;
    match goal with
    | |- context [collect ?f top ?w0] =>
        destruct (collect_subtasks_raises _ _ top w0 Hl) as (w' & -> & Hc')
    end;
    exists w'; (split; [done|]); by rewrite Hc'.
Qed.

(** X20: a metadata fetch that fails stores nothing, so the next call
    asks the remote again: two calls of [_project_data] on a project the
    remote does not know log two fetches and both raise
    [NoSuchProjectException]. *)
Theorem failed_metadata_fetch_is_retried w :
  remote_not_found self →
  _project_data_cache w = None →
  let fetch := FindById (_project_id self) "id,name,archived" in
  let failed := NoSuchProjectException (_project_id self) in
  let w1 := (_project_data self w).2 in
  (_project_data self w).1 = Raise failed ∧
  _project_data_cache w1 = None ∧
  (_project_data self w1).1 = Raise failed ∧
  trace (_project_data self w1).2 = trace w ++ [fetch; fetch].
Proof.
  intros Hnf Hc fetch failed w1. unfold w1.
  rewrite (_project_data_not_found self w Hnf Hc). simpl.
  split; [done|]. split; [done|].
  rewrite (_project_data_not_found self _ Hnf) by done. simpl.
  split; [done|]. by rewrite <- (assoc_L (++)).
Qed.

End FailedFetches.

(** ** The scenarios, run *)

#[local] Existing Instances slug_util plain_engine.

Lemma synchronize_converges_witness :
  let w := fresh (tasks_table "id") in
  let w' := (synchronize project w).2 in
  synchronize project w = (Ok tt, w') ∧
  ∃ ts, _task_cache w' = Some ts ∧
        (db_task_ids project w').1 = Ok (remote_ids ts) ∧
        (asana_task_ids project w').1 = Ok (remote_ids ts).
Proof.
  intros w w'.
  assert (synchronize project w = (Ok tt, w')) as Hrun
    by (vm_compute; reflexivity).
  split; [exact Hrun|].
  apply (synchronize_converges project w w').
  - intros field t Hf. vm_compute in Hf. injection Hf as <-. reflexivity.
  - intros tn t Hkn Ht k Hk. vm_compute in Hkn. injection Hkn as <-.
    vm_compute in Ht. injection Ht as <-. simpl in Hk. injection Hk as <-.
    reflexivity.
  - exact Hrun.
Defined.

Lemma synchronize_is_idempotent_witness :
  let w := fresh (tasks_table "id") in
  let w1 := (synchronize project w).2 in
  synchronize project w = (Ok tt, w1) ∧
  ∃ w2 evs,
    synchronize project w1 = (Ok tt, w2) ∧
    db w2 = db w1 ∧
    trace w2 = trace w1 ++ evs ∧
    Forall (λ e, ¬ is_delete e ∧ ¬ is_remote_fetch e) evs.
Proof.
  intros w w1.
  assert (synchronize project w = (Ok tt, w1)) as Hrun
    by (vm_compute; reflexivity).
  split; [exact Hrun|].
  apply (synchronize_is_idempotent project w w1).
  - intros field t Hf. vm_compute in Hf. injection Hf as <-. reflexivity.
  - intros tn t Hkn Ht. vm_compute in Hkn. injection Hkn as <-.
    vm_compute in Ht. injection Ht as <-. reflexivity.
  - exact Hrun.
Defined.

Lemma project_not_found_witness :
  let w := fresh ∅ in
  let failed := NoSuchProjectException (VInt 7) in
  let w' := (log (FindById (VInt 7) "id,name,archived") w).2 in
  _project_data unknown_project w = (Raise failed, w') ∧
  project_name unknown_project w = (Raise failed, w') ∧
  (configured_name unknown_project = None →
     table_name unknown_project w = (Raise failed, w') ∧
     create_table unknown_project w = (Raise failed, w')) ∧
  ∀ op, fails_before_writing unknown_project w (call unknown_project op w).
Proof.
  apply (project_not_found_fails_before_writing unknown_project (fresh ∅));
    reflexivity.
Defined.

Lemma truncation_warning_witness :
  let w := fresh (tasks_table "id") in
  (tasks crowded_project w).1 = Ok fifty_tasks ∧
  PrintWarning 50 ∈ fetch_events crowded_project fifty_tasks ∧
  ∃ w'' evs,
    export crowded_project w = (Ok tt, w'') ∧
    trace w'' = trace w ++ fetch_events crowded_project fifty_tasks ++ evs ∧
    length (writes evs) = 50%nat ∧
    length <$> (t_rows <$> db w'' !! "tasks") = Some 50%nat.
Proof.
  intros w.
  assert (_task_cache w = None) as Hcache by exact eq_refl.
  assert (tasks_find_by_project (_asana_client crowded_project)
            (_project_id crowded_project) (projection crowded_project)
          = Some fifty_tasks) as Htop by exact eq_refl.
  assert (fetched_tasks crowded_project fifty_tasks = Some fifty_tasks)
    as Hres by exact eq_refl.
  pose proof (truncation_warning_is_not_fatal crowded_project w fifty_tasks
                fifty_tasks Hcache Htop Hres) as Hthm.
  cbv zeta in Hthm.
  destruct Hthm as (Hrun & _ & _ & Hwarn & _ & _ & Hgoes).
  split; [rewrite Hrun; exact eq_refl|]. split.
  { unfold fetch_events. rewrite Hwarn by (vm_compute; lia).
    apply elem_of_cons. right. apply elem_of_cons. left. exact eq_refl. }
  assert (mapM (extracts crowded_project) fifty_tasks
          = Some ((λ i, [VInt (Z.of_nat i); VStr "T"]) <$> seq 0 50))
    as Hps by (vm_compute; exact eq_refl).
  destruct (Hgoes "tasks" w {| t_unique := Some "id"; t_rows := [] |}
              ((λ i, [VInt (Z.of_nat i); VStr "T"]) <$> seq 0 50)
              eq_refl eq_refl Hps)
    as (w'' & evs & Hexport & Htr & Hwr & _ & Hdb).
  exists w'', evs. split; [exact Hexport|]. split; [exact Htr|].
  split; [rewrite Hwr; exact eq_refl|].
  rewrite Hdb. vm_compute. exact eq_refl.
Defined.

Lemma upserts_precede_deletes_witness :
  let w := fresh stocked_table in
  ∃ w' evs,
    synchronize project w = (Ok tt, w') ∧
    trace w' = trace w ++ evs ∧
    writes evs
    = [InsertOrReplace "tasks" ["id"; "name"] [VInt 1; VStr "A"];
       InsertOrReplace "tasks" ["id"; "name"] [VInt 2; VStr "B"];
       DeleteFrom "tasks" "id" (VInt 5)].
Proof.
  intros w.
  destruct (proj2 (proj2 (upserts_precede_deletes project w))
              id_field "tasks" w
              {| t_unique := Some "id"; t_rows := [task 5 "Old"] |}
              [task 1 "A"; task 2 "B"]
              [[VInt 1; VStr "A"]; [VInt 2; VStr "B"]])
    as (w' & evs & Hrun & _ & _ & _ & Htr & Hwr);
    [reflexivity | reflexivity | reflexivity | vm_compute; reflexivity
    | reflexivity |].
  exists w', evs. split; [exact Hrun|]. split; [exact Htr|].
  rewrite Hwr. vm_compute. reflexivity.
Defined.

Lemma projection_witness :
  let w := fresh ∅ in
  tasks project_with_subtasks w
  = (Ok [task 1 "A"; task 2 "B"; task 11 "A1"],
     fetched w [task 1 "A"; task 2 "B"; task 11 "A1"]
       [FindByProject (VInt 7) "id,name";
        Subtasks (VInt 1) "id,name"; Subtasks (VInt 2) "id,name"]).
Proof.
  intros w.
  exact (proj2 (proj2 (proj2 (proj2
           (projection_is_union_of_required_fields project_with_subtasks
              CallTasks w)))) eq_refl).
Defined.

Lemma identity_column_witness :
  let w := fresh stocked_table in
  trace (delete project (VInt 5) w).2
    = [DbWrite (DeleteFrom "tasks" "id" (VInt 5))] ∧
  db_task_ids project w
    = (Ok {[VInt 5]}, (log (DbRead (Select "tasks" ["id"])) w).2) ∧
  ∃ w' evs,
    synchronize project w = (Ok tt, w') ∧
    trace w' = trace w ++ evs ∧
    writes evs
    = [InsertOrReplace "tasks" ["id"; "name"] [VInt 1; VStr "A"];
       InsertOrReplace "tasks" ["id"; "name"] [VInt 2; VStr "B"];
       DeleteFrom "tasks" "id" (VInt 5)].
Proof.
  intros w.
  pose proof (identity_column_is_first_direct_field project (VInt 5) w)
    as Hid.
  change (_direct_fields project) with [id_field; name_field] in Hid.
  cbv beta iota zeta in Hid.
  destruct Hid as (_ & _ & _ & _ & _ & _ & _ & Hid).
  change (table_name project w) with (Ok "tasks", w) in Hid.
  change (db w !! "tasks")
    with (Some {| t_unique := Some "id"; t_rows := [task 5 "Old"] |})
    in Hid.
  cbv beta iota zeta in Hid.
  destruct Hid as (Hdel & _ & _ & _ & _ & _ & Hsync).
  split; [exact Hdel|]. split; [vm_compute; reflexivity|].
  destruct (Hsync [task 1 "A"; task 2 "B"]
              [[VInt 1; VStr "A"]; [VInt 2; VStr "B"]])
    as (w' & evs & Hrun & Htr & Hwr);
    [vm_compute; reflexivity | reflexivity |].
  exists w', evs. split; [exact Hrun|]. split; [exact Htr|].
  rewrite Hwr. vm_compute. reflexivity.
Defined.

Lemma subtasks_are_flattened_witness :
  let w := fresh (tasks_table "id") in
  (tasks project_with_subtasks w).1
  = Ok [task 1 "A"; task 2 "B"; task 11 "A1"].
Proof.
  intros w.
  destruct (subtasks_are_flattened project_with_subtasks w
              [task 1 "A"; task 2 "B"] [[task 11 "A1"]; []])
    as (Hrun & _);
    [reflexivity | reflexivity | vm_compute; reflexivity
    | vm_compute; reflexivity |].
  by rewrite Hrun.
Defined.

Lemma fetch_results_are_cached_witness :
  let w := fresh (tasks_table "id") in
  let later := with_remote project empty_remote in
  let w1 := (_project_data project w).2 in
  let w2 := calls later [CallSynchronize; CallProjectName] w1 in
  let v1 := (tasks project w).2 in
  let v2 := calls later [CallSynchronize; CallExport] v1 in
  _project_data later w2
  = (Ok {| pd_id := VInt 7; pd_name := "Road map"; pd_archived := false |},
     w2) ∧
  tasks later v2 = (Ok [task 1 "A"; task 2 "B"], v2).
Proof.
  intros w later w1 w2 v1 v2. split.
  - apply (proj1 (fetch_results_are_cached project w w1
                    [CallSynchronize; CallProjectName] empty_remote)).
    vm_compute. reflexivity.
  - apply (proj2 (fetch_results_are_cached project w v1
                    [CallSynchronize; CallExport] empty_remote)).
    vm_compute. reflexivity.
Defined.

(** With the name declared first, the identity column holds names: after
    a run that returns, the identity values read back from the table are
    not the [id] attributes of the remote records. *)
Lemma convergence_counterexample :
  let w := fresh (tasks_table "name") in
  let w' := (synchronize project_name_first w).2 in
  synchronize project_name_first w = (Ok tt, w') ∧
  (db_task_ids project_name_first w').1 = Ok {[VStr "A"; VStr "B"]} ∧
  (asana_task_ids project_name_first w').1 = Ok {[VInt 1; VInt 2]} ∧
  ¬ ∃ ids, (db_task_ids project_name_first w').1 = Ok ids ∧
           (asana_task_ids project_name_first w').1 = Ok ids.
Proof.
  intros w w'.
  assert ((db_task_ids project_name_first w').1 = Ok {[VStr "A"; VStr "B"]})
    as Hdb by (vm_compute; reflexivity).
  assert ((asana_task_ids project_name_first w').1 = Ok {[VInt 1; VInt 2]})
    as Hremote by (vm_compute; reflexivity).
  split; [vm_compute; reflexivity|]. split; [exact Hdb|].
  split; [exact Hremote|].
  intros (ids & H1 & H2). rewrite Hdb in H1. rewrite Hremote in H2.
  apply Ok_inj in H1, H2. subst ids.
  assert (VInt 1 ∈ ({[VStr "A"; VStr "B"]} : gset value)) as Hin
    by (rewrite <- H2; apply elem_of_union; left; by apply elem_of_singleton).
  apply elem_of_union in Hin as [Hin|Hin];
    apply elem_of_singleton in Hin; discriminate.
Qed.

(** With the name declared first, the second run deletes the rows the
    first run wrote: twice is not the same as once. *)
Lemma idempotence_counterexample :
  let w := fresh (tasks_table "name") in
  let w1 := (synchronize project_name_first w).2 in
  let w2 := (synchronize project_name_first w1).2 in
  synchronize project_name_first w = (Ok tt, w1) ∧
  synchronize project_name_first w1 = (Ok tt, w2) ∧
  length <$> (t_rows <$> db w1 !! "tasks") = Some 2%nat ∧
  length <$> (t_rows <$> db w2 !! "tasks") = Some 0%nat ∧
  db w2 ≠ db w1.
Proof.
  intros w w1 w2.
  assert (length <$> (t_rows <$> db w1 !! "tasks") = Some 2%nat) as H1
    by (vm_compute; reflexivity).
  assert (length <$> (t_rows <$> db w2 !! "tasks") = Some 0%nat) as H2
    by (vm_compute; reflexivity).
  split; [vm_compute; reflexivity|]. split; [vm_compute; reflexivity|].
  split; [exact H1|]. split; [exact H2|].
  intros Heq. rewrite Heq, H1 in H2. discriminate.
Qed.

(** A configured name that is not SQL-safe is not returned as it is. *)
Lemma table_name_counterexample :
  let w := fresh ∅ in
  configured_name project_my_table = Some "my table" ∧
  table_name project_my_table w = (Ok "my_table", w) ∧
  (table_name project_my_table w).1 ≠ Ok "my table".
Proof.
  intros w. split; [reflexivity|].
  assert (table_name project_my_table w = (Ok "my_table", w)) as Hrun
    by reflexivity.
  split; [exact Hrun|]. rewrite Hrun. discriminate.
Qed.

(** A fetch that fails is made again on the same object: [_project_data]
    asks the remote twice for a project it does not know, and [tasks]
    asks twice for the top-level tasks when a subtask fetch has failed:
    the same fetch is logged twice. *)
Lemma caching_counterexample :
  let w := fresh ∅ in
  let w1 := (_project_data unknown_project w).2 in
  let w2 := (_project_data unknown_project w1).2 in
  let v1 := (tasks flaky_project w).2 in
  let v2 := (tasks flaky_project v1).2 in
  trace w2
  = [FindById (VInt 7) "id,name,archived";
     FindById (VInt 7) "id,name,archived"] ∧
  trace v2
  = [FindByProject (VInt 7) "id,name"; Subtasks (VInt 1) "id,name";
     FindByProject (VInt 7) "id,name"; Subtasks (VInt 1) "id,name"] ∧
  ¬ NoDup (trace w2) ∧
  ¬ NoDup (trace v2).
Proof.
  intros w w1 w2 v1 v2.
  assert (trace w2
          = [FindById (VInt 7) "id,name,archived";
             FindById (VInt 7) "id,name,archived"]) as Hw
    by (vm_compute; reflexivity).
  assert (trace v2
          = [FindByProject (VInt 7) "id,name"; Subtasks (VInt 1) "id,name";
             FindByProject (VInt 7) "id,name"; Subtasks (VInt 1) "id,name"])
    as Hv by (vm_compute; reflexivity).
  split; [exact Hw|]. split; [exact Hv|]. rewrite Hw, Hv.
  clear Hw Hv w w1 w2 v1 v2.
  split; intros [Hnotin _]%NoDup_cons; apply Hnotin.
  - apply elem_of_cons. left. exact eq_refl.
  - apply elem_of_cons. right. apply elem_of_cons. left. exact eq_refl.
Qed.

(** ** Further scenarios, run *)

Lemma create_table_declares_witness :
  let w := fresh ∅ in
  trace (create_table project w).2
    = [DbWrite (CreateTable "tasks"
                  ["id INTEGER PRIMARY KEY"; "name VARCHAR(1024)"])] ∧
  ∃ t', db (create_table project w).2 !! "tasks" = Some t' ∧ t_rows t' = [].
Proof.
  intros w.
  pose proof (create_table_declares_direct_fields project w) as Hct.
  change (table_name project w) with (Ok "tasks", w) in Hct.
  cbv beta iota zeta in Hct.
  destruct Hct as (_ & Htr & Hdb).
  split; [exact Htr|].
  assert (db w !! "tasks" = None) as Hnone by reflexivity.
  rewrite Hnone in Hdb. apply Hdb. reflexivity.
Defined.

Lemma create_table_twice_witness :
  let w := fresh ∅ in
  let w1 := (create_table project_by_name w).2 in
  create_table project_by_name w = (Ok tt, w1) ∧
  ∃ w2, create_table project_by_name w1 = (Ok tt, w2) ∧ db w2 = db w1.
Proof.
  intros w w1.
  assert (create_table project_by_name w = (Ok tt, w1)) as Hrun
    by (vm_compute; reflexivity).
  split; [exact Hrun|].
  exact (create_table_twice project_by_name w w1 Hrun).
Defined.

Lemma insert_or_replace_direct_failure_witness :
  let w := fresh (tasks_table "id") in
  insert_or_replace project_with_due (task 1 "A") w = (Raise FieldError, w).
Proof.
  intros w.
  apply (insert_or_replace_direct_failure project_with_due (task 1 "A")
           due_field w).
  - vm_compute. apply elem_of_cons. right. apply elem_of_cons. by left.
  - reflexivity.
Defined.

Lemma insert_or_replace_indirect_failure_witness :
  let w := fresh (tasks_table "id") in
  ∃ w', insert_or_replace project_with_followers (task 1 "A") w
        = (Raise FieldError, w') ∧
        length <$> (t_rows <$> db w' !! "tasks") = Some 1%nat.
Proof.
  intros w.
  destruct (insert_or_replace_indirect_failure project_with_followers
              (task 1 "A") followers_field "tasks"
              {| t_unique := Some "id"; t_rows := [] |}
              [VInt 1; VStr "A"] w)
    as (w' & Hrun & Hdb & _).
  - reflexivity.
  - reflexivity.
  - reflexivity.
  - vm_compute. apply elem_of_cons. by left.
  - reflexivity.
  - exists w'. split; [exact Hrun|]. rewrite Hdb. reflexivity.
Defined.

Lemma insert_or_replace_writes_one_row_witness :
  let w := fresh road_map_table in
  let w' := (insert_or_replace project_by_name (task 1 "A") w).2 in
  insert_or_replace project_by_name (task 1 "A") w = (Ok tt, w') ∧
  ∃ tn t t' params,
    params_of project_by_name (task 1 "A") = Some params ∧
    known_table_name project_by_name w' = Some tn ∧
    db w !! tn = Some t ∧
    db w' !! tn = Some t' ∧
    row_of project_by_name params ∈ t_rows t'.
Proof.
  intros w w'.
  assert (insert_or_replace project_by_name (task 1 "A") w = (Ok tt, w'))
    as Hrun by (vm_compute; reflexivity).
  split; [exact Hrun|].
  destruct (insert_or_replace_writes_one_row project_by_name (task 1 "A")
              w w' Hrun)
    as (tn & t & t' & params & Hps & _ & Hkn & Ht & Ht' & _ & Hrows & _).
  exists tn, t, t', params.
  split; [exact Hps|]. split; [exact Hkn|]. split; [exact Ht|].
  split; [exact Ht'|].
  rewrite Hrows. apply elem_of_cons. left. exact eq_refl.
Defined.

Lemma export_adds_identities_witness :
  let w := fresh stocked_table in
  let w' := (export project w).2 in
  export project w = (Ok tt, w') ∧
  ∃ ts t',
    _task_cache w' = Some ts ∧
    db w' !! "tasks" = Some t' ∧
    stored_ids "id" (t_rows t')
    = stored_ids "id" [task 5 "Old"] ∪ remote_ids ts.
Proof.
  intros w w'.
  assert (export project w = (Ok tt, w')) as Hrun
    by (vm_compute; reflexivity).
  split; [exact Hrun|].
  apply (export_adds_identities project id_field [name_field] "tasks"
           {| t_unique := Some "id"; t_rows := [task 5 "Old"] |} w w').
  - intros field t Hf. vm_compute in Hf. injection Hf as <-. reflexivity.
  - reflexivity.
  - reflexivity.
  - reflexivity.
  - intros k Hk. simpl in Hk. injection Hk as <-. reflexivity.
  - exact Hrun.
Defined.

Lemma export_is_idempotent_witness :
  let w := fresh stocked_table in
  let w1 := (export project w).2 in
  export project w = (Ok tt, w1) ∧
  ∃ w2, export project w1 = (Ok tt, w2) ∧ db w2 = db w1.
Proof.
  intros w w1.
  assert (export project w = (Ok tt, w1)) as Hrun
    by (vm_compute; reflexivity).
  split; [exact Hrun|].
  apply (export_is_idempotent project "tasks"
           {| t_unique := Some "id"; t_rows := [task 5 "Old"] |} "id" w w1);
    [reflexivity | reflexivity | reflexivity | exact Hrun].
Defined.

Lemma delete_removes_identity_witness :
  let w := fresh stocked_table in
  ∃ w' t',
    delete project (VInt 5) w = (Ok tt, w') ∧
    db w' !! "tasks" = Some t' ∧
    (db_task_ids project w').1
    = Ok (stored_ids "id" [task 5 "Old"] ∖ {[VInt 5]}).
Proof.
  intros w.
  destruct (delete_removes_identity project id_field [name_field] "tasks"
              {| t_unique := Some "id"; t_rows := [task 5 "Old"] |}
              (VInt 5) w)
    as (w' & t' & Hrun & Ht' & _ & Hids & _);
    [reflexivity | reflexivity | reflexivity |].
  by exists w', t'.
Defined.

Lemma insert_then_select_all_witness :
  let w := fresh stocked_table in
  let w' := (insert_or_replace project (task 1 "A") w).2 in
  ∃ records record,
    (db_select_all project w').1 = Ok records ∧
    record ∈ records ∧
    record !! "id" = Some (VInt 1) ∧
    record !! "name" = Some (VStr "A").
Proof.
  intros w w'.
  destruct (insert_then_select_all project (task 1 "A") w w')
    as (records & record & Hread & Hin & Hfields & _).
  - vm_compute. apply NoDup_cons. split.
    + intros [Heq|Hin]%elem_of_cons; [discriminate|].
      by apply elem_of_nil in Hin.
    + apply NoDup_cons. split; [apply not_elem_of_nil | apply NoDup_nil_2].
  - vm_compute. reflexivity.
  - exists records, record. split; [exact Hread|]. split; [exact Hin|].
    split.
    + apply (Hfields id_field). vm_compute. apply elem_of_cons. by left.
    + apply (Hfields name_field). vm_compute.
      apply elem_of_cons. right. apply elem_of_cons. by left.
Defined.

Lemma db_select_all_reads_every_row_witness :
  let w := fresh stocked_table in
  ∃ records w',
    db_select_all project w = (Ok records, w') ∧
    records ≡ₚ [read_back ["id"; "name"] (task 5 "Old")] ∧
    db w' = db w.
Proof.
  intros w.
  destruct (db_select_all_reads_every_row project "tasks" w
              {| t_unique := Some "id"; t_rows := [task 5 "Old"] |} w)
    as (records & w' & Hrun & Hrecords & _ & Hdb & _);
    [reflexivity | reflexivity |].
  exists records, w'.
  split; [exact Hrun|]. split; [exact Hrecords | exact Hdb].
Defined.

Lemma reading_never_writes_witness :
  let w := fresh stocked_table in
  db (call project CallDbTaskIds w).2 = db w ∧
  emits (λ e, ¬ is_write e) w (call project CallDbTaskIds w).2.
Proof.
  intros w.
  destruct (reading_never_writes project CallDbTaskIds w) as (Hdb & He & _);
    [reflexivity|].
  by split.
Defined.

Lemma table_name_is_stable_witness :
  let w := fresh road_map_table in
  let w1 := (table_name project_by_name w).2 in
  let later := with_remote project_by_name empty_remote in
  let w2 := calls later [CallExport; CallSynchronize] w1 in
  table_name later w2 = (Ok "Road_map", w2).
Proof.
  intros w w1 later w2.
  apply (table_name_is_stable project_by_name w w1 "Road_map"
           [CallExport; CallSynchronize] empty_remote).
  vm_compute. reflexivity.
Defined.

Lemma synchronize_without_tasks_witness :
  let w := fresh stocked_table in
  let w' := (synchronize idle_project w).2 in
  synchronize idle_project w = (Ok tt, w') ∧
  ∃ t', db w' !! "tasks" = Some t' ∧ t_rows t' = [].
Proof.
  intros w w'.
  assert (synchronize idle_project w = (Ok tt, w')) as Hrun
    by (vm_compute; reflexivity).
  split; [exact Hrun|].
  destruct (synchronize_without_tasks_empties_table idle_project w w' Hrun)
    as (f & tn & t & t' & evs & _ & Hkn & _ & Ht' & Hrows & _);
    [reflexivity|].
  vm_compute in Hkn. injection Hkn as <-.
  exists t'. split; [exact Ht' | exact Hrows].
Defined.

Lemma synchronize_rewrites_table_witness :
  let w := fresh stocked_table in
  let w' := (synchronize project w).2 in
  synchronize project w = (Ok tt, w') ∧
  ∃ t', db w' !! "tasks" = Some t' ∧
        NoDup ((λ r, cell r "id") <$> t_rows t').
Proof.
  intros w w'.
  assert (synchronize project w = (Ok tt, w')) as Hrun
    by (vm_compute; reflexivity).
  split; [exact Hrun|].
  destruct (synchronize_rewrites_table project w w')
    as (f & tn & t' & ts & paramss & Hf & Hkn & _ & _ & Ht' & _ & Hnd & _).
  - intros field t Hfield. vm_compute in Hfield. injection Hfield as <-.
    reflexivity.
  - intros tn t Hkn Ht. vm_compute in Hkn. injection Hkn as <-.
    vm_compute in Ht. injection Ht as <-. reflexivity.
  - exact Hrun.
  - vm_compute in Hkn. injection Hkn as <-.
    vm_compute in Hf. injection Hf as <-.
    exists t'. split; [exact Ht' | exact Hnd].
Defined.

Lemma task_fetch_not_found_witness :
  let w := fresh ∅ in
  tasks unknown_project w
  = (Raise NotFoundError,
     (log (FindByProject (VInt 7) "id,name") w).2).
Proof.
  intros w.
  destruct (task_fetch_not_found_is_not_translated unknown_project w)
    as (Hrun & _); [reflexivity | reflexivity |].
  exact Hrun.
Defined.

Lemma subtask_fetch_not_found_witness :
  let w := fresh ∅ in
  ∃ w', tasks flaky_project w = (Raise NotFoundError, w') ∧
        _task_cache w' = None.
Proof.
  intros w.
  apply (subtask_fetch_not_found_drops_the_fetch flaky_project w
           [task 1 "A"; task 2 "B"]);
    [reflexivity | reflexivity | vm_compute; reflexivity
    | vm_compute; reflexivity].
Defined.

Lemma failed_metadata_fetch_witness :
  let w := fresh ∅ in
  let fetch := FindById (VInt 7) "id,name,archived" in
  trace (_project_data unknown_project (_project_data unknown_project w).2).2
  = [fetch; fetch].
Proof.
  intros w fetch.
  destruct (failed_metadata_fetch_is_retried unknown_project w)
    as (_ & _ & _ & Htr); [reflexivity | reflexivity |].
  exact Htr.
Defined.
